(** * Hexagonal chunk world: coordinate algebra, chunk construction,
      spatial index, generation queue, floating origin, layout caching and
      constraint parsing.

    A shallow embedding of the TypeScript sources ([hexUtils],
    [chunkManagement.ts], [chunkGenerationQueue.ts], [player] and the
    constraint parser of the route module) together with the properties
    established about them.

    Conventions of the embedding.
    - A JavaScript [number] that holds a hex coordinate, a ring count, a
      priority or a tile number is an unbounded integer ([Z]); array
      positions and batch indices are [nat].
    - In the chunk and floating-origin model, world positions and the hex
      size are exact real numbers ([R]).  The conversions between hexes and
      world positions are also given as JavaScript evaluates them, on
      binary64 numbers ([Binary64]); the round trip between the two is
      stated on those.  The number the constraint parser returns is [NaN]
      or an exact rational.
    - The map keys [`${q},${r}`] and the set keys [`${q},${r},${s}`] are
      injective renderings of integer tuples; the tuples themselves are
      used as keys.
    - Chunk objects are shared by reference between the world map, the
      generation queue and the renderer; they live in an object store
      addressed by [ChunkRef].
    - The layout generator ([get_tile_at]) and [JSON.parse] are external to
      the sources; they are parameters of the definitions that call them. *)

From Stdlib Require Import ZArith List Lia Bool Reals Lra.
From Stdlib Require QArith String Ascii Floats.
From stdpp Require Import gmap list.
Import ListNotations.

Local Open Scope Z_scope.

(* ===================================================================== *)
(** * Hex coordinate utilities ([HEX_UTILS]) *)
(* ===================================================================== *)

Module HexUtils.

Record HexCoord : Type := mkHex { hex_q : Z; hex_r : Z }.

Record CubeCoord : Type := mkCube { cube_q : Z; cube_r : Z; cube_s : Z }.

Definition CUBE_DIRECTIONS : list CubeCoord :=
  [ mkCube 1 0 (-1);
    mkCube 1 (-1) 0;
    mkCube 0 (-1) 1;
    mkCube (-1) 0 1;
    mkCube (-1) 1 0;
    mkCube 0 1 (-1) ].

(** [CUBE_DIRECTIONS[i]]; an index outside the table is never used. *)
Definition direction_at (i : nat) : CubeCoord :=
  nth i CUBE_DIRECTIONS (mkCube 0 0 0).

(** [distance(q1, r1, q2, r2)]: the sum of the three absolute differences
    is even on integers, so the halving is exact (see [distance_double]). *)
Definition distance (q1 r1 q2 r2 : Z) : Z :=
  (Z.abs (q1 - q2) + Z.abs (q1 + r1 - q2 - r2) + Z.abs (r1 - r2)) / 2.

Definition validateCubeCoord (cube : CubeCoord) : bool :=
  cube_q cube + cube_r cube + cube_s cube =? 0.

Definition axialToCube (q r : Z) : CubeCoord := mkCube q r (- q - r).

Definition cubeToAxial (cube : CubeCoord) : HexCoord :=
  mkHex (cube_q cube) (cube_r cube).

Definition cubeDistance (a b : CubeCoord) : Z :=
  Z.max (Z.max (Z.abs (cube_q a - cube_q b)) (Z.abs (cube_r a - cube_r b)))
        (Z.abs (cube_s a - cube_s b)).

Definition cube_add (a b : CubeCoord) : CubeCoord :=
  mkCube (cube_q a + cube_q b) (cube_r a + cube_r b) (cube_s a + cube_s b).

Definition cube_scale (hex : CubeCoord) (factor : Z) : CubeCoord :=
  mkCube (cube_q hex * factor) (cube_r hex * factor) (cube_s hex * factor).

Definition cubeNeighbor (cube : CubeCoord) (direction : nat) : CubeCoord :=
  cube_add cube (direction_at (direction mod 6)%nat).

(** One side of a ring: the inner loop [for (j = 0; j < radius; j++)],
    threading the result array and the current hex. *)
Fixpoint ring_side (steps : nat) (i : nat)
    (st : list CubeCoord * CubeCoord) : list CubeCoord * CubeCoord :=
  match steps with
  | O => st
  | S steps' =>
      let '(results, currentHex) := st in
      ring_side steps' i (results ++ [currentHex], cubeNeighbor currentHex i)
  end.

Definition cubeRing (center : CubeCoord) (radius : Z) : list CubeCoord :=
  if radius =? 0 then [center]
  else
    let start := cube_add center (cube_scale (direction_at 4) radius) in
    fst (fold_left (fun st i => ring_side (Z.to_nat radius) i st)
                   (seq 0 6) ([], start)).

(** Keys of the deduplicating [Set<string>] of [generateHexGrid]. *)
Definition CubeKey : Type := (Z * Z * Z)%type.

Definition cube_key (cube : CubeCoord) : CubeKey :=
  (cube_q cube, cube_r cube, cube_s cube).

Definition key_eqb (a b : CubeKey) : bool :=
  let '(a1, a2, a3) := a in
  let '(b1, b2, b3) := b in
  (a1 =? b1) && (a2 =? b2) && (a3 =? b3).

(** [Set.prototype.add]: insertion order is kept, a present key is not
    added again. *)
Definition set_add (k : CubeKey) (s : list CubeKey) : list CubeKey :=
  if existsb (key_eqb k) s then s else s ++ [k].

(** The layers visited by [for (layer = 0; layer <= maxLayer; layer++)]. *)
Definition layers (maxLayer : Z) : list Z :=
  map Z.of_nat (seq 0 (Z.to_nat (maxLayer + 1))).

Definition grid_set (maxLayer : Z) (centerCube : CubeCoord) : list CubeKey :=
  fold_left
    (fun gridSet layer =>
       fold_left (fun gridSet cube => set_add (cube_key cube) gridSet)
                 (cubeRing centerCube layer) gridSet)
    (layers maxLayer) [].

Definition generateHexGrid (maxLayer centerQ centerR : Z) : list HexCoord :=
  let centerCube := axialToCube centerQ centerR in
  flat_map (fun key : CubeKey =>
              let '(q, r, s) := key in
              if q + r + s =? 0 then [mkHex q r] else [])
           (grid_set maxLayer centerCube).

(** The conversions between hexes and world positions in exact
    arithmetic, as the chunk and floating-origin model reads them; they
    are given on binary64 numbers, as the code computes them, in
    [Binary64] below. *)

(** [Math.round]: the nearest integer, halves rounded towards plus
    infinity, that is [floor (x + 1/2)]. *)
Definition Math_round (x : R) : Z := Int_part (x + / 2).

(** The comparison [a > b] on numbers. *)
Definition Rgtb (a b : R) : bool := if Rlt_dec b a then true else false.

(** [hexToWorld(q, r, hexSize)], returning [(x, z)]. *)
Definition hexToWorld (q r : Z) (hexSize : R) : R * R :=
  let x := (hexSize * (sqrt 3 * IZR q + sqrt 3 / 2 * IZR r))%R in
  let z := (hexSize * (3 / 2 * IZR r))%R in
  (x, z).

Definition worldToHex (x z hexSize : R) : HexCoord :=
  let fracQ := ((sqrt 3 / 3 * x - 1 / 3 * z) / hexSize)%R in
  let fracR := ((2 / 3 * z) / hexSize)%R in
  let fracS := (- fracQ - fracR)%R in
  let q := Math_round fracQ in
  let r := Math_round fracR in
  let s := Math_round fracS in
  let qDiff := Rabs (IZR q - fracQ) in
  let rDiff := Rabs (IZR r - fracR) in
  let sDiff := Rabs (IZR s - fracS) in
  if Rgtb qDiff rDiff && Rgtb qDiff sDiff then mkHex (- r - s) r
  else if Rgtb rDiff sDiff then mkHex q (- q - s)
  else mkHex q r.

End HexUtils.

Import HexUtils.

(* ===================================================================== *)
(** * The coordinate conversions on binary64 numbers *)
(* ===================================================================== *)

(** [HEX_UTILS.hexToWorld] and [HEX_UTILS.worldToHex] as JavaScript
    evaluates them: every [number] is an IEEE 754 binary64 value and every
    arithmetic operation rounds to nearest, ties to even.  The operators
    keep the grouping of the source expressions. *)
Module Binary64.

Import Stdlib.Floats.Floats.
Local Open Scope float_scope.

(** The [number] an integer literal denotes: the integer itself up to
    [2^53] in magnitude, the nearest binary64 number beyond. *)
Definition of_Z (z : Z) : float :=
  SF2Prim (binary_normalize prec emax z 0 false).

Definition two52 : float := 4503599627370496.

(** [Math.floor]: a number of magnitude [2^52] or more is integral;
    below, adding and subtracting [2^52] rounds to an integer, which is
    lowered by one when it lies above the argument. *)
Definition Math_floor (x : float) : float :=
  if PrimFloat.ltb (PrimFloat.abs x) two52 then
    let n := if PrimFloat.leb 0 x then (x + two52) - two52
             else (x - two52) + two52 in
    if PrimFloat.ltb x n then n - 1 else n
  else x.

(** [Math.round]: the nearest integral number, a half rounded towards plus
    infinity; a zero result has the sign of the argument.  The difference
    [x - Math_floor x] is computed without rounding error wherever it is
    compared with a half. *)
Definition Math_round (x : float) : float :=
  let f := Math_floor x in
  let n := if PrimFloat.leb 0.5 (x - f) then f + 1 else f in
  if PrimFloat.is_zero n then (if PrimFloat.get_sign x then - 0 else 0)
  else n.

(** [Math.sqrt(3)]. *)
Definition sqrt3 : float := PrimFloat.sqrt 3.

(** [hexToWorld(q, r, hexSize)], returning [(x, z)]. *)
Definition hexToWorld (q r hexSize : float) : float * float :=
  let x := hexSize * (sqrt3 * q + (sqrt3 / 2) * r) in
  let z := hexSize * ((3 / 2) * r) in
  (x, z).

(** [worldToHex(x, z, hexSize)], returning [(q, r)]. *)
Definition worldToHex (x z hexSize : float) : float * float :=
  let fracQ := (sqrt3 / 3 * x - (1 / 3) * z) / hexSize in
  let fracR := ((2 / 3) * z) / hexSize in
  let fracS := - fracQ - fracR in
  let q := Math_round fracQ in
  let r := Math_round fracR in
  let s := Math_round fracS in
  let qDiff := PrimFloat.abs (q - fracQ) in
  let rDiff := PrimFloat.abs (r - fracR) in
  let sDiff := PrimFloat.abs (s - fracS) in
  if PrimFloat.ltb rDiff qDiff && PrimFloat.ltb sDiff qDiff then (- r - s, r)
  else if PrimFloat.ltb sDiff rDiff then (q, - q - s)
  else (q, r).

(** [TILE_CONFIG.hexSize = modelDepth / 3.0] with [modelDepth = 20.0]. *)
Definition TILE_CONFIG_hexSize : float := 20 / 3.


(** [a.q === b.q && a.r === b.r]: equality of numbers, under which the
    two zeros are equal and [NaN] differs from every number. *)
Definition same_hex (a b : float * float) : bool :=
  PrimFloat.eqb (fst a) (fst b) && PrimFloat.eqb (snd a) (snd b).



End Binary64.

(* ===================================================================== *)
(** * Chunks ([Chunk]) *)
(* ===================================================================== *)

Inductive TileType : Type := grass | building | road | forest | water.

(** Handle of a renderer mesh instance; the core only stores it. *)
Definition MeshRef : Type := nat.

Record ChunkTile : Type := mkTile {
  tile_hex : HexCoord;
  tileType : option TileType;
  tile_enabled : bool;
  meshInstance : option MeshRef
}.

Record Chunk : Type := mkChunk {
  grid : list ChunkTile;
  positionHex : HexCoord;
  positionCartesian : R * R;
  enabled : bool;
  neighbors : list HexCoord;
  tilesGenerated : bool;
  initialized : bool
}.

(** [Chunk.calculateChunkNeighbors]: the rotation [(q, r) -> (q + r, -q)]
    applied four times to the base offset, then six more times while the
    neighbours are emitted. *)
Definition rotate_cw (v : Z * Z) : Z * Z := (fst v + snd v, - fst v).

Fixpoint emit_neighbors (n : nat) (center : HexCoord) (cur : Z * Z)
    (neighbors : list HexCoord) : list HexCoord :=
  match n with
  | O => neighbors
  | S n' =>
      emit_neighbors n' center (rotate_cw cur)
        (neighbors ++ [mkHex (hex_q center + fst cur) (hex_r center + snd cur)])
  end.

Definition calculateChunkNeighbors (center : HexCoord) (rings : Z)
    : list HexCoord :=
  let offset := if rings =? 0 then (1, 0) else (rings, rings + 1) in
  let current := Nat.iter 4 rotate_cw offset in
  emit_neighbors 6 center current [].

(** [new Chunk(positionHex, hexSize)]. *)
Definition new_Chunk (positionHex : HexCoord) (hexSize : R) : Chunk :=
  {| grid := [];
     positionHex := positionHex;
     positionCartesian := hexToWorld (hex_q positionHex) (hex_r positionHex) hexSize;
     enabled := true;
     neighbors := [];
     tilesGenerated := false;
     initialized := false |}.

Definition isInitialized (c : Chunk) : bool := initialized c.
Definition getGrid (c : Chunk) : list ChunkTile := grid c.
Definition getPositionHex (c : Chunk) : HexCoord := positionHex c.
Definition getEnabled (c : Chunk) : bool := enabled c.
Definition getTilesGenerated (c : Chunk) : bool := tilesGenerated c.

Definition setGrid (g : list ChunkTile) (c : Chunk) : Chunk :=
  {| grid := g; positionHex := positionHex c;
     positionCartesian := positionCartesian c; enabled := enabled c;
     neighbors := neighbors c; tilesGenerated := tilesGenerated c;
     initialized := initialized c |}.

Definition setNeighbors (ns : list HexCoord) (c : Chunk) : Chunk :=
  {| grid := grid c; positionHex := positionHex c;
     positionCartesian := positionCartesian c; enabled := enabled c;
     neighbors := ns; tilesGenerated := tilesGenerated c;
     initialized := initialized c |}.

Definition markInitialized (c : Chunk) : Chunk :=
  {| grid := grid c; positionHex := positionHex c;
     positionCartesian := positionCartesian c; enabled := enabled c;
     neighbors := neighbors c; tilesGenerated := tilesGenerated c;
     initialized := true |}.

Definition setTilesGenerated (generated : bool) (c : Chunk) : Chunk :=
  {| grid := grid c; positionHex := positionHex c;
     positionCartesian := positionCartesian c; enabled := enabled c;
     neighbors := neighbors c; tilesGenerated := generated;
     initialized := initialized c |}.

Definition calculateChunkNeighborsPublic (rings : Z) (c : Chunk)
    : list HexCoord :=
  calculateChunkNeighbors (positionHex c) rings.

Definition hex_eqb (a b : HexCoord) : bool :=
  (hex_q a =? hex_q b) && (hex_r a =? hex_r b).

Definition tile_with_type (ty : option TileType) (t : ChunkTile) : ChunkTile :=
  {| tile_hex := tile_hex t; tileType := ty;
     tile_enabled := tile_enabled t; meshInstance := meshInstance t |}.

(** [grid.find(t => t.hex.q === hex.q && t.hex.r === hex.r)] followed by
    the assignment to the tile found: the first matching tile is updated. *)
Fixpoint set_first_tile (hex : HexCoord) (ty : option TileType)
    (g : list ChunkTile) : list ChunkTile :=
  match g with
  | [] => []
  | t :: g' =>
      if hex_eqb (tile_hex t) hex then tile_with_type ty t :: g'
      else t :: set_first_tile hex ty g'
  end.

Definition setTileType (hex : HexCoord) (ty : option TileType) (c : Chunk)
    : Chunk :=
  setGrid (set_first_tile hex ty (grid c)) c.

Definition getTileType (hex : HexCoord) (c : Chunk) : option TileType :=
  match List.find (fun t => hex_eqb (tile_hex t) hex) (grid c) with
  | Some t => tileType t
  | None => None
  end.

Definition hasAllTilesGenerated (c : Chunk) : bool :=
  forallb (fun t => match tileType t with Some _ => true | None => false end)
          (grid c).

(* ===================================================================== *)
(** * The world map ([WorldMap]) *)
(* ===================================================================== *)

(** The key [`${q},${r}`] of a hex. *)
Definition Key : Type := (Z * Z)%type.

Definition getChunkKey (positionHex : HexCoord) : Key :=
  (hex_q positionHex, hex_r positionHex).

(** Chunk objects are shared by reference: the world map, the tasks of the
    queue and the renderer all hold the same object. *)
Definition ChunkRef : Type := nat.

(** The world map together with the store of the chunk objects. *)
Record World : Type := mkWorld {
  objects : gmap ChunkRef Chunk;
  chunks : gmap Key ChunkRef;
  spatialIndex : gmap Key HexCoord
}.

Definition empty_World : World :=
  {| objects := ∅; chunks := ∅; spatialIndex := ∅ |}.

Definition with_objects (o : gmap ChunkRef Chunk) (w : World) : World :=
  {| objects := o; chunks := chunks w; spatialIndex := spatialIndex w |}.

Definition with_chunks (c : gmap Key ChunkRef) (w : World) : World :=
  {| objects := objects w; chunks := c; spatialIndex := spatialIndex w |}.

Definition with_spatialIndex (i : gmap Key HexCoord) (w : World) : World :=
  {| objects := objects w; chunks := chunks w; spatialIndex := i |}.

(** A method call on the chunk object behind a reference. *)
Definition update_chunk (ref : ChunkRef) (f : Chunk -> Chunk) (w : World)
    : World :=
  with_objects (alter f ref (objects w)) w.

(** Allocation of a chunk object. *)
Definition alloc_chunk (c : Chunk) (w : World) : ChunkRef * World :=
  let ref := fresh (dom (objects w)) in
  (ref, with_objects (<[ref := c]> (objects w)) w).

Definition getChunk (positionHex : HexCoord) (w : World) : option ChunkRef :=
  chunks w !! getChunkKey positionHex.

Definition hasChunk (positionHex : HexCoord) (w : World) : bool :=
  match getChunk positionHex w with Some _ => true | None => false end.

Definition addChunkPlaceholder (positionHex : HexCoord) (chunk : ChunkRef)
    (w : World) : World :=
  let key := getChunkKey positionHex in
  match chunks w !! key with
  | None => with_chunks (<[key := chunk]> (chunks w)) w
  | Some _ => w
  end.

Definition addSpatialIndexEntry (tileKey : Key) (chunkHex : HexCoord)
    (w : World) : World :=
  with_spatialIndex (<[tileKey := chunkHex]> (spatialIndex w)) w.

Definition getChunkForTileFast (tileHex : HexCoord) (rings : Z) (w : World)
    : World * option HexCoord :=
  let tileKey := getChunkKey tileHex in
  match spatialIndex w !! tileKey with
  | None => (w, None)
  | Some chunkPos =>
      match getChunk chunkPos w with
      | None => (with_spatialIndex (delete tileKey (spatialIndex w)) w, None)
      | Some _ =>
          let d := distance (hex_q tileHex) (hex_r tileHex)
                            (hex_q chunkPos) (hex_r chunkPos) in
          if d <=? rings then (w, Some chunkPos) else (w, None)
      end
  end.

(* --------------------------------------------------------------------- *)
(** ** Closed forms of the ring walk (used by the proofs) *)
(* --------------------------------------------------------------------- *)

(** The hexes pushed while walking one side: [start + j * d] for [j < n]. *)
Definition side_points (start d : CubeCoord) (n : nat) : list CubeCoord :=
  map (fun j => cube_add start (cube_scale d (Z.of_nat j))) (seq 0 n).

(** A ring of positive radius is the concatenation of its six sides, each
    starting at a corner of the ring. *)
Definition ring_sides (c : CubeCoord) (R : Z) : list CubeCoord :=
  let n := Z.to_nat R in
  let corner (a b s : Z) :=
      mkCube (cube_q c + a) (cube_r c + b) (cube_s c + s) in
  side_points (corner (- R) R 0) (mkCube 1 0 (-1)) n ++
  side_points (corner 0 R (- R)) (mkCube 1 (-1) 0) n ++
  side_points (corner R 0 (- R)) (mkCube 0 (-1) 1) n ++
  side_points (corner R (- R) 0) (mkCube (-1) 0 1) n ++
  side_points (corner 0 (- R) R) (mkCube (-1) 1 0) n ++
  side_points (corner (- R) 0 R) (mkCube 0 1 (-1)) n.


(** All cubes enumerated by the layers [0 .. m-1], in enumeration order. *)
Definition rings_upto (c : CubeCoord) (m : nat) : list CubeCoord :=
  flat_map (cubeRing c) (map Z.of_nat (seq 0 m)).

(* ===================================================================== *)
(** * The chunk generation queue ([ChunkGenerationQueue]) *)
(* ===================================================================== *)

Inductive ChunkGenerationStatus : Type :=
  pending | generating | completed | failed.

(** The three step functions a continuation can denote. *)
Inductive ProcessingStep : Type :=
  StepGenerateGrid | StepComputeNeighbors | StepUpdateSpatialIndex.

Inductive StepLabel : Type :=
  LabelGrid | LabelNeighbors | LabelSpatialIndex | LabelComplete.

(** [ChunkGenerationState]; its [worldMap] field is the world threaded
    through the step functions. *)
Record ChunkGenerationState : Type := mkGenState {
  st_chunk : ChunkRef;
  st_rings : Z;
  st_hexSize : R;
  st_chunkHex : HexCoord;
  hexGrid : option (list HexCoord);
  validatedGrid : list ChunkTile;
  gridBatchIndex : nat;
  spatialIndexBatchIndex : nat;
  currentStep : StepLabel
}.

Definition GRID_BATCH_SIZE : nat := 150.
Definition SPATIAL_INDEX_BATCH_SIZE : nat := 200.

Definition createProcessingState (chunk : ChunkRef) (rings : Z) (hexSize : R)
    (chunkHex : HexCoord) : ChunkGenerationState :=
  {| st_chunk := chunk; st_rings := rings; st_hexSize := hexSize;
     st_chunkHex := chunkHex; hexGrid := None; validatedGrid := [];
     gridBatchIndex := 0; spatialIndexBatchIndex := 0;
     currentStep := LabelGrid |}.

(** [array.slice(from, to)] for [from <= to]. *)
Definition slice {A : Type} (l : list A) (from to : nat) : list A :=
  firstn (to - from) (skipn from l).

(** The body of the loop over one grid batch: a hex within [rings] of the
    chunk center is pushed as a fresh tile, any other hex is skipped. *)
Definition validate_hex (chunkHex : HexCoord) (rings : Z)
    (validated : list ChunkTile) (hex : HexCoord) : list ChunkTile :=
  if distance (hex_q chunkHex) (hex_r chunkHex) (hex_q hex) (hex_r hex)
     <=? rings
  then validated ++ [mkTile hex None true None]
  else validated.

Definition stepGenerateGrid (ws : World * ChunkGenerationState)
    : World * ChunkGenerationState * option ProcessingStep :=
  let '(w, state) := ws in
  let theGrid :=
      match hexGrid state with
      | Some g => g
      | None => generateHexGrid (st_rings state)
                  (hex_q (st_chunkHex state)) (hex_r (st_chunkHex state))
      end in
  let totalTiles := length theGrid in
  let batchEnd := Nat.min (gridBatchIndex state + GRID_BATCH_SIZE) totalTiles in
  let batch := slice theGrid (gridBatchIndex state) batchEnd in
  let validated :=
      fold_left (validate_hex (st_chunkHex state) (st_rings state))
                batch (validatedGrid state) in
  let state1 (label : StepLabel) :=
      {| st_chunk := st_chunk state; st_rings := st_rings state;
         st_hexSize := st_hexSize state; st_chunkHex := st_chunkHex state;
         hexGrid := Some theGrid; validatedGrid := validated;
         gridBatchIndex := batchEnd;
         spatialIndexBatchIndex := spatialIndexBatchIndex state;
         currentStep := label |} in
  if (batchEnd <? totalTiles)%nat
  then (w, state1 (currentStep state), Some StepGenerateGrid)
  else (update_chunk (st_chunk state) (setGrid validated) w,
        state1 LabelNeighbors, Some StepComputeNeighbors).

Definition with_currentStep (label : StepLabel) (state : ChunkGenerationState)
    : ChunkGenerationState :=
  {| st_chunk := st_chunk state; st_rings := st_rings state;
     st_hexSize := st_hexSize state; st_chunkHex := st_chunkHex state;
     hexGrid := hexGrid state; validatedGrid := validatedGrid state;
     gridBatchIndex := gridBatchIndex state;
     spatialIndexBatchIndex := spatialIndexBatchIndex state;
     currentStep := label |}.

Definition stepComputeNeighbors (ws : World * ChunkGenerationState)
    : World * ChunkGenerationState * option ProcessingStep :=
  let '(w, state) := ws in
  let finalize (c : Chunk) :=
      markInitialized
        (setNeighbors (calculateChunkNeighborsPublic (st_rings state) c) c) in
  (update_chunk (st_chunk state) finalize w,
   with_currentStep LabelSpatialIndex state,
   Some StepUpdateSpatialIndex).

(** [state.chunk.getGrid()]. *)
Definition grid_of (ref : ChunkRef) (w : World) : list ChunkTile :=
  match objects w !! ref with
  | Some c => getGrid c
  | None => []
  end.

Definition stepUpdateSpatialIndex (ws : World * ChunkGenerationState)
    : World * ChunkGenerationState * option ProcessingStep :=
  let '(w, state) := ws in
  let chunkGrid := grid_of (st_chunk state) w in
  let totalTiles := length chunkGrid in
  let batchEnd :=
      Nat.min (spatialIndexBatchIndex state + SPATIAL_INDEX_BATCH_SIZE)
              totalTiles in
  let batch := slice chunkGrid (spatialIndexBatchIndex state) batchEnd in
  let w' :=
      fold_left
        (fun w tile =>
           addSpatialIndexEntry (getChunkKey (tile_hex tile))
                                (st_chunkHex state) w)
        batch w in
  let state1 (label : StepLabel) :=
      {| st_chunk := st_chunk state; st_rings := st_rings state;
         st_hexSize := st_hexSize state; st_chunkHex := st_chunkHex state;
         hexGrid := hexGrid state; validatedGrid := validatedGrid state;
         gridBatchIndex := gridBatchIndex state;
         spatialIndexBatchIndex := batchEnd;
         currentStep := label |} in
  if (batchEnd <? totalTiles)%nat
  then (w', state1 (currentStep state), Some StepUpdateSpatialIndex)
  else (w', state1 LabelComplete, None).

Definition run_step (step : ProcessingStep)
    : World * ChunkGenerationState ->
      World * ChunkGenerationState * option ProcessingStep :=
  match step with
  | StepGenerateGrid => stepGenerateGrid
  | StepComputeNeighbors => stepComputeNeighbors
  | StepUpdateSpatialIndex => stepUpdateSpatialIndex
  end.

(** The loop [while (currentStep !== null)] of [processNext], cut after
    [calls] step calls.  The frame budget decides only in which frame a
    call happens; the sequence of calls on a task is the same. *)
Fixpoint drive (calls : nat) (step : option ProcessingStep)
    (ws : World * ChunkGenerationState)
    : World * ChunkGenerationState * option ProcessingStep :=
  match calls, step with
  | S calls', Some s =>
      let '(ws', next) := run_step s ws in drive calls' next ws'
  | _, _ => (ws, step)
  end.

(** Number of calls of a batched step over [total] items: one call even
    for an empty array. *)
Definition batches (size total : nat) : nat :=
  Nat.max 1 ((total + size - 1) / size).

(** The tile pushed for a validated hex. *)
Definition fresh_tile (hex : HexCoord) : ChunkTile := mkTile hex None true None.

(** The state in which the grid step hands over to the neighbours step. *)
Definition grid_done_state (state : ChunkGenerationState)
    (g : list HexCoord) (validated : list ChunkTile) : ChunkGenerationState :=
  {| st_chunk := st_chunk state; st_rings := st_rings state;
     st_hexSize := st_hexSize state; st_chunkHex := st_chunkHex state;
     hexGrid := Some g; validatedGrid := validated;
     gridBatchIndex := length g;
     spatialIndexBatchIndex := spatialIndexBatchIndex state;
     currentStep := LabelNeighbors |}.

(** The grid the grid step works on: generated at the first call. *)
Definition grid_in_use (state : ChunkGenerationState) : list HexCoord :=
  match hexGrid state with
  | Some g => g
  | None => generateHexGrid (st_rings state)
              (hex_q (st_chunkHex state)) (hex_r (st_chunkHex state))
  end.

(** The state in which the index step returns [null]. *)
Definition index_done_state (state : ChunkGenerationState) (total : nat)
    : ChunkGenerationState :=
  {| st_chunk := st_chunk state; st_rings := st_rings state;
     st_hexSize := st_hexSize state; st_chunkHex := st_chunkHex state;
     hexGrid := hexGrid state; validatedGrid := validatedGrid state;
     gridBatchIndex := gridBatchIndex state;
     spatialIndexBatchIndex := total;
     currentStep := LabelComplete |}.

(** Publishing a list of tiles for a chunk center, as the index step does
    batch after batch. *)
Definition publish_tiles (chunkHex : HexCoord) (tiles : list ChunkTile)
    (w : World) : World :=
  fold_left
    (fun w tile => addSpatialIndexEntry (getChunkKey (tile_hex tile)) chunkHex w)
    tiles w.

(** A chunk generated from scratch the way the queue does it: the
    placeholder is created and added to the map, then the step functions
    are called, at most [calls] times, until the continuation is [null]. *)
Definition generate_chunk (calls : nat) (chunkHex : HexCoord) (rings : Z)
    (hexSize : R) (w : World) : World :=
  let '(ref, w1) := alloc_chunk (new_Chunk chunkHex hexSize) w in
  let w2 := addChunkPlaceholder chunkHex ref w1 in
  let state := createProcessingState ref rings hexSize chunkHex in
  fst (fst (drive calls (Some StepGenerateGrid) (w2, state))).

(* --------------------------------------------------------------------- *)
(** ** Tasks and [enqueue] *)
(* --------------------------------------------------------------------- *)

(** A promise of a chunk: one created by [new Promise], identified by its
    creation number and settled later through the task's [resolve] and
    [reject], or one made by [Promise.resolve(chunk)]. *)
Inductive Promise : Type :=
  | task_promise (id : nat)
  | resolved_promise (chunk : ChunkRef).

Record ChunkGenerationTask : Type := mkTask {
  task_chunkHex : HexCoord;
  task_rings : Z;
  task_hexSize : R;
  priority : Z;
  status : ChunkGenerationStatus;
  promise : Promise;
  processingState : option ChunkGenerationState;
  task_currentStep : option ProcessingStep
}.

Definition with_priority (p : Z) (t : ChunkGenerationTask)
    : ChunkGenerationTask :=
  {| task_chunkHex := task_chunkHex t; task_rings := task_rings t;
     task_hexSize := task_hexSize t; priority := p; status := status t;
     promise := promise t; processingState := processingState t;
     task_currentStep := task_currentStep t |}.

Record ChunkGenerationQueue : Type := mkQueue {
  tasks : gmap Key ChunkGenerationTask;
  frameBudget : R;
  promises_created : nat
}.

Definition new_ChunkGenerationQueue (frameBudget : R) : ChunkGenerationQueue :=
  {| tasks := ∅; frameBudget := frameBudget; promises_created := 0 |}.

Definition getTaskKey (chunkHex : HexCoord) : Key :=
  (hex_q chunkHex, hex_r chunkHex).

(** The mutating calls [enqueue] makes, in the order it makes them. *)
Inductive Call : Type :=
  | CallSetPriority (key : Key) (p : Z)
  | CallAddChunkPlaceholder (key : Key) (chunk : ChunkRef)
  | CallTasksSet (key : Key).

(** The queue, the world map it is handed and the calls made so far. *)
Record Sys : Type := mkSys {
  world : World;
  queue : ChunkGenerationQueue;
  calls : list Call
}.

(** State-passing computations over [Sys]. *)
Definition M (A : Type) : Type := Sys -> A * Sys.

#[global] Instance M_ret : MRet M := fun A (a : A) s => (a, s).

#[global] Instance M_bind : MBind M :=
  fun A B (k : A -> M B) (c : M A) s => let '(a, s') := c s in k a s'.

Definition tasks_get (key : Key) : M (option ChunkGenerationTask) :=
  fun s => (tasks (queue s) !! key, s).

Definition with_tasks (t : gmap Key ChunkGenerationTask)
    (q : ChunkGenerationQueue) : ChunkGenerationQueue :=
  {| tasks := t; frameBudget := frameBudget q;
     promises_created := promises_created q |}.

Definition tasks_set (key : Key) (task : ChunkGenerationTask) : M unit :=
  fun s =>
    (tt, {| world := world s;
            queue := with_tasks (<[key := task]> (tasks (queue s))) (queue s);
            calls := calls s ++ [CallTasksSet key] |}).

(** [existing.priority = priority] on the task object held by the map. *)
Definition task_set_priority (key : Key) (p : Z) : M unit :=
  fun s =>
    (tt, {| world := world s;
            queue := with_tasks (alter (with_priority p) key (tasks (queue s)))
                                (queue s);
            calls := calls s ++ [CallSetPriority key p] |}).

Definition worldMap_getChunk (chunkHex : HexCoord) : M (option ChunkRef) :=
  fun s => (getChunk chunkHex (world s), s).

Definition chunk_isInitialized (ref : ChunkRef) : M bool :=
  fun s =>
    (match objects (world s) !! ref with
     | Some c => isInitialized c
     | None => false
     end, s).

Definition construct_Chunk (chunkHex : HexCoord) (hexSize : R) : M ChunkRef :=
  fun s =>
    let '(ref, w) := alloc_chunk (new_Chunk chunkHex hexSize) (world s) in
    (ref, {| world := w; queue := queue s; calls := calls s |}).

Definition worldMap_addChunkPlaceholder (chunkHex : HexCoord)
    (chunk : ChunkRef) : M unit :=
  fun s =>
    (tt, {| world := addChunkPlaceholder chunkHex chunk (world s);
            queue := queue s;
            calls := calls s
                     ++ [CallAddChunkPlaceholder (getChunkKey chunkHex) chunk] |}).

Definition construct_Promise : M Promise :=
  fun s =>
    let q := queue s in
    (task_promise (promises_created q),
     {| world := world s;
        queue := {| tasks := tasks q; frameBudget := frameBudget q;
                    promises_created := S (promises_created q) |};
        calls := calls s |}).

(** The tail of [enqueue]: the placeholder when no chunk exists, then the
    new task. *)
Definition enqueue_create (chunkHex : HexCoord) (rings : Z) (hexSize : R)
    (priority : Z) (existingChunk : option ChunkRef) : M Promise :=
  let key := getTaskKey chunkHex in
  match existingChunk with
  | None =>
      placeholderChunk ← construct_Chunk chunkHex hexSize;
      worldMap_addChunkPlaceholder chunkHex placeholderChunk
  | Some _ => mret tt
  end;;
  taskPromise ← construct_Promise;
  tasks_set key
    {| task_chunkHex := chunkHex; task_rings := rings;
       task_hexSize := hexSize; priority := priority; status := pending;
       promise := taskPromise; processingState := None;
       task_currentStep := None |};;
  mret taskPromise.

Definition enqueue (chunkHex : HexCoord) (rings : Z) (hexSize : R)
    (new_priority : Z) : M Promise :=
  let key := getTaskKey chunkHex in
  existing ← tasks_get key;
  match existing with
  | Some existing =>
      (if new_priority >? priority existing
       then task_set_priority key new_priority
       else mret tt);;
      mret (promise existing)
  | None =>
      existingChunk ← worldMap_getChunk chunkHex;
      match existingChunk with
      | Some chunk =>
          init ← chunk_isInitialized chunk;
          if negb init then
            existingTask ← tasks_get key;
            match existingTask with
            | Some existingTask => mret (promise existingTask)
            | None =>
                enqueue_create chunkHex rings hexSize new_priority existingChunk
            end
          else mret (resolved_promise chunk)
      | None =>
          enqueue_create chunkHex rings hexSize new_priority existingChunk
      end
  end.

(* ===================================================================== *)
(** * Floating origin ([CanvasManager.updateFloatingOrigin]) and the
      player's current tile ([Player.getCurrentTileHex]) *)
(* ===================================================================== *)

Record Vector3 : Type := mkVector3 { vx : R; vy : R; vz : R }.

Definition Vector3_Zero : Vector3 := mkVector3 0 0 0.

Definition Vector3_subtract (a b : Vector3) : Vector3 :=
  mkVector3 (vx a - vx b) (vy a - vy b) (vz a - vz b).

Definition Vector3_Distance (a b : Vector3) : R :=
  sqrt ((vx a - vx b) * (vx a - vx b) + (vy a - vy b) * (vy a - vy b)
        + (vz a - vz b) * (vz a - vz b)).

(** [TILE_CONFIG.hexSize = modelDepth / 3.0] with [modelDepth = 20.0]. *)
Definition TILE_CONFIG_hexSize : R := 20 / 3.

(** The avatar's root mesh, one of the scene's meshes.  [position] is
    [mesh.position], the vector [updateFloatingOrigin] writes and
    [Player.getCurrentTileHex] reads.  [absolutePosition] is what
    [mesh.getAbsolutePosition()] returns: the translation of the mesh's
    world matrix as the engine computed it for the current frame.  A write
    to [position] does not change it; the engine recomputes the matrix,
    for a root mesh from [position], when the next frame is rendered. *)
Record Mesh : Type := mkMesh {
  position : Vector3;
  absolutePosition : Vector3
}.

(** The positions the floating origin reads and shifts.  [avatarMesh] is
    [None] while the model is not loaded; the other meshes are given by
    their [position]; a light without a position is [None]. *)
Record Scene : Type := mkScene {
  avatarMesh : option Mesh;
  otherMeshes : list Vector3;
  lights : list (option Vector3)
}.

Record CanvasManager : Type := mkCanvasManager {
  scene : option Scene;
  player : bool;
  floatingOriginThreshold : R;
  currentFloatingOrigin : Vector3;
  worldHexOffset : HexCoord
}.

Definition updateFloatingOrigin (cm : CanvasManager) : CanvasManager :=
  match scene cm, player cm with
  | Some sc, true =>
      match avatarMesh sc with
      | None => cm
      | Some mesh =>
          let avatarPosition := absolutePosition mesh in
          let distanceFromOrigin :=
              Vector3_Distance avatarPosition (currentFloatingOrigin cm) in
          if Rgtb distanceFromOrigin (floatingOriginThreshold cm) then
            let offset :=
                Vector3_subtract avatarPosition (currentFloatingOrigin cm) in
            let hexOffset :=
                worldToHex (vx offset) (vz offset) TILE_CONFIG_hexSize in
            let shift (p : Vector3) := Vector3_subtract p offset in
            {| scene :=
                 Some {| avatarMesh :=
                           Some {| position := shift (position mesh);
                                   absolutePosition := absolutePosition mesh |};
                         otherMeshes := map shift (otherMeshes sc);
                         lights := map (option_map shift) (lights sc) |};
               player := true;
               floatingOriginThreshold := floatingOriginThreshold cm;
               currentFloatingOrigin := avatarPosition;
               worldHexOffset :=
                 mkHex (hex_q (worldHexOffset cm) + hex_q hexOffset)
                       (hex_r (worldHexOffset cm) + hex_r hexOffset) |}
          else cm
      end
  | _, _ => cm
  end.

Definition getWorldHexOffset (cm : CanvasManager) : HexCoord :=
  mkHex (hex_q (worldHexOffset cm)) (hex_r (worldHexOffset cm)).

(** [Player.getCurrentTileHex(hexSize, worldHexOffset)], which reads
    [avatarMesh.position]. *)
Definition getCurrentTileHex (avatar : option Mesh) (hexSize : R)
    (worldHexOffset : option HexCoord) : HexCoord :=
  match avatar with
  | None => mkHex 0 0
  | Some mesh =>
      let localPos := position mesh in
      let localHex := worldToHex (- vx localPos) (vz localPos) hexSize in
      match worldHexOffset with
      | Some off => mkHex (hex_q localHex + hex_q off) (hex_r localHex + hex_r off)
      | None => localHex
      end
  end.

(** The avatar's true world hex as the frame loop computes it. *)
Definition current_true_hex (cm : CanvasManager) : HexCoord :=
  getCurrentTileHex (match scene cm with Some sc => avatarMesh sc | None => None end)
                    TILE_CONFIG_hexSize (Some (getWorldHexOffset cm)).

(** The avatar 1500 units along x from the initial origin, its world
    matrix computed for the frame, nothing rebased yet (threshold 1000). *)
Definition avatar_at_1500 : CanvasManager :=
  {| scene := Some {| avatarMesh :=
                        Some {| position := mkVector3 1500 0 0;
                                absolutePosition := mkVector3 1500 0 0 |};
                      otherMeshes := [];
                      lights := [] |};
     player := true;
     floatingOriginThreshold := 1000;
     currentFloatingOrigin := Vector3_Zero;
     worldHexOffset := mkHex 0 0 |}.

(* ===================================================================== *)
(** * Caching the generated layout in the chunks
      ([CanvasManager.renderGridAsync], chunk-based branch) *)
(* ===================================================================== *)

(** [tileTypeFromNumber], as the route module defines it. *)
Definition tileTypeFromNumber (tileNum : Z) : option TileType :=
  match tileNum with
  | 0 => Some grass
  | 1 => Some building
  | 2 => Some road
  | 3 => Some forest
  | 4 => Some water
  | _ => None
  end.

Definition getAllChunks (w : World) : list ChunkRef :=
  map snd (map_to_list (chunks w)).

Definition chunk_test (f : Chunk -> bool) (w : World) (ref : ChunkRef) : bool :=
  match objects w !! ref with
  | Some c => f c
  | None => false
  end.

Definition getEnabledChunks (w : World) : list ChunkRef :=
  List.filter (chunk_test getEnabled w) (getAllChunks w).

Section LayoutCache.

(** [wasmModule.get_tile_at] once [generate_layout()] has run: the layout
    generator is an external module, any answer is possible. *)
Variable get_tile_at : Z -> Z -> Z.

(** The body of the loop over the tiles of a chunk: the tile type is
    cached only when the reported number denotes one. *)
Definition cache_tile (chunk : Chunk) (hex : HexCoord) : Chunk :=
  match tileTypeFromNumber (get_tile_at (hex_q hex) (hex_r hex)) with
  | Some ty => setTileType hex (Some ty) chunk
  | None => chunk
  end.

(** The body of the loop over [chunksToUpdate]. *)
Definition cache_chunk (chunk : Chunk) : Chunk :=
  setTilesGenerated true
    (fold_left cache_tile (map tile_hex (getGrid chunk)) chunk).

(** The world once the generated flags are cleared by a forced recompute. *)
Definition mark_for_regeneration (forceRecompute : bool) (w : World) : World :=
  if forceRecompute
  then fold_left (fun w ref => update_chunk ref (setTilesGenerated false) w)
                 (getEnabledChunks w) w
  else w.

Definition already_generated (c : Chunk) : bool :=
  getTilesGenerated c && hasAllTilesGenerated c.

Definition chunksNeedingGeneration (enabledChunks : list ChunkRef) (w : World)
    : list ChunkRef :=
  List.filter (fun ref => negb (chunk_test already_generated w ref))
              enabledChunks.

(** The chunks whose tiles are cached by the pass; none when no enabled
    chunk needs generation. *)
Definition chunksToUpdate (forceRecompute : bool) (w : World) : list ChunkRef :=
  let enabledChunks := getEnabledChunks w in
  let w1 := mark_for_regeneration forceRecompute w in
  match chunksNeedingGeneration enabledChunks w1 with
  | [] => []
  | need => if forceRecompute then enabledChunks else need
  end.

(** The pass over the chunks of the world map, with the layout module
    loaded: regeneration marks, the split into generated chunks and chunks
    needing generation, then, with the layout generated, the caching of the
    tile types. *)
Definition cache_layout (forceRecompute : bool) (w : World) : World :=
  let w1 := mark_for_regeneration forceRecompute w in
  fold_left (fun w ref => update_chunk ref cache_chunk w)
            (chunksToUpdate forceRecompute w) w1.

(** The tile types a chunk holds after [cache_chunk], tile by tile. *)
Definition cached_type (t : ChunkTile) : option TileType :=
  match tileTypeFromNumber
          (get_tile_at (hex_q (tile_hex t)) (hex_r (tile_hex t))) with
  | Some ty => Some ty
  | None => tileType t
  end.

Definition cache_result (chunk : Chunk) : Chunk :=
  setTilesGenerated true
    (setGrid (map (fun t => tile_with_type (cached_type t) t) (grid chunk))
             chunk).

End LayoutCache.

(* ===================================================================== *)
(** * Layout constraints from text ([parseLayoutConstraints]) *)
(* ===================================================================== *)

Module ConstraintParser.

Import Stdlib.Strings.String Stdlib.Strings.Ascii Stdlib.QArith.QArith.
Local Open Scope string_scope.

Inductive BuildingDensity : Type :=
  density_sparse | density_medium | density_dense.

Inductive Clustering : Type := clustered | distributed | random.

Inductive BuildingSizeHint : Type := size_small | size_medium | size_large.

(** A JavaScript number that is either [NaN] or an exact rational. *)
Inductive Num : Type :=
  | num_NaN
  | num (x : Q).

Record LayoutConstraints : Type := mkConstraints {
  buildingDensity : BuildingDensity;
  clustering : Clustering;
  grassRatio : Num;
  buildingSizeHint : BuildingSizeHint
}.

Definition getDefaultConstraints : LayoutConstraints :=
  {| buildingDensity := density_medium; clustering := random;
     grassRatio := num (3 # 10); buildingSizeHint := size_medium |}.

(** ** Characters: strings are sequences of code units below 256 *)

Definition code (c : ascii) : nat := nat_of_ascii c.

Definition is_digit (c : ascii) : bool :=
  ((48 <=? code c) && (code c <=? 57))%nat.

(** The class [\s] on code units below 256. *)
Definition is_space (c : ascii) : bool :=
  let n := code c in
  ((9 <=? n) && (n <=? 13) || (n =? 32) || (n =? 160))%nat.

(** The separator class: the double quote, white space and the colon. *)
Definition is_separator (c : ascii) : bool :=
  ((code c =? 34) || is_space c || (code c =? 58))%nat.

(** The class [[\d.]]. *)
Definition is_digit_or_dot (c : ascii) : bool :=
  (is_digit c || (code c =? 46))%nat.

(** Canonical form of a code unit under the flag [i]. *)
Definition fold_case (c : ascii) : ascii :=
  let n := code c in
  if ((97 <=? n) && (n <=? 122))%nat then ascii_of_nat (n - 32) else c.

Definition eqb_ci (a b : ascii) : bool :=
  Ascii.eqb (fold_case a) (fold_case b).

(** ** The regular expressions of the parser *)

(** The longest prefix of code units in a class, and the rest. *)
Fixpoint span (f : ascii -> bool) (s : string) : string * string :=
  match s with
  | EmptyString => (EmptyString, EmptyString)
  | String c s' =>
      if f c then let '(a, b) := span f s' in (String c a, b)
      else (EmptyString, s)
  end.

(** A literal matched at the start of [s] without regard to case: the
    text matched and the rest. *)
Fixpoint literal_ci (lit s : string) : option (string * string) :=
  match lit, s with
  | EmptyString, _ => Some (EmptyString, s)
  | String a lit', String b s' =>
      if eqb_ci a b then
        match literal_ci lit' s' with
        | Some (m, rest) => Some (String b m, rest)
        | None => None
        end
      else None
  | String _ _, EmptyString => None
  end.

(** An alternation of literals at the start of [s]: the text matched by
    the first alternative that matches. *)
Fixpoint alternatives_ci (alts : list string) (s : string) : option string :=
  match alts with
  | [] => None
  | alt :: alts' =>
      match literal_ci alt s with
      | Some (m, _) => Some m
      | None => alternatives_ci alts' s
      end
  end.

(** A greedy class repetition [[...]+] at the start of [s], at least one
    code unit. *)
Definition class_plus (f : ascii -> bool) (s : string)
    : option (string * string) :=
  match span f s with
  | (EmptyString, _) => None
  | (m, rest) => Some (m, rest)
  end.

(** A field name, one or more separators and a group at the start of [s]:
    the text of the group.  The
    separators and the first code unit of every group are in disjoint
    classes, so the separator run is the longest one. *)
Definition field_at (name : string) (group : string -> option string)
    (s : string) : option string :=
  match literal_ci name s with
  | None => None
  | Some (_, rest) =>
      match class_plus is_separator rest with
      | None => None
      | Some (_, rest') => group rest'
      end
  end.

(** [String.prototype.match] for a pattern without the flag [g]: the
    leftmost position at which the pattern matches. *)
Fixpoint search (pattern : string -> option string) (s : string)
    : option string :=
  match pattern s with
  | Some m => Some m
  | None =>
      match s with
      | EmptyString => None
      | String _ s' => search pattern s'
      end
  end.

Definition densityMatch (output : string) : option string :=
  search (field_at "buildingDensity"
            (alternatives_ci ["sparse"; "medium"; "dense"])) output.

Definition clusteringMatch (output : string) : option string :=
  search (field_at "clustering"
            (alternatives_ci ["clustered"; "distributed"; "random"])) output.

Definition grassRatioMatch (output : string) : option string :=
  search (field_at "grassRatio"
            (fun s => option_map fst (class_plus is_digit_or_dot s))) output.

Definition sizeMatch (output : string) : option string :=
  search (field_at "buildingSizeHint"
            (alternatives_ci ["small"; "medium"; "large"])) output.

(** The text from the first opening brace to the last closing brace
    ([/\{[\s\S]*\}/]). *)
Fixpoint through_last_close (s : string) : option string :=
  match s with
  | EmptyString => None
  | String c s' =>
      match through_last_close s' with
      | Some m => Some (String c m)
      | None => if (code c =? 125)%nat then Some (String c EmptyString) else None
      end
  end.

Fixpoint jsonMatch (output : string) : option string :=
  match output with
  | EmptyString => None
  | String c s' =>
      if (code c =? 123)%nat then
        option_map (String c) (through_last_close s')
      else jsonMatch s'
  end.

(** ** Numbers *)

Fixpoint digits_value (acc : Z) (s : string) : Z :=
  match s with
  | EmptyString => acc
  | String c s' => digits_value (10 * acc + Z.of_nat (code c - 48)) s'
  end.

(** [parseFloat] on a text of digits and dots: the longest prefix that is
    a decimal literal, [NaN] when there is none. *)
Definition parseFloat (s : string) : Num :=
  let '(int_part, rest) := span is_digit s in
  let frac_part :=
      match rest with
      | String c rest' =>
          if (code c =? 46)%nat then fst (span is_digit rest') else EmptyString
      | EmptyString => EmptyString
      end in
  match int_part, frac_part with
  | EmptyString, EmptyString => num_NaN
  | _, _ =>
      num (inject_Z (digits_value 0 int_part)
           + inject_Z (digits_value 0 frac_part)
             / inject_Z (10 ^ Z.of_nat (String.length frac_part)))
  end.

(** [Math.min] and [Math.max]: [NaN] when an argument is [NaN]. *)
Definition Math_min (a b : Num) : Num :=
  match a, b with
  | num x, num y => num (if Qle_bool x y then x else y)
  | _, _ => num_NaN
  end.

Definition Math_max (a b : Num) : Num :=
  match a, b with
  | num x, num y => num (if Qle_bool x y then y else x)
  | _, _ => num_NaN
  end.

(** ** JSON values *)

#[local] Unset Elimination Schemes.

Inductive JSONValue : Type :=
  | JNull
  | JBool (b : bool)
  | JNumber (x : Q)
  | JString (s : string)
  | JArray (items : list JSONValue)
  | JObject (entries : list (string * JSONValue)).

#[local] Set Elimination Schemes.

Definition find_entry (key : string) (entries : list (string * JSONValue))
    : option JSONValue :=
  option_map snd (List.find (fun e => String.eqb (fst e) key) entries).

Definition string_entry (e : option JSONValue) : option string :=
  match e with
  | Some (JString s) => Some s
  | _ => None
  end.

Definition number_entry (e : option JSONValue) : option Q :=
  match e with
  | Some (JNumber x) => Some x
  | _ => None
  end.

Definition density_of_string (s : string) : option BuildingDensity :=
  if String.eqb s "sparse" then Some density_sparse
  else if String.eqb s "medium" then Some density_medium
  else if String.eqb s "dense" then Some density_dense
  else None.

Definition clustering_of_string (s : string) : option Clustering :=
  if String.eqb s "clustered" then Some clustered
  else if String.eqb s "distributed" then Some distributed
  else if String.eqb s "random" then Some random
  else None.

Definition size_of_string (s : string) : option BuildingSizeHint :=
  if String.eqb s "small" then Some size_small
  else if String.eqb s "medium" then Some size_medium
  else if String.eqb s "large" then Some size_large
  else None.

Section Parser.

(** [JSON.parse], a built-in: [None] when it throws. *)
Variable JSON_parse : string -> option JSONValue.

(** The [try] block: the constraints it returns, if it returns. *)
Definition parse_json (output : string) : option LayoutConstraints :=
  match jsonMatch output with
  | None => None
  | Some text =>
      match JSON_parse text with
      | Some (JObject entries) =>
          let density := string_entry (find_entry "buildingDensity" entries) in
          let clustering := string_entry (find_entry "clustering" entries) in
          let grassRatio := number_entry (find_entry "grassRatio" entries) in
          let size := string_entry (find_entry "buildingSizeHint" entries) in
          match density ≫= density_of_string,
                clustering ≫= clustering_of_string,
                grassRatio,
                size ≫= size_of_string with
          | Some d, Some c, Some g, Some sz =>
              if Qle_bool 0 g && Qle_bool g 1
              then Some (mkConstraints d c (num g) sz)
              else None
          | _, _, _, _ => None
          end
      | _ => None
      end
  end.

(** The regular-expression fallback. *)
Definition parse_regex (output : string) : LayoutConstraints :=
  let density :=
      default density_medium (densityMatch output ≫= density_of_string) in
  let clustering :=
      default random (clusteringMatch output ≫= clustering_of_string) in
  let grassRatio :=
      match grassRatioMatch output with
      | Some text => parseFloat text
      | None => num (3 # 10)
      end in
  let size :=
      default size_medium (sizeMatch output ≫= size_of_string) in
  {| buildingDensity := density;
     clustering := clustering;
     grassRatio := Math_max (num 0) (Math_min (num 1) grassRatio);
     buildingSizeHint := size |}.

Definition parseLayoutConstraints (output : string) : LayoutConstraints :=
  match parse_json output with
  | Some constraints => constraints
  | None => parse_regex output
  end.

End Parser.

End ConstraintParser.

From Stdlib Require Sorted.

(* ===================================================================== *)
(** * The remaining hex utilities ([HEX_UTILS]) *)
(* ===================================================================== *)

Module HEX_UTILS.

(** [offsetToAxial(col, row)]; [col & 1] is the parity bit, and
    [col + (col & 1)] is even, so the halving is exact. *)
Definition offsetToAxial (col row : Z) : HexCoord :=
  mkHex col (row - (col + Z.land col 1) / 2).

Definition axialToOffset (q r : Z) : Z * Z :=
  (q, r + (q + Z.land q 1) / 2).

Definition getNeighbors (q r : Z) : list HexCoord :=
  [ mkHex (q + 1) r;
    mkHex (q - 1) r;
    mkHex q (r + 1);
    mkHex q (r - 1);
    mkHex (q + 1) (r - 1);
    mkHex (q - 1) (r + 1) ].

Definition inBounds (col row width height : Z) : bool :=
  (col >=? 0) && (col <? width) && (row >=? 0) && (row <? height).

Definition inHexBoundary (q r centerQ centerR radius : Z) : bool :=
  distance q r centerQ centerR <=? radius.

Definition isInHexagonPattern (maxLayer q r centerQ centerR : Z) : bool :=
  let centerCube := axialToCube centerQ centerR in
  let tileCube := axialToCube q r in
  cubeDistance tileCube centerCube <=? maxLayer.

End HEX_UTILS.

(* ===================================================================== *)
(** * The remaining chunk and world map operations *)
(* ===================================================================== *)

Definition tile_with_enabled (b : bool) (t : ChunkTile) : ChunkTile :=
  {| tile_hex := tile_hex t; tileType := tileType t;
     tile_enabled := b; meshInstance := meshInstance t |}.

(** [Chunk.setEnabled]: the flag of the chunk and of every tile; the call
    [meshInstance.setEnabled] on the renderer's handle is outside the
    model. *)
Definition setEnabled (b : bool) (c : Chunk) : Chunk :=
  {| grid := map (tile_with_enabled b) (grid c);
     positionHex := positionHex c;
     positionCartesian := positionCartesian c; enabled := b;
     neighbors := neighbors c; tilesGenerated := tilesGenerated c;
     initialized := initialized c |}.

(** [Chunk.initializeAsync]: the batches only yield between them; they
    work on local arrays, and the grid is assigned at the end. *)
Definition initializeAsync (rings : Z) (c : Chunk) : Chunk :=
  if initialized c then c
  else
    let hexGrid :=
        generateHexGrid rings (hex_q (positionHex c)) (hex_r (positionHex c)) in
    let validatedGrid := fold_left (validate_hex (positionHex c) rings) hexGrid [] in
    markInitialized
      (setNeighbors (calculateChunkNeighbors (positionHex c) rings)
                    (setGrid validatedGrid c)).

(** [WorldMap.updateSpatialIndexIncremental]. *)
Definition updateSpatialIndexIncremental (chunk : ChunkRef)
    (positionHex : HexCoord) (w : World) : World :=
  publish_tiles positionHex (grid_of chunk w) w.

(** [WorldMap.createChunk], returning the chunk. *)
Definition createChunk (positionHex : HexCoord) (rings : Z) (hexSize : R)
    (w : World) : ChunkRef * World :=
  let key := getChunkKey positionHex in
  match chunks w !! key with
  | Some existing =>
      (existing,
       if chunk_test isInitialized w existing then w
       else update_chunk existing (initializeAsync rings) w)
  | None =>
      let '(chunk, w1) := alloc_chunk (new_Chunk positionHex hexSize) w in
      let w2 := with_chunks (<[key := chunk]> (chunks w1)) w1 in
      let w3 := update_chunk chunk (initializeAsync rings) w2 in
      (chunk, updateSpatialIndexIncremental chunk positionHex w3)
  end.

(** The body of the loop of [removeChunk] over the tiles of the chunk. *)
Definition remove_owned_entry (positionHex : HexCoord)
    (index : gmap Key HexCoord) (tile : ChunkTile) : gmap Key HexCoord :=
  let tileKey := getChunkKey (tile_hex tile) in
  match index !! tileKey with
  | Some indexedChunk =>
      if (hex_q indexedChunk =? hex_q positionHex)
         && (hex_r indexedChunk =? hex_r positionHex)
      then delete tileKey index
      else index
  | None => index
  end.

Definition removeChunk (positionHex : HexCoord) (w : World) : World :=
  let key := getChunkKey positionHex in
  match chunks w !! key with
  | None => w
  | Some chunk =>
      let index :=
          fold_left (remove_owned_entry positionHex) (grid_of chunk w)
                    (spatialIndex w) in
      with_chunks (delete key (chunks w)) (with_spatialIndex index w)
  end.

(** The linear search of [getChunkForTile]: the closest chunk found so far
    and its distance ([None] for no chunk, distance infinite), or the
    chunk centered on the tile once one is met. *)
Fixpoint scan_chunks (tileHex : HexCoord) (rings : Z)
    (existingChunks : list Chunk) (closest : option (HexCoord * Z))
    : option HexCoord :=
  match existingChunks with
  | [] => option_map fst closest
  | chunk :: rest =>
      let chunkPos := getPositionHex chunk in
      let d := distance (hex_q tileHex) (hex_r tileHex)
                        (hex_q chunkPos) (hex_r chunkPos) in
      if d =? 0 then Some chunkPos
      else if d <=? rings then
        match closest with
        | Some (_, minDistance) =>
            if d <? minDistance
            then scan_chunks tileHex rings rest (Some (chunkPos, d))
            else scan_chunks tileHex rings rest closest
        | None => scan_chunks tileHex rings rest (Some (chunkPos, d))
        end
      else scan_chunks tileHex rings rest closest
  end.

(** [getChunkForTile]: the fast lookup when a world map is given, the
    linear search when it finds nothing.  The fast lookup may evict an
    index entry, so the world map is returned as well. *)
Definition getChunkForTile (tileHex : HexCoord) (rings : Z)
    (existingChunks : list Chunk) (worldMap : option World)
    : option World * option HexCoord :=
  let scan := scan_chunks tileHex rings existingChunks None in
  match worldMap with
  | Some w =>
      let '(w', result) := getChunkForTileFast tileHex rings w in
      match result with
      | Some chunkPos => (Some w', Some chunkPos)
      | None => (Some w', scan)
      end
  | None => (None, scan)
  end.

Definition calculateChunkRadius (rings : Z) : Z := rings.

(** The number of step calls of a task: the grid batches, the neighbours
    step and the index batches. *)
Definition pipeline_calls (rings : Z) (chunkHex : HexCoord) : nat :=
  let total :=
      length (generateHexGrid rings (hex_q chunkHex) (hex_r chunkHex)) in
  (batches GRID_BATCH_SIZE total + 1 + batches SPATIAL_INDEX_BATCH_SIZE total)%nat.

(** The chunk a task leaves behind. *)
Definition initialized_chunk (rings : Z) (c : Chunk) : Chunk :=
  markInitialized
    (setNeighbors (calculateChunkNeighbors (positionHex c) rings)
       (setGrid
          (map fresh_tile
             (generateHexGrid rings (hex_q (positionHex c)) (hex_r (positionHex c))))
          c)).

(** Whether the index entry under [key] points to the chunk at
    [positionHex]. *)
Definition owned_by (positionHex : HexCoord) (index : gmap Key HexCoord)
    (key : Key) : bool :=
  match index !! key with
  | Some indexedChunk => hex_eqb indexedChunk positionHex
  | None => false
  end.

(** The distance [getChunkForTile] compares. *)
Definition tile_distance (tileHex chunkPos : HexCoord) : Z :=
  distance (hex_q tileHex) (hex_r tileHex) (hex_q chunkPos) (hex_r chunkPos).


(* ===================================================================== *)
(** * Processing the queue ([ChunkGenerationQueue.processNext]) *)
(* ===================================================================== *)

(** How a promise of a task is settled: [task.resolve(chunk)] or
    [task.reject(new Error(message))]. *)
Inductive Settlement : Type :=
  | Resolve (chunk : ChunkRef)
  | Reject (message : String.string).

(** What [processNext] works on: the world map, the table of tasks with
    the order in which its keys were inserted (a JS [Map] iterates in
    insertion order), and the settle calls made so far, in order.  The
    world map of a processing state is the world map of the call. *)
Record Runtime : Type := mkRuntime {
  rt_world : World;
  rt_tasks : gmap Key ChunkGenerationTask;
  rt_order : list Key;
  rt_settled : list (Promise * Settlement)
}.

(** [Array.from(this.tasks.values())], each task with the key it is held
    under. *)
Definition tasks_entries (s : Runtime) : list (Key * ChunkGenerationTask) :=
  omap (fun k => (fun t => (k, t)) <$> rt_tasks s !! k) (rt_order s).

(** [this.tasks.delete(key)]. *)
Definition tasks_delete (key : Key) (s : Runtime) : Runtime :=
  {| rt_world := rt_world s;
     rt_tasks := delete key (rt_tasks s);
     rt_order := List.filter (fun k => negb (bool_decide (k = key))) (rt_order s);
     rt_settled := rt_settled s |}.

(** [this.tasks.size > 0]. *)
Definition tasks_nonempty (s : Runtime) : bool :=
  negb (size (rt_tasks s) =? 0)%nat.

(** An assignment to a field of the task object held under [key]. *)
Definition with_task (key : Key)
    (f : ChunkGenerationTask -> ChunkGenerationTask) (s : Runtime) : Runtime :=
  {| rt_world := rt_world s;
     rt_tasks := alter f key (rt_tasks s);
     rt_order := rt_order s;
     rt_settled := rt_settled s |}.

Definition with_world (w : World) (s : Runtime) : Runtime :=
  {| rt_world := w; rt_tasks := rt_tasks s; rt_order := rt_order s;
     rt_settled := rt_settled s |}.

Definition settle (p : Promise) (how : Settlement) (s : Runtime) : Runtime :=
  {| rt_world := rt_world s; rt_tasks := rt_tasks s; rt_order := rt_order s;
     rt_settled := rt_settled s ++ [(p, how)] |}.

Definition with_status (st : ChunkGenerationStatus) (t : ChunkGenerationTask)
    : ChunkGenerationTask :=
  {| task_chunkHex := task_chunkHex t; task_rings := task_rings t;
     task_hexSize := task_hexSize t; priority := priority t; status := st;
     promise := promise t; processingState := processingState t;
     task_currentStep := task_currentStep t |}.

Definition with_processingState (state : option ChunkGenerationState)
    (t : ChunkGenerationTask) : ChunkGenerationTask :=
  {| task_chunkHex := task_chunkHex t; task_rings := task_rings t;
     task_hexSize := task_hexSize t; priority := priority t;
     status := status t; promise := promise t; processingState := state;
     task_currentStep := task_currentStep t |}.

Definition with_task_currentStep (step : option ProcessingStep)
    (t : ChunkGenerationTask) : ChunkGenerationTask :=
  {| task_chunkHex := task_chunkHex t; task_rings := task_rings t;
     task_hexSize := task_hexSize t; priority := priority t;
     status := status t; promise := promise t;
     processingState := processingState t; task_currentStep := step |}.

Definition is_pending (t : ChunkGenerationTask) : bool :=
  match status t with pending => true | _ => false end.

(** The comparator handed to [sort]. *)
Definition compare_tasks (a b : ChunkGenerationTask) : Z :=
  if negb (priority a =? priority b) then priority b - priority a
  else if is_pending a && negb (is_pending b) then -1
  else if negb (is_pending a) && is_pending b then 1
  else 0.

(** [Array.prototype.sort] is stable, and the comparator is a consistent
    one: the result is the stable sorting of the array, computed here by
    insertion from the right. *)
Fixpoint insert_task (x : Key * ChunkGenerationTask)
    (l : list (Key * ChunkGenerationTask)) : list (Key * ChunkGenerationTask) :=
  match l with
  | [] => [x]
  | y :: l' =>
      if compare_tasks (snd x) (snd y) <=? 0 then x :: y :: l'
      else y :: insert_task x l'
  end.

Definition sort_tasks (l : list (Key * ChunkGenerationTask))
    : list (Key * ChunkGenerationTask) :=
  fold_right insert_task [] l.

(** The test of the loop over the sorted tasks. *)
Definition ready (t : ChunkGenerationTask) : bool :=
  match status t with
  | pending => true
  | generating =>
      match task_currentStep t with Some _ => true | None => false end
  | _ => false
  end.

(** The task [processNext] picks, if any. *)
Definition select_task (s : Runtime) : option (Key * ChunkGenerationTask) :=
  List.find (fun kt => ready (snd kt)) (sort_tasks (tasks_entries s)).

(** The messages of the errors thrown and of the rejections. *)
Module ErrorMessages.
Import Stdlib.Strings.String.
Local Open Scope string_scope.

Definition placeholder_not_found : string := "Chunk placeholder not found".

Definition no_current_step : string :=
  "Task in generating state but has no current step or processing state".

Definition generation_failed (errorMessage : string) : string :=
  "Chunk generation failed: " ++ errorMessage.

Definition queue_cleared : string := "Chunk generation queue cleared".

End ErrorMessages.

(** The [catch] block and the [return] after it; [task] gives the fields
    of the task that are never assigned ([chunkHex], [promise]). *)
Definition fail_task (key : Key) (task : ChunkGenerationTask)
    (errorMessage : String.string) (s : Runtime) : bool * Runtime :=
  let s1 := with_task key (with_status failed) s in
  let s2 :=
      settle (promise task)
             (Reject (ErrorMessages.generation_failed errorMessage))
             s1 in
  let s3 := tasks_delete (getTaskKey (task_chunkHex task)) s2 in
  (tasks_nonempty s3, s3).

(** The loop [while (currentStep !== null)].  The step works on the state
    object of the task, so the task sees the new state at once.
    [over_budget n] is the outcome of the test [elapsed > this.frameBudget]
    after the step call number [n] of this call of [processNext]; the
    loop is cut after [fuel] step calls ([None]). *)
Fixpoint steps_loop (over_budget : nat -> bool) (fuel n : nat) (key : Key)
    (task : ChunkGenerationTask) (currentStep : ProcessingStep)
    (state : ChunkGenerationState) (s : Runtime) : option (bool * Runtime) :=
  match fuel with
  | O => None
  | S fuel' =>
      let '(w', state', nextStep) := run_step currentStep (rt_world s, state) in
      let s1 := with_task key (with_processingState (Some state'))
                          (with_world w' s) in
      if over_budget n then
        Some (true, with_task key (with_task_currentStep nextStep) s1)
      else
        match nextStep with
        | Some next =>
            steps_loop over_budget fuel' (S n) key task next state'
                       (with_task key (with_task_currentStep (Some next)) s1)
        | None =>
            let s2 := with_task key (with_status completed) s1 in
            let s3 := settle (promise task) (Resolve (st_chunk state')) s2 in
            let s4 := tasks_delete (getTaskKey (task_chunkHex task)) s3 in
            Some (tasks_nonempty s4, s4)
        end
  end.

(** [processNext(worldMap)]: [None] when the loop was cut, else the value
    returned and the state left behind. *)
Definition processNext (over_budget : nat -> bool) (fuel : nat) (s : Runtime)
    : option (bool * Runtime) :=
  if (size (rt_tasks s) =? 0)%nat then Some (false, s)
  else
    match select_task s with
    | None => Some (false, s)
    | Some (key, task) =>
        match status task with
        | pending =>
            let s1 := with_task key (with_status generating) s in
            match getChunk (task_chunkHex task) (rt_world s1) with
            | Some existingChunk =>
                let state :=
                    createProcessingState existingChunk (task_rings task)
                      (task_hexSize task) (task_chunkHex task) in
                let s2 :=
                    with_task key
                      (fun t => with_task_currentStep (Some StepGenerateGrid)
                                  (with_processingState (Some state) t)) s1 in
                steps_loop over_budget fuel 0 key task StepGenerateGrid state s2
            | None => Some (fail_task key task ErrorMessages.placeholder_not_found s1)
            end
        | _ =>
            match task_currentStep task, processingState task with
            | Some currentStep, Some state =>
                steps_loop over_budget fuel 0 key task currentStep state s
            | _, _ => Some (fail_task key task ErrorMessages.no_current_step s)
            end
        end
    end.

(** [getTask], [hasTask], [getPendingCount] and [clear]. *)
Definition getTask (chunkHex : HexCoord) (s : Runtime)
    : option ChunkGenerationTask :=
  rt_tasks s !! getTaskKey chunkHex.

Definition hasTask (chunkHex : HexCoord) (s : Runtime) : bool :=
  match rt_tasks s !! getTaskKey chunkHex with Some _ => true | None => false end.

Definition counts_as_pending (t : ChunkGenerationTask) : bool :=
  match status t with
  | pending | generating => true
  | _ => false
  end.

Definition getPendingCount (s : Runtime) : nat :=
  length (List.filter (fun kt => counts_as_pending (snd kt)) (tasks_entries s)).

Definition clear (s : Runtime) : Runtime :=
  {| rt_world := rt_world s;
     rt_tasks := ∅;
     rt_order := [];
     rt_settled :=
       rt_settled s
       ++ map (fun kt => (promise (snd kt),
                          Reject ErrorMessages.queue_cleared))
              (List.filter (fun kt => counts_as_pending (snd kt))
                           (tasks_entries s)) |}.

(** The shape of a table that [enqueue] and [processNext] build: the keys
    in insertion order are the keys of the table, each once; every task
    is held under the key of its chunk and is pending or generating. *)
Definition well_formed_queue (s : Runtime) : Prop :=
  List.NoDup (rt_order s) /\
  (forall k, In k (rt_order s) <-> is_Some (rt_tasks s !! k)) /\
  (forall k t, rt_tasks s !! k = Some t ->
     getTaskKey (task_chunkHex t) = k /\ counts_as_pending t = true).

(** An assignment that keeps the chunk of a task and does not take it
    out of the statuses pending and generating. *)
Definition keeps_task (f : ChunkGenerationTask -> ChunkGenerationTask) : Prop :=
  forall t, task_chunkHex (f t) = task_chunkHex t /\
            (counts_as_pending t = true -> counts_as_pending (f t) = true).


(* ===================================================================== *)
(** * Footprints and road helpers *)
(* ===================================================================== *)

(** A cell [{ x, y }] of a footprint and the bounds
    [{ minX, maxX, minY, maxY }]. *)
Record Cell : Type := mkCell { cell_x : Z; cell_y : Z }.

Record Bounds : Type := mkBounds { minX : Z; maxX : Z; minY : Z; maxY : Z }.

(** The body of the loop of [calculateRectangularBoundary]. *)
Definition widen (b : Bounds) (cell : Cell) : Bounds :=
  {| minX := if cell_x cell <? minX b then cell_x cell else minX b;
     maxX := if cell_x cell >? maxX b then cell_x cell else maxX b;
     minY := if cell_y cell <? minY b then cell_y cell else minY b;
     maxY := if cell_y cell >? maxY b then cell_y cell else maxY b |}.

Definition calculateRectangularBoundary (footprint : list Cell)
    : option Bounds :=
  match footprint with
  | [] => None
  | first :: _ =>
      Some (fold_left widen footprint
              {| minX := cell_x first; maxX := cell_x first;
                 minY := cell_y first; maxY := cell_y first |})
  end.

Definition validateFootprintBoundaries (footprint : list Cell) (minSize : Z)
    : bool :=
  match calculateRectangularBoundary footprint with
  | None => false
  | Some bounds =>
      let width := maxX bounds - minX bounds + 1 in
      let height := maxY bounds - minY bounds + 1 in
      (width >=? minSize) && (height >=? minSize)
  end.

(** The body of the loop of [findNearestRoad]; [None] is the distance
    [Number.POSITIVE_INFINITY] with no road yet. *)
Definition nearer (seed : HexCoord) (acc : option (HexCoord * Z))
    (road : HexCoord) : option (HexCoord * Z) :=
  let d := distance (hex_q seed) (hex_r seed) (hex_q road) (hex_r road) in
  match acc with
  | Some (_, minDistance) => if d <? minDistance then Some (road, d) else acc
  | None => Some (road, d)
  end.

Definition findNearestRoad (seed : HexCoord) (roadNetwork : list HexCoord)
    : option HexCoord :=
  match roadNetwork with
  | [] => None
  | _ => option_map fst (fold_left (nearer seed) roadNetwork None)
  end.

(** The body of the inner loop of [getAdjacentValidTerrain], on the array
    [adjacentHexes] and the set [adjacentSet]. *)
Definition adjacent_step (roadSet occupiedHexes : gset Key)
    (validTerrainHexes : list HexCoord)
    (acc : list HexCoord * gset Key) (neighbor : HexCoord)
    : list HexCoord * gset Key :=
  let '(adjacentHexes, adjacentSet) := acc in
  let neighborKey := (hex_q neighbor, hex_r neighbor) in
  if bool_decide (neighborKey ∈ roadSet) || bool_decide (neighborKey ∈ adjacentSet)
  then acc
  else if bool_decide (neighborKey ∈ occupiedHexes) then acc
  else if existsb (fun hex => (hex_q hex =? hex_q neighbor)
                              && (hex_r hex =? hex_r neighbor))
                  validTerrainHexes
  then (adjacentHexes ++ [neighbor], {[ neighborKey ]} ∪ adjacentSet)
  else acc.

Definition getAdjacentValidTerrain (roadNetwork validTerrainHexes : list HexCoord)
    (occupiedHexes : gset Key) : list HexCoord :=
  let roadSet : gset Key :=
      fold_left (fun s road => {[ (hex_q road, hex_r road) ]} ∪ s)
                roadNetwork ∅ in
  fst (fold_left
         (fun acc road =>
            fold_left (adjacent_step roadSet occupiedHexes validTerrainHexes)
                      (HEX_UTILS.getNeighbors (hex_q road) (hex_r road)) acc)
         roadNetwork ([], ∅)).

(* ===================================================================== *)
(** * Path finding ([hexAStar]) *)
(* ===================================================================== *)

(** A node of the search: [{ q, r, g, h, f, parent }]. *)
#[local] Unset Elimination Schemes.
Inductive AStarNode : Type :=
  mkAStarNode (q r g h f : Z) (parent : option AStarNode).
#[local] Set Elimination Schemes.

Definition node_q (node : AStarNode) : Z :=
  match node with mkAStarNode q _ _ _ _ _ => q end.
Definition node_r (node : AStarNode) : Z :=
  match node with mkAStarNode _ r _ _ _ _ => r end.
Definition node_g (node : AStarNode) : Z :=
  match node with mkAStarNode _ _ g _ _ _ => g end.
Definition node_f (node : AStarNode) : Z :=
  match node with mkAStarNode _ _ _ _ f _ => f end.
Definition node_parent (node : AStarNode) : option AStarNode :=
  match node with mkAStarNode _ _ _ _ _ parent => parent end.

(** The open set, a JS [Map]: its entries in insertion order, one per
    key.  [set] on a key of the map replaces the value where it stands,
    on a new key it appends. *)
Definition OpenSet : Type := list (Key * AStarNode).

Definition openSet_get (key : Key) (openSet : OpenSet) : option AStarNode :=
  option_map snd (List.find (fun e => bool_decide (fst e = key)) openSet).

Fixpoint openSet_set (key : Key) (node : AStarNode) (openSet : OpenSet)
    : OpenSet :=
  match openSet with
  | [] => [(key, node)]
  | e :: rest =>
      if bool_decide (fst e = key) then (key, node) :: rest
      else e :: openSet_set key node rest
  end.

Definition openSet_delete (key : Key) (openSet : OpenSet) : OpenSet :=
  List.filter (fun e => negb (bool_decide (fst e = key))) openSet.

(** The loop that finds the node of lowest [f]: the first one among
    equals; [None] is [minF] infinite with no node yet. *)
Definition lower_f (best : option (Key * AStarNode)) (entry : Key * AStarNode)
    : option (Key * AStarNode) :=
  match best with
  | Some (_, node) => if node_f (snd entry) <? node_f node then Some entry else best
  | None => Some entry
  end.

Definition lowest_f (openSet : OpenSet) : option (Key * AStarNode) :=
  fold_left lower_f openSet None.

(** The path read back along the parents, [unshift] by [unshift]. *)
Fixpoint reconstruct_path (node : AStarNode) : list HexCoord :=
  match node with
  | mkAStarNode q r _ _ _ parent =>
      match parent with
      | Some p => reconstruct_path p
      | None => []
      end ++ [mkHex q r]
  end.

Section AStar.

Variable goal : HexCoord.
Variable isValid : Z -> Z -> bool.

Definition heuristic (q r : Z) : Z :=
  cubeDistance (axialToCube q r) (axialToCube (hex_q goal) (hex_r goal)).

(** The body of the loop over the neighbours of [current]. *)
Definition explore (closedSet : gset Key) (current : AStarNode)
    (openSet : OpenSet) (neighbor : HexCoord) : OpenSet :=
  let neighborKey := (hex_q neighbor, hex_r neighbor) in
  if bool_decide (neighborKey ∈ closedSet) then openSet
  else if negb (isValid (hex_q neighbor) (hex_r neighbor)) then openSet
  else
    let tentativeG := node_g current + 1 in
    let h := heuristic (hex_q neighbor) (hex_r neighbor) in
    let newNode :=
        mkAStarNode (hex_q neighbor) (hex_r neighbor) tentativeG h
                    (tentativeG + h) (Some current) in
    match openSet_get neighborKey openSet with
    | Some existingNode =>
        if tentativeG <? node_g existingNode
        then openSet_set neighborKey newNode openSet
        else openSet
    | None => openSet_set neighborKey newNode openSet
    end.

(** The loop [while (openSet.size > 0)], cut after [fuel] rounds
    ([None]); otherwise the value returned, [Some None] for null. *)
Fixpoint search_loop (fuel : nat) (openSet : OpenSet) (closedSet : gset Key)
    : option (option (list HexCoord)) :=
  match fuel with
  | O => None
  | S fuel' =>
      match lowest_f openSet with
      | None => Some None
      | Some (currentKey, current) =>
          let openSet1 := openSet_delete currentKey openSet in
          let closedSet1 := {[ currentKey ]} ∪ closedSet in
          if (node_q current =? hex_q goal) && (node_r current =? hex_r goal)
          then Some (Some (reconstruct_path current))
          else
            search_loop fuel'
              (fold_left (explore closedSet1 current)
                         (HEX_UTILS.getNeighbors (node_q current) (node_r current))
                         openSet1)
              closedSet1
      end
  end.

Definition hexAStar (fuel : nat) (start : HexCoord)
    : option (option (list HexCoord)) :=
  let h := heuristic (hex_q start) (hex_r start) in
  let startNode := mkAStarNode (hex_q start) (hex_r start) 0 h (0 + h) None in
  search_loop fuel [((hex_q start, hex_r start), startNode)] ∅.

(** A walk from a hex: each hex is at distance 1 from the one before it
    and passes [isValid]. *)
Fixpoint walk (from : HexCoord) (l : list HexCoord) : Prop :=
  match l with
  | [] => True
  | hex :: l' =>
      distance (hex_q from) (hex_r from) (hex_q hex) (hex_r hex) = 1 /\
      isValid (hex_q hex) (hex_r hex) = true /\
      walk hex l'
  end.

(** A node whose chain of parents reads back as a walk from the start to
    the hex of the node. *)
Definition good_node (start : HexCoord) (node : AStarNode) : Prop :=
  exists rest,
    reconstruct_path node = start :: rest /\
    walk start rest /\
    List.last (start :: rest) start = mkHex (node_q node) (node_r node).

End AStar.
(* ===================================================================== *)
(** * Properties of the coordinate algebra *)
(* ===================================================================== *)

Lemma distance_double (q1 r1 q2 r2 : Z) :
  2 * distance q1 r1 q2 r2
  = Z.abs (q1 - q2) + Z.abs (q1 + r1 - q2 - r2) + Z.abs (r1 - r2).
Proof.
  unfold distance.
  set (S := Z.abs (q1 - q2) + Z.abs (q1 + r1 - q2 - r2) + Z.abs (r1 - r2)).
  pose proof (Z.div_mod S 2 ltac:(lia)) as Hdm.
  pose proof (Z.mod_pos_bound S 2 ltac:(lia)) as Hb.
  subst S. lia.
Qed.

(** The six neighbour centers in the order of emission: with the base
    offset [(a, b)], the center moved by [(a, b)] rotated four to nine
    times. *)
Lemma calculateChunkNeighbors_offsets (center : HexCoord) (R : Z) :
  calculateChunkNeighbors center R
  = let a := if R =? 0 then 1 else R in
    let b := if R =? 0 then 0 else R + 1 in
    map (fun o => mkHex (hex_q center + fst o) (hex_r center + snd o))
        [(- a - b, a); (- b, a + b); (a, b);
         (a + b, - a); (b, - a - b); (- a, - b)].
Proof.
  unfold calculateChunkNeighbors.
  destruct (Z.eqb_spec R 0) as [->|Hne];
    cbn -[Z.add Z.opp Z.sub Z.mul];
    repeat (f_equal; try lia).
Qed.

Lemma calculateChunkNeighbors_NoDup (center : HexCoord) (R : Z) :
  0 <= R -> List.NoDup (calculateChunkNeighbors center R).
Proof.
  intros HR. rewrite calculateChunkNeighbors_offsets.
  destruct (Z.eqb_spec R 0) as [->|Hne];
    cbn -[Z.add Z.opp Z.sub Z.mul];
    repeat (apply List.NoDup_cons;
            [cbn -[Z.add Z.opp Z.sub Z.mul];
             intros Hin;
             repeat (destruct Hin as [Heq|Hin]; [inversion Heq; lia|]);
             exact Hin|]);
    apply List.NoDup_nil.
Qed.

Lemma calculateChunkNeighbors_distance (center : HexCoord) (R : Z)
    (n : HexCoord) :
  0 <= R -> In n (calculateChunkNeighbors center R) ->
  distance (hex_q center) (hex_r center) (hex_q n) (hex_r n)
  = if R =? 0 then 1 else 2 * R + 1.
Proof.
  intros HR Hn.
  assert (Hd := distance_double (hex_q center) (hex_r center) (hex_q n) (hex_r n)).
  unfold calculateChunkNeighbors in Hn.
  destruct (Z.eqb_spec R 0) as [->|Hne];
    cbn -[Z.add Z.opp Z.mul] in Hn;
    repeat (destruct Hn as [<-|Hn]; [cbn [hex_q hex_r] in *; lia|]);
    contradiction.
Qed.

(** C4. For every radius [R >= 0] and every center, [calculateChunkNeighbors]
    returns exactly six neighbour centers: six pairwise different hexes,
    namely the center moved by the base offset [(a, b)] ([(R, R + 1)], or
    [(1, 0)] when [R = 0]) in each of its six rotations, and each of them
    at axial hex distance [2R + 1] from the center when [R > 0] and at
    distance [1] when [R = 0]. *)
Theorem calculateChunkNeighbors_six_at_packing_distance
    (center : HexCoord) (R : Z) (HR : 0 <= R) :
  let a := if R =? 0 then 1 else R in
  let b := if R =? 0 then 0 else R + 1 in
  calculateChunkNeighbors center R
  = map (fun o => mkHex (hex_q center + fst o) (hex_r center + snd o))
        [(- a - b, a); (- b, a + b); (a, b);
         (a + b, - a); (b, - a - b); (- a, - b)] /\
  length (calculateChunkNeighbors center R) = 6%nat /\
  List.NoDup (calculateChunkNeighbors center R) /\
  forall n, In n (calculateChunkNeighbors center R) ->
    distance (hex_q center) (hex_r center) (hex_q n) (hex_r n)
    = if R =? 0 then 1 else 2 * R + 1.
Proof.
  intros a b. split_and!.
  - apply calculateChunkNeighbors_offsets.
  - reflexivity.
  - now apply calculateChunkNeighbors_NoDup.
  - intros n. now apply calculateChunkNeighbors_distance.
Qed.

Lemma calculateChunkNeighbors_six_at_packing_distance_witness :
  calculateChunkNeighbors (mkHex 0 0) 2
  = [mkHex (-5) 2; mkHex (-3) 5; mkHex 2 3;
     mkHex 5 (-2); mkHex 3 (-5); mkHex (-2) (-3)] /\
  length (calculateChunkNeighbors (mkHex 0 0) 2) = 6%nat /\
  List.NoDup (calculateChunkNeighbors (mkHex 0 0) 2) /\
  forall n, In n (calculateChunkNeighbors (mkHex 0 0) 2) ->
    distance 0 0 (hex_q n) (hex_r n) = 5.
Proof.
  apply (calculateChunkNeighbors_six_at_packing_distance (mkHex 0 0) 2).
  lia.
Defined.

(* --------------------------------------------------------------------- *)
(** ** Ring enumeration in closed form *)
(* --------------------------------------------------------------------- *)

Section RingEnumeration.

Lemma cube_ext (a b : CubeCoord) :
  cube_q a = cube_q b -> cube_r a = cube_r b -> cube_s a = cube_s b -> a = b.
Proof. destruct a, b; cbn; congruence. Qed.

Lemma side_points_S (start d : CubeCoord) (n : nat) :
  side_points start d (S n) = start :: side_points (cube_add start d) d n.
Proof.
  unfold side_points. cbn [seq map]. f_equal.
  - apply cube_ext; cbn; lia.
  - rewrite <- seq_shift, map_map. apply map_ext. intros j.
    apply cube_ext; cbn; lia.
Qed.

Lemma ring_side_spec (n i : nat) (results : list CubeCoord) (cur : CubeCoord) :
  ring_side n i (results, cur)
  = (results ++ side_points cur (direction_at (i mod 6)%nat) n,
     cube_add cur (cube_scale (direction_at (i mod 6)%nat) (Z.of_nat n))).
Proof.
  revert results cur. induction n as [|n IH]; intros results cur.
  - cbn [ring_side side_points seq map]. rewrite app_nil_r. f_equal.
    apply cube_ext; cbn; lia.
  - cbn [ring_side]. rewrite IH, side_points_S, <- app_assoc. cbn [app].
    unfold cubeNeighbor. f_equal. apply cube_ext; cbn; lia.
Qed.

Lemma cubeRing_pos (c : CubeCoord) (R : Z) :
  0 < R -> cubeRing c R = ring_sides c R.
Proof.
  intros HR. unfold cubeRing.
  destruct (Z.eqb_spec R 0) as [->|_]; [lia|].
  cbn [seq fold_left]. rewrite !ring_side_spec. cbn [fst app].
  unfold ring_sides.
  change (direction_at (0 mod 6)) with (mkCube 1 0 (-1)).
  change (direction_at (1 mod 6)) with (mkCube 1 (-1) 0).
  change (direction_at (2 mod 6)) with (mkCube 0 (-1) 1).
  change (direction_at (3 mod 6)) with (mkCube (-1) 0 1).
  change (direction_at (4 mod 6)) with (mkCube (-1) 1 0).
  change (direction_at (5 mod 6)) with (mkCube 0 1 (-1)).
  change (direction_at 4) with (mkCube (-1) 1 0).
  rewrite <- !app_assoc.
  repeat (f_equal; [f_equal; apply cube_ext; cbn; lia|]).
  f_equal; apply cube_ext; cbn; lia.
Qed.

Lemma length_side_points (start d : CubeCoord) (n : nat) :
  length (side_points start d n) = n.
Proof. unfold side_points. now rewrite length_map, length_seq. Qed.

Lemma length_cubeRing_pos (c : CubeCoord) (R : Z) :
  0 < R -> length (cubeRing c R) = (6 * Z.to_nat R)%nat.
Proof.
  intros HR. rewrite cubeRing_pos by exact HR. unfold ring_sides.
  rewrite !length_app, !length_side_points. lia.
Qed.

Lemma in_side_points (x start d : CubeCoord) (n : nat) :
  In x (side_points start d n) <->
  exists j : Z, 0 <= j < Z.of_nat n /\
    x = cube_add start (cube_scale d j).
Proof.
  unfold side_points. rewrite in_map_iff. split.
  - intros (j & <- & Hj%in_seq). exists (Z.of_nat j). split; [lia|reflexivity].
  - intros (j & Hj & ->). exists (Z.to_nat j). split.
    + now rewrite Z2Nat.id by lia.
    + apply in_seq. lia.
Qed.

(** Membership in a ring of positive radius, side by side. *)
Lemma in_ring_sides (x c : CubeCoord) (R : Z) :
  0 < R ->
  In x (ring_sides c R) <->
  exists j : Z, 0 <= j < R /\
    let p (a b s : Z) :=
        x = mkCube (cube_q c + a) (cube_r c + b) (cube_s c + s) in
    p (- R + j) R (- j) \/ p j (R - j) (- R) \/ p R (- j) (- R + j) \/
    p (R - j) (- R) j \/ p (- j) (- R + j) R \/ p (- R) j (R - j).
Proof.
  intros HR. unfold ring_sides. rewrite !in_app_iff, !in_side_points.
  rewrite Z2Nat.id by lia. cbn zeta. split.
  - intros H.
    repeat (destruct H as [(j & Hj & ->)|H]; [exists j; split; [exact Hj|] |]);
      [ | | | | | destruct H as (j & Hj & ->); exists j; split; [exact Hj|] ].
    + left. apply cube_ext; cbn; lia.
    + right; left. apply cube_ext; cbn; lia.
    + do 2 right; left. apply cube_ext; cbn; lia.
    + do 3 right; left. apply cube_ext; cbn; lia.
    + do 4 right; left. apply cube_ext; cbn; lia.
    + do 5 right. apply cube_ext; cbn; lia.
  - intros (j & Hj & H).
    destruct H as [->|[->|[->|[->|[->| ->]]]]];
      [left|right;left|do 2 right;left|do 3 right;left|do 4 right;left|do 5 right];
      (exists j; split; [exact Hj|apply cube_ext; cbn; lia]).
Qed.

End RingEnumeration.

(* --------------------------------------------------------------------- *)
(** ** Rings: distance, distinctness, size *)
(* --------------------------------------------------------------------- *)

Section RingFacts.

Lemma cubeRing_zero (c : CubeCoord) : cubeRing c 0 = [c].
Proof. reflexivity. Qed.

Lemma in_cubeRing_facts (x c : CubeCoord) (R : Z) :
  0 <= R -> In x (cubeRing c R) ->
  distance (cube_q c) (cube_r c) (cube_q x) (cube_r x) = R /\
  cube_q x + cube_r x + cube_s x = cube_q c + cube_r c + cube_s c.
Proof.
  intros HR Hx.
  pose proof (distance_double (cube_q c) (cube_r c) (cube_q x) (cube_r x)) as Hd.
  destruct (Z.eq_dec R 0) as [->|Hne].
  - rewrite cubeRing_zero in Hx. destruct Hx as [<-|[]]. lia.
  - rewrite cubeRing_pos in Hx by lia.
    apply in_ring_sides in Hx; [|lia].
    destruct Hx as (j & Hj & H). cbn zeta in H.
    destruct H as [->|[->|[->|[->|[->| ->]]]]]; cbn [cube_q cube_r cube_s] in *; lia.
Qed.

Lemma NoDup_side_points (start d : CubeCoord) (n : nat) :
  cube_q d <> 0 \/ cube_r d <> 0 ->
  NoDup (side_points start d n).
Proof.
  intros Hd. unfold side_points.
  change (NoDup ((fun j => cube_add start (cube_scale d (Z.of_nat j))) <$> seq 0 n)).
  apply NoDup_fmap_2_strong; [|apply NoDup_seq].
  intros i j _ _ Heq. injection Heq as Hq Hr _.
  destruct Hd as [Hd|Hd]; nia.
Qed.

Lemma NoDup_ring_sides (c : CubeCoord) (R : Z) :
  0 < R -> NoDup (ring_sides c R).
Proof.
  intros HR. unfold ring_sides.
  repeat (apply NoDup_app; split;
          [apply NoDup_side_points; cbn; lia|split]);
    try (apply NoDup_side_points; cbn; lia).
  all: intros x Hx Hx'; rewrite list_elem_of_In in Hx, Hx';
    rewrite ?in_app_iff, !in_side_points in Hx';
    apply in_side_points in Hx; destruct Hx as (i & Hi & ->);
    rewrite Z2Nat.id in * by lia;
    repeat (destruct Hx' as [(j & Hj & Heq)|Hx'];
            [injection Heq as Hq Hr Hs; lia|]);
    destruct Hx' as (j & Hj & Heq); injection Heq as Hq Hr Hs; lia.
Qed.

Lemma NoDup_cubeRing (c : CubeCoord) (R : Z) :
  0 <= R -> NoDup (cubeRing c R).
Proof.
  intros HR. destruct (Z.eq_dec R 0) as [->|Hne].
  - rewrite cubeRing_zero. apply NoDup_singleton.
  - rewrite cubeRing_pos by lia. apply NoDup_ring_sides. lia.
Qed.

Lemma length_cubeRing (c : CubeCoord) (R : Z) :
  0 <= R ->
  Z.of_nat (length (cubeRing c R)) = if R =? 0 then 1 else 6 * R.
Proof.
  intros HR. destruct (Z.eqb_spec R 0) as [->|Hne]; [reflexivity|].
  rewrite length_cubeRing_pos by lia. lia.
Qed.

End RingFacts.

(* --------------------------------------------------------------------- *)
(** ** The deduplicating set and the whole grid *)
(* --------------------------------------------------------------------- *)

Section GridFacts.

Lemma key_eqb_eq (a b : CubeKey) : key_eqb a b = true <-> a = b.
Proof.
  destruct a as [[a1 a2] a3], b as [[b1 b2] b3]. cbn.
  rewrite !andb_true_iff, !Z.eqb_eq. split.
  - intros [[-> ->] ->]. reflexivity.
  - intros [= -> -> ->]. auto.
Qed.

Lemma cube_key_inj (a b : CubeCoord) : cube_key a = cube_key b -> a = b.
Proof. destruct a, b. cbn. intros [= -> -> ->]. reflexivity. Qed.

Lemma set_add_fresh (k : CubeKey) (s : list CubeKey) :
  ~ In k s -> set_add k s = s ++ [k].
Proof.
  intros Hk. unfold set_add.
  destruct (existsb (key_eqb k) s) eqn:E; [|reflexivity].
  apply existsb_exists in E. destruct E as (k' & Hin & Heq%key_eqb_eq).
  subst. contradiction.
Qed.

Lemma set_add_present (k : CubeKey) (s : list CubeKey) :
  In k s -> set_add k s = s.
Proof.
  intros Hk. unfold set_add.
  destruct (existsb (key_eqb k) s) eqn:E; [reflexivity|].
  assert (existsb (key_eqb k) s = true) as E'; [|congruence].
  apply existsb_exists. exists k. split; [exact Hk|now apply key_eqb_eq].
Qed.

Lemma fold_set_add_fresh (ring : list CubeCoord) (s : list CubeKey) :
  NoDup ring ->
  (forall x, In x ring -> ~ In (cube_key x) s) ->
  fold_left (fun g cube => set_add (cube_key cube) g) ring s
  = s ++ map cube_key ring.
Proof.
  revert s. induction ring as [|a ring IH]; intros s Hnd Hfresh.
  - cbn. now rewrite app_nil_r.
  - apply NoDup_cons in Hnd. destruct Hnd as [Ha Hnd].
    cbn [fold_left map]. rewrite set_add_fresh by (apply Hfresh; now left).
    rewrite IH; [now rewrite <- app_assoc|exact Hnd|].
    intros x Hx [Hin|Hin]%in_app_iff.
    + apply (Hfresh x); [now right|exact Hin].
    + destruct Hin as [Heq|[]]. apply cube_key_inj in Heq. subst x.
      apply Ha. now apply list_elem_of_In.
Qed.

Lemma in_rings_upto (x c : CubeCoord) (m : nat) :
  In x (rings_upto c m) ->
  0 <= distance (cube_q c) (cube_r c) (cube_q x) (cube_r x) < Z.of_nat m /\
  cube_q x + cube_r x + cube_s x = cube_q c + cube_r c + cube_s c.
Proof.
  unfold rings_upto. rewrite in_flat_map.
  intros (layer & Hl & Hx). apply in_map_iff in Hl.
  destruct Hl as (k & <- & Hk%in_seq).
  apply in_cubeRing_facts in Hx; [|lia]. lia.
Qed.

Lemma rings_upto_S (c : CubeCoord) (m : nat) :
  rings_upto c (S m) = rings_upto c m ++ cubeRing c (Z.of_nat m).
Proof.
  unfold rings_upto. rewrite seq_S, map_app, flat_map_app. cbn.
  now rewrite app_nil_r.
Qed.

Lemma grid_set_fold (c : CubeCoord) (m : nat) :
  fold_left
    (fun gridSet layer =>
       fold_left (fun gridSet cube => set_add (cube_key cube) gridSet)
                 (cubeRing c layer) gridSet)
    (map Z.of_nat (seq 0 m)) []
  = map cube_key (rings_upto c m).
Proof.
  induction m as [|m IH]; [reflexivity|].
  rewrite seq_S, map_app, fold_left_app, IH, rings_upto_S, map_app.
  cbn [map fold_left Nat.add].
  apply fold_set_add_fresh; [apply NoDup_cubeRing; lia|].
  intros x Hx Hin. apply in_map_iff in Hin.
  destruct Hin as (y & Heq%cube_key_inj & Hy). subst y.
  apply in_rings_upto in Hy. apply in_cubeRing_facts in Hx; lia.
Qed.

Lemma length_rings_upto (c : CubeCoord) (m : nat) :
  Z.of_nat (length (rings_upto c (S m)))
  = 3 * Z.of_nat m * (Z.of_nat m + 1) + 1.
Proof.
  induction m as [|m IH]; [reflexivity|].
  rewrite rings_upto_S, length_app, Nat2Z.inj_add, IH.
  rewrite length_cubeRing by lia.
  destruct (Z.eqb_spec (Z.of_nat (S m)) 0); lia.
Qed.

Lemma flat_map_valid_keys (l : list CubeCoord) :
  (forall x, In x l -> cube_q x + cube_r x + cube_s x = 0) ->
  flat_map (fun key : CubeKey =>
              let '(q, r, s) := key in
              if q + r + s =? 0 then [mkHex q r] else [])
           (map cube_key l)
  = map cubeToAxial l.
Proof.
  induction l as [|x l IH]; intros Hsum; [reflexivity|].
  cbn [map flat_map]. rewrite IH by (intros y Hy; apply Hsum; now right).
  unfold cube_key at 1.
  specialize (Hsum x (or_introl eq_refl)).
  destruct (Z.eqb_spec (cube_q x + cube_r x + cube_s x) 0); [reflexivity|lia].
Qed.

(** The grid in closed form: the rings [0 .. R] in enumeration order, no key
    is dropped by the set and none by the cube-validity test. *)
Lemma generateHexGrid_spec (R q r : Z) :
  0 <= R ->
  generateHexGrid R q r
  = map cubeToAxial (rings_upto (axialToCube q r) (S (Z.to_nat R))).
Proof.
  intros HR. unfold generateHexGrid, grid_set, layers.
  replace (Z.to_nat (R + 1)) with (S (Z.to_nat R)) by lia.
  rewrite grid_set_fold. apply flat_map_valid_keys.
  intros x Hx%in_rings_upto. cbn in Hx. lia.
Qed.

Lemma length_generateHexGrid (R q r : Z) :
  0 <= R ->
  Z.of_nat (length (generateHexGrid R q r)) = 3 * R * (R + 1) + 1.
Proof.
  intros HR. rewrite generateHexGrid_spec by exact HR.
  rewrite length_map, length_rings_upto. rewrite Z2Nat.id by lia. reflexivity.
Qed.

Lemma generateHexGrid_within (R q r : Z) (h : HexCoord) :
  0 <= R -> In h (generateHexGrid R q r) ->
  distance q r (hex_q h) (hex_r h) <= R.
Proof.
  intros HR Hh. rewrite generateHexGrid_spec in Hh by exact HR.
  apply in_map_iff in Hh. destruct Hh as (x & <- & Hx%in_rings_upto).
  cbn in *. lia.
Qed.

Lemma NoDup_generateHexGrid (R q r : Z) :
  0 <= R -> NoDup (generateHexGrid R q r).
Proof.
  intros HR. rewrite generateHexGrid_spec by exact HR.
  generalize (S (Z.to_nat R)). intros m.
  change (NoDup (cubeToAxial <$> rings_upto (axialToCube q r) m)).
  apply NoDup_fmap_2_strong.
  - intros x y Hx%list_elem_of_In%in_rings_upto Hy%list_elem_of_In%in_rings_upto Heq.
    injection Heq as Hq Hr. apply cube_ext; lia.
  - induction m as [|m IH]; [apply NoDup_nil_2|].
    rewrite rings_upto_S. apply NoDup_app. split; [exact IH|]. split.
    + intros x Hx%list_elem_of_In%in_rings_upto Hx'%list_elem_of_In.
      apply in_cubeRing_facts in Hx'; lia.
    + apply NoDup_cubeRing. lia.
Qed.

End GridFacts.

(* --------------------------------------------------------------------- *)
(** ** Batched steps *)
(* --------------------------------------------------------------------- *)

Section Batches.

Context {A : Type}.

Lemma slice_last (l : list A) (i size : nat) :
  (i <= length l)%nat -> (length l - i <= size)%nat ->
  Nat.min (i + size) (length l) = length l /\
  slice l i (length l) = skipn i l.
Proof.
  intros Hi Hs. split; [lia|].
  unfold slice. apply firstn_all2. rewrite length_skipn. lia.
Qed.

Lemma slice_more (l : list A) (i size : nat) :
  (size < length l - i)%nat ->
  Nat.min (i + size) (length l) = (i + size)%nat /\
  skipn i l = slice l i (i + size) ++ skipn (i + size) l.
Proof.
  intros Hs. split; [lia|].
  unfold slice. replace (i + size - i)%nat with size by lia.
  rewrite <- (firstn_skipn size (skipn i l)) at 1. f_equal.
  rewrite skipn_skipn. f_equal. lia.
Qed.

Lemma batches_bounds (size total : nat) :
  (0 < size)%nat ->
  let k := (batches size total - 1)%nat in
  batches size total = S k /\
  (total <= S k * size)%nat /\ (k = 0%nat \/ (k * size < total)%nat).
Proof.
  intros Hs k. subst k. unfold batches.
  pose proof (Nat.div_mod_eq (total + size - 1) size) as Hdm.
  pose proof (Nat.mod_upper_bound (total + size - 1) size ltac:(lia)) as Hm.
  set (d := ((total + size - 1) / size)%nat) in *.
  set (m := ((total + size - 1) mod size)%nat) in *.
  destruct (Nat.max_spec 1 d) as [[Hlt ->]|[Hle ->]].
  - split; [lia|]. split; [nia|]. right. nia.
  - assert (d = 0 \/ d = 1)%nat as [Hd|Hd] by lia; rewrite Hd in *.
    + split; [reflexivity|]. split; [lia|]. now left.
    + split; [reflexivity|]. split; [nia|]. now left.
Qed.

End Batches.

Section GridPhase.

Lemma drive_S (n : nat) (s : ProcessingStep)
    (ws : World * ChunkGenerationState) :
  drive (S n) (Some s) ws
  = let '(ws', next) := run_step s ws in drive n next ws'.
Proof. reflexivity. Qed.

Lemma drive_O (step : option ProcessingStep)
    (ws : World * ChunkGenerationState) :
  drive 0 step ws = (ws, step).
Proof. reflexivity. Qed.

Lemma fold_validate_hex (c : HexCoord) (R : Z) (l : list HexCoord)
    (validated : list ChunkTile) :
  fold_left (validate_hex c R) l validated
  = validated ++
    map fresh_tile
      (List.filter (fun h => distance (hex_q c) (hex_r c) (hex_q h) (hex_r h)
                             <=? R) l).
Proof.
  revert validated. induction l as [|h l IH]; intros validated; cbn [fold_left].
  - cbn. now rewrite app_nil_r.
  - rewrite IH. unfold validate_hex. cbn [List.filter].
    destruct (distance _ _ _ _ <=? R); cbn [map].
    + now rewrite <- app_assoc.
    + reflexivity.
Qed.

(** Driving the grid step from batch index [i] takes one call per remaining
    batch and ends by installing the validated grid on the chunk. *)
Lemma drive_grid_from (k : nat) :
  forall (w : World) (state : ChunkGenerationState),
    let g := grid_in_use state in
    let i := gridBatchIndex state in
    (i <= length g)%nat ->
    (length g - i <= S k * GRID_BATCH_SIZE)%nat ->
    (k = 0%nat \/ (k * GRID_BATCH_SIZE < length g - i)%nat) ->
    drive (S k) (Some StepGenerateGrid) (w, state)
    = let validated :=
          fold_left (validate_hex (st_chunkHex state) (st_rings state))
                    (skipn i g) (validatedGrid state) in
      (update_chunk (st_chunk state) (setGrid validated) w,
       grid_done_state state g validated,
       Some StepComputeNeighbors).
Proof.
  induction k as [|k IH]; intros w state g i Hi Hlen Hk.
  - rewrite drive_S. cbn [run_step]. unfold stepGenerateGrid.
    fold (grid_in_use state). fold g. fold i.
    destruct (slice_last g i GRID_BATCH_SIZE Hi ltac:(lia)) as [-> ->].
    rewrite Nat.ltb_irrefl. reflexivity.
  - assert (GRID_BATCH_SIZE < length g - i)%nat as Hmore
        by (destruct Hk as [Hk|Hk]; [discriminate|unfold GRID_BATCH_SIZE in *; lia]).
    destruct (slice_more g i GRID_BATCH_SIZE Hmore) as [Hmin Hsplit].
    rewrite drive_S. cbn [run_step]. unfold stepGenerateGrid.
    fold (grid_in_use state). fold g. fold i.
    rewrite Hmin.
    destruct (Nat.ltb_spec (i + GRID_BATCH_SIZE) (length g)) as [_|Hge]; [|lia].
    rewrite IH; cbn [grid_in_use hexGrid gridBatchIndex validatedGrid
                     st_chunk st_rings st_chunkHex].
    + cbn zeta. rewrite Hsplit, fold_left_app. reflexivity.
    + lia.
    + unfold GRID_BATCH_SIZE in *. lia.
    + unfold GRID_BATCH_SIZE in *. lia.
Qed.

Lemma drive_grid_phase (w : World) (state : ChunkGenerationState) :
  gridBatchIndex state = 0%nat ->
  let g := grid_in_use state in
  drive (batches GRID_BATCH_SIZE (length g)) (Some StepGenerateGrid) (w, state)
  = let validated :=
        fold_left (validate_hex (st_chunkHex state) (st_rings state))
                  g (validatedGrid state) in
    (update_chunk (st_chunk state) (setGrid validated) w,
     grid_done_state state g validated,
     Some StepComputeNeighbors).
Proof.
  intros H0 g.
  destruct (batches_bounds GRID_BATCH_SIZE (length g)) as (-> & Hle & Hk);
    [unfold GRID_BATCH_SIZE; lia|].
  rewrite drive_grid_from; fold g; rewrite ?H0; cbn [skipn]; try lia.
  reflexivity.
Qed.

End GridPhase.

Section GridTheorems.

Lemma filter_all_within (rings q r : Z) :
  0 <= rings ->
  List.filter (fun h => distance q r (hex_q h) (hex_r h) <=? rings)
              (generateHexGrid rings q r)
  = generateHexGrid rings q r.
Proof.
  intros HR. apply forallb_filter_id. apply forallb_forall.
  intros h Hh. apply Z.leb_le. now apply generateHexGrid_within.
Qed.

(** The grid phase on a fresh processing state: every enumerated hex is
    validated. *)
Lemma drive_grid_all_validated (rings q r : Z) (w : World) (ref : ChunkRef)
    (hexSize : Rdefinitions.R) :
  0 <= rings ->
  let state := createProcessingState ref rings hexSize (mkHex q r) in
  let g := generateHexGrid rings q r in
  drive (batches GRID_BATCH_SIZE (length g)) (Some StepGenerateGrid) (w, state)
  = (update_chunk ref (setGrid (map fresh_tile g)) w,
     grid_done_state state g (map fresh_tile g),
     Some StepComputeNeighbors).
Proof.
  intros Hrings state g.
  pose proof (drive_grid_phase w state eq_refl) as Hdrive.
  cbn zeta in Hdrive.
  change (grid_in_use state) with g in Hdrive.
  rewrite Hdrive, fold_validate_hex.
  cbn [state createProcessingState st_rings st_chunkHex hex_q hex_r
       validatedGrid st_chunk app].
  unfold g. rewrite filter_all_within by exact Hrings. reflexivity.
Qed.

(** C10. For every radius [rings >= 0] and every center [(q, r)]: every hex
    of every ring of the layers [0 .. rings], and so every hex of the
    enumerated grid, is at hex distance at most [rings] from the center; the
    test [distance <= rings] of the chunk grid step takes the push branch on
    every enumerated hex, and the grid phase ends with a validated grid that
    is the full enumerated grid, one fresh tile per hex. *)
Theorem grid_filter_never_rejects (rings q r : Z) (Hrings : 0 <= rings) :
  (forall layer x, 0 <= layer <= rings ->
     In x (cubeRing (axialToCube q r) layer) ->
     distance q r (cube_q x) (cube_r x) <= rings) /\
  (forall h, In h (generateHexGrid rings q r) ->
     distance q r (hex_q h) (hex_r h) <= rings) /\
  (forall h validated, In h (generateHexGrid rings q r) ->
     validate_hex (mkHex q r) rings validated h = validated ++ [fresh_tile h]) /\
  (forall (w : World) (ref : ChunkRef) (hexSize : Rdefinitions.R),
     let state := createProcessingState ref rings hexSize (mkHex q r) in
     let g := generateHexGrid rings q r in
     drive (batches GRID_BATCH_SIZE (length g)) (Some StepGenerateGrid)
           (w, state)
     = (update_chunk ref (setGrid (map fresh_tile g)) w,
        grid_done_state state g (map fresh_tile g),
        Some StepComputeNeighbors)).
Proof.
  split; [|split; [|split]].
  - intros layer x Hl Hx. apply in_cubeRing_facts in Hx; [|lia].
    cbn in Hx. lia.
  - intros h Hh. now apply generateHexGrid_within.
  - intros h validated Hh. unfold validate_hex. cbn [hex_q hex_r].
    apply generateHexGrid_within in Hh; [|exact Hrings].
    apply Z.leb_le in Hh. now rewrite Hh.
  - intros w ref hexSize. now apply drive_grid_all_validated.
Qed.

Lemma grid_filter_never_rejects_witness :
  List.Forall (fun h => distance 0 0 (hex_q h) (hex_r h) <= 2)
              (generateHexGrid 2 0 0) /\
  length (generateHexGrid 2 0 0) = 19%nat.
Proof.
  split; [|reflexivity].
  apply List.Forall_forall.
  apply (proj1 (proj2 (grid_filter_never_rejects 2 0 0 ltac:(lia)))).
Defined.

(** C3. For every radius [rings >= 0] and every center hex: driving the grid
    step of a task on its chunk completes the grid phase (after one call per
    batch of 150 hexes the next step is the neighbours step), and the chunk
    then holds exactly [3 * rings * (rings + 1) + 1] tiles, each at axial
    hex distance at most [rings] from the chunk center. *)
Theorem grid_phase_tile_count (rings : Z) (center : HexCoord) (w : World)
    (ref : ChunkRef) (c : Chunk) (hexSize : Rdefinitions.R)
    (Hrings : 0 <= rings)
    (Hchunk : objects w !! ref = Some c)
    (Hcenter : positionHex c = center) :
  let state := createProcessingState ref rings hexSize center in
  let g := generateHexGrid rings (hex_q center) (hex_r center) in
  exists w' state' c',
    drive (batches GRID_BATCH_SIZE (length g)) (Some StepGenerateGrid)
          (w, state)
    = (w', state', Some StepComputeNeighbors) /\
    objects w' !! ref = Some c' /\
    positionHex c' = center /\
    Z.of_nat (length (grid c')) = 3 * rings * (rings + 1) + 1 /\
    forall t, In t (grid c') ->
      distance (hex_q center) (hex_r center)
               (hex_q (tile_hex t)) (hex_r (tile_hex t)) <= rings.
Proof.
  intros state g. destruct center as [q r]. cbn [hex_q hex_r] in *.
  eexists _, _, (setGrid (map fresh_tile g) c).
  split; [now apply drive_grid_all_validated|].
  split; [cbn; now rewrite lookup_alter_eq, Hchunk|].
  split; [exact Hcenter|].
  split.
  - cbn [setGrid grid]. rewrite length_map.
    now apply length_generateHexGrid.
  - cbn [setGrid grid]. intros t Ht. apply in_map_iff in Ht.
    destruct Ht as (h & <- & Hh). cbn. now apply generateHexGrid_within.
Qed.

Lemma grid_phase_tile_count_witness :
  let w := with_objects {[ 0%nat := new_Chunk (mkHex 0 0) 1%R ]} empty_World in
  let state := createProcessingState 0%nat 2 1%R (mkHex 0 0) in
  exists w' state' c',
    drive (batches GRID_BATCH_SIZE (length (generateHexGrid 2 0 0)))
          (Some StepGenerateGrid) (w, state)
    = (w', state', Some StepComputeNeighbors) /\
    objects w' !! 0%nat = Some c' /\
    positionHex c' = mkHex 0 0 /\
    Z.of_nat (length (grid c')) = 19 /\
    forall t, In t (grid c') ->
      distance 0 0 (hex_q (tile_hex t)) (hex_r (tile_hex t)) <= 2.
Proof.
  intros w state.
  apply (grid_phase_tile_count 2 (mkHex 0 0) w 0%nat
           (new_Chunk (mkHex 0 0) 1%R) 1%R).
  - lia.
  - reflexivity.
  - reflexivity.
Defined.

End GridTheorems.

(* --------------------------------------------------------------------- *)
(** ** The index phase *)
(* --------------------------------------------------------------------- *)

Section IndexPhase.

Lemma publish_tiles_objects (chunkHex : HexCoord) (tiles : list ChunkTile)
    (w : World) :
  objects (publish_tiles chunkHex tiles w) = objects w /\
  chunks (publish_tiles chunkHex tiles w) = chunks w.
Proof.
  revert w. induction tiles as [|t tiles IH]; intros w; [now split|].
  unfold publish_tiles in *. cbn [fold_left]. now rewrite !(proj1 (IH _)), !(proj2 (IH _)).
Qed.

Lemma grid_of_publish_tiles (ref : ChunkRef) (chunkHex : HexCoord)
    (tiles : list ChunkTile) (w : World) :
  grid_of ref (publish_tiles chunkHex tiles w) = grid_of ref w.
Proof. unfold grid_of. now rewrite (proj1 (publish_tiles_objects _ _ _)). Qed.

Lemma publish_tiles_app (chunkHex : HexCoord) (l1 l2 : list ChunkTile)
    (w : World) :
  publish_tiles chunkHex (l1 ++ l2) w
  = publish_tiles chunkHex l2 (publish_tiles chunkHex l1 w).
Proof. unfold publish_tiles. apply fold_left_app. Qed.

(** The index after publishing: a published hex maps to the publishing
    chunk whatever was there before, any other hex keeps its entry. *)
Lemma publish_tiles_lookup (chunkHex : HexCoord) (tiles : list ChunkTile)
    (w : World) (key : Key) :
  spatialIndex (publish_tiles chunkHex tiles w) !! key
  = if existsb (fun t => bool_decide (getChunkKey (tile_hex t) = key)) tiles
    then Some chunkHex
    else spatialIndex w !! key.
Proof.
  revert w. induction tiles as [|t tiles IH]; intros w; [reflexivity|].
  unfold publish_tiles in *. cbn [fold_left existsb]. rewrite IH.
  destruct (existsb _ tiles); [now rewrite orb_true_r|].
  rewrite orb_false_r. cbn [addSpatialIndexEntry with_spatialIndex spatialIndex].
  case_bool_decide as Hk.
  - subst key. apply lookup_insert_eq.
  - now apply lookup_insert_ne.
Qed.

Lemma drive_index_from (k : nat) :
  forall (w : World) (state : ChunkGenerationState),
    let g := grid_of (st_chunk state) w in
    let i := spatialIndexBatchIndex state in
    (i <= length g)%nat ->
    (length g - i <= S k * SPATIAL_INDEX_BATCH_SIZE)%nat ->
    (k = 0%nat \/ (k * SPATIAL_INDEX_BATCH_SIZE < length g - i)%nat) ->
    drive (S k) (Some StepUpdateSpatialIndex) (w, state)
    = (publish_tiles (st_chunkHex state) (skipn i g) w,
       index_done_state state (length g),
       None).
Proof.
  induction k as [|k IH]; intros w state g i Hi Hlen Hk.
  - rewrite drive_S. cbn [run_step]. unfold stepUpdateSpatialIndex.
    fold g. fold i.
    destruct (slice_last g i SPATIAL_INDEX_BATCH_SIZE Hi ltac:(lia)) as [-> ->].
    rewrite Nat.ltb_irrefl. reflexivity.
  - assert (SPATIAL_INDEX_BATCH_SIZE < length g - i)%nat as Hmore
        by (destruct Hk as [Hk|Hk];
            [discriminate|unfold SPATIAL_INDEX_BATCH_SIZE in *; lia]).
    destruct (slice_more g i SPATIAL_INDEX_BATCH_SIZE Hmore) as [Hmin Hsplit].
    rewrite drive_S. cbn [run_step]. unfold stepUpdateSpatialIndex.
    fold g. fold i. rewrite Hmin.
    destruct (Nat.ltb_spec (i + SPATIAL_INDEX_BATCH_SIZE) (length g))
      as [_|Hge]; [|lia].
    fold (publish_tiles (st_chunkHex state)
            (slice g i (i + SPATIAL_INDEX_BATCH_SIZE)) w).
    rewrite IH;
      cbn [st_chunk st_chunkHex spatialIndexBatchIndex];
      rewrite ?grid_of_publish_tiles; fold g.
    + rewrite Hsplit, publish_tiles_app. reflexivity.
    + lia.
    + unfold SPATIAL_INDEX_BATCH_SIZE in *. lia.
    + unfold SPATIAL_INDEX_BATCH_SIZE in *. lia.
Qed.

Lemma drive_index_phase (w : World) (state : ChunkGenerationState) :
  spatialIndexBatchIndex state = 0%nat ->
  let g := grid_of (st_chunk state) w in
  drive (batches SPATIAL_INDEX_BATCH_SIZE (length g))
        (Some StepUpdateSpatialIndex) (w, state)
  = (publish_tiles (st_chunkHex state) g w,
     index_done_state state (length g),
     None).
Proof.
  intros H0 g.
  destruct (batches_bounds SPATIAL_INDEX_BATCH_SIZE (length g))
    as (-> & Hle & Hk); [unfold SPATIAL_INDEX_BATCH_SIZE; lia|].
  rewrite drive_index_from; fold g; rewrite ?H0; cbn [skipn]; try lia.
  reflexivity.
Qed.

End IndexPhase.

Section IndexTheorems.

(** C1 as stated fails: the origin chunk of radius 1 is generated first and
    owns the hex [(0, 0)] in the index; the chunk centered at [(1, 0)] also
    enumerates [(0, 0)], and its index phase replaces the entry. *)
Lemma index_first_writer_overwritten :
  let wA := generate_chunk 10 (mkHex 0 0) 1 1%R empty_World in
  let wB := generate_chunk 10 (mkHex 1 0) 1 1%R wA in
  spatialIndex wA !! (0, 0) = Some (mkHex 0 0) /\
  In (mkHex 0 0) (generateHexGrid 1 1 0) /\
  spatialIndex wB !! (0, 0) = Some (mkHex 1 0).
Proof.
  cbv zeta. split; [|split].
  - vm_compute. reflexivity.
  - vm_compute. tauto.
  - vm_compute. reflexivity.
Qed.

(** C1, amended. Publishing writes the entry of a tile hex unconditionally,
    replacing an entry that is already there.  The index phase of a chunk
    runs to completion (one call per batch of 200 tiles, then the
    continuation is null); afterwards every hex the chunk enumerates maps to
    that chunk's center, whichever chunk owned it before (last writer wins),
    and the entry of every hex the chunk does not enumerate is unchanged. *)
Theorem index_phase_last_writer_wins (w : World)
    (state : ChunkGenerationState)
    (Hstart : spatialIndexBatchIndex state = 0%nat) :
  let tiles := grid_of (st_chunk state) w in
  (forall tileKey chunkHex w0,
     spatialIndex (addSpatialIndexEntry tileKey chunkHex w0) !! tileKey
     = Some chunkHex) /\
  exists w' state',
    drive (batches SPATIAL_INDEX_BATCH_SIZE (length tiles))
          (Some StepUpdateSpatialIndex) (w, state)
    = (w', state', None) /\
    (forall t, In t tiles ->
       spatialIndex w' !! getChunkKey (tile_hex t) = Some (st_chunkHex state)) /\
    (forall key, (forall t, In t tiles -> getChunkKey (tile_hex t) <> key) ->
       spatialIndex w' !! key = spatialIndex w !! key).
Proof.
  intros tiles. split.
  - intros tileKey chunkHex w0. cbn. apply lookup_insert_eq.
  - eexists _, _. split; [now apply drive_index_phase|]. fold tiles. split.
    + intros t Ht. rewrite publish_tiles_lookup.
      destruct (existsb _ tiles) eqn:E; [reflexivity|].
      assert (existsb (fun t0 => bool_decide
                (getChunkKey (tile_hex t0) = getChunkKey (tile_hex t))) tiles
              = true) as E'; [|congruence].
      apply existsb_exists. exists t. split; [exact Ht|].
      now apply bool_decide_eq_true.
    + intros key Hkey. rewrite publish_tiles_lookup.
      destruct (existsb _ tiles) eqn:E; [|reflexivity].
      apply existsb_exists in E. destruct E as (t & Ht & Heq).
      apply bool_decide_eq_true in Heq. now apply Hkey in Ht.
Qed.

Lemma index_phase_last_writer_wins_witness :
  let w := with_objects
             {[ 0%nat := setGrid [fresh_tile (mkHex 0 0); fresh_tile (mkHex 1 0)]
                                 (new_Chunk (mkHex 1 0) 1%R) ]}
             (with_spatialIndex {[ (0, 0) := mkHex 0 0 ]} empty_World) in
  let state := createProcessingState 0%nat 1 1%R (mkHex 1 0) in
  exists w' state',
    drive (batches SPATIAL_INDEX_BATCH_SIZE (length (grid_of 0%nat w)))
          (Some StepUpdateSpatialIndex) (w, state)
    = (w', state', None) /\
    (forall t, In t (grid_of 0%nat w) ->
       spatialIndex w' !! getChunkKey (tile_hex t) = Some (mkHex 1 0)) /\
    (forall key, (forall t, In t (grid_of 0%nat w) ->
                    getChunkKey (tile_hex t) <> key) ->
       spatialIndex w' !! key = spatialIndex w !! key).
Proof.
  intros w state.
  apply (proj2 (index_phase_last_writer_wins w state eq_refl)).
Defined.

End IndexTheorems.

(* --------------------------------------------------------------------- *)
(** ** The fast spatial lookup *)
(* --------------------------------------------------------------------- *)

Section FastLookup.

(** C5 as stated fails: a chunk generated with radius 2 is looked up with
    radius 1 at its boundary hex [(2, 0)]; the distance test fails, the
    lookup returns null, and the entry is still in the index afterwards. *)
Lemma stale_entry_not_deleted :
  let w := generate_chunk 10 (mkHex 0 0) 2 1%R empty_World in
  let tileHex := mkHex 2 0 in
  spatialIndex w !! getChunkKey tileHex = Some (mkHex 0 0) /\
  hasChunk (mkHex 0 0) w = true /\
  (distance 2 0 0 0 <=? 1) = false /\
  snd (getChunkForTileFast tileHex 1 w) = None /\
  spatialIndex (fst (getChunkForTileFast tileHex 1 w)) !! getChunkKey tileHex
  = Some (mkHex 0 0).
Proof. cbv zeta. repeat split; vm_compute; reflexivity. Qed.

(** C5, amended. The fast lookup returns a chunk center only when that
    center is the indexed one, its chunk is present in the map and it is
    within distance [rings] of the tile, and then the world is unchanged.
    When the chunk is present and the distance test fails, the lookup
    returns null and leaves the world, the index included, unchanged: the
    entry is not deleted.  An entry is deleted, and null returned, exactly
    when the indexed chunk is no longer present in the map. *)
Theorem getChunkForTileFast_verifies (tileHex : HexCoord) (rings : Z)
    (w : World) :
  let tileKey := getChunkKey tileHex in
  let w' := fst (getChunkForTileFast tileHex rings w) in
  let result := snd (getChunkForTileFast tileHex rings w) in
  (forall chunkPos, result = Some chunkPos ->
     spatialIndex w !! tileKey = Some chunkPos /\
     hasChunk chunkPos w = true /\
     distance (hex_q tileHex) (hex_r tileHex)
              (hex_q chunkPos) (hex_r chunkPos) <= rings /\
     w' = w) /\
  (forall chunkPos, spatialIndex w !! tileKey = Some chunkPos ->
     hasChunk chunkPos w = true ->
     rings < distance (hex_q tileHex) (hex_r tileHex)
                      (hex_q chunkPos) (hex_r chunkPos) ->
     result = None /\ w' = w) /\
  (forall chunkPos, spatialIndex w !! tileKey = Some chunkPos ->
     hasChunk chunkPos w = false ->
     result = None /\
     spatialIndex w' = delete tileKey (spatialIndex w) /\
     chunks w' = chunks w /\ objects w' = objects w) /\
  (spatialIndex w !! tileKey = None -> result = None /\ w' = w).
Proof.
  intros tileKey w' result. subst w' result.
  unfold getChunkForTileFast, hasChunk. fold tileKey.
  destruct (spatialIndex w !! tileKey) as [pos|] eqn:Hidx;
    [destruct (getChunk pos w) as [ref|] eqn:Hchunk;
     [destruct (Z.leb_spec
        (distance (hex_q tileHex) (hex_r tileHex) (hex_q pos) (hex_r pos))
        rings) as [Hle|Hgt]|]|];
    cbn [fst snd]; split_and!; intros; simplify_eq;
    rewrite ?Hchunk in *; split_and?; try done; lia.
Qed.

End FastLookup.

Lemma getChunkForTileFast_verifies_witness :
  let w := generate_chunk 10 (mkHex 0 0) 2 1%R empty_World in
  snd (getChunkForTileFast (mkHex 2 0) 1 w) = None /\
  fst (getChunkForTileFast (mkHex 2 0) 1 w) = w.
Proof.
  intros w.
  apply (proj1 (proj2 (getChunkForTileFast_verifies (mkHex 2 0) 1 w))
           (mkHex 0 0)); vm_compute; reflexivity.
Defined.

(* --------------------------------------------------------------------- *)
(** ** [enqueue] *)
(* --------------------------------------------------------------------- *)

Section Enqueue.

Lemma with_priority_same (t : ChunkGenerationTask) :
  with_priority (priority t) t = t.
Proof. now destruct t. Qed.

Lemma fresh_chunk_ref (w : World) :
  objects w !! fresh (dom (objects w)) = None.
Proof. apply not_elem_of_dom. apply is_fresh. Qed.

(** [enqueue] by cases on the task table and the world map. *)
Lemma enqueue_cases (center : HexCoord) (rings : Z)
    (hexSize : Rdefinitions.R) (p : Z) (s : Sys) :
  enqueue center rings hexSize p s
  = match tasks (queue s) !! getTaskKey center with
    | Some existing =>
        (promise existing,
         if p >? priority existing
         then snd (task_set_priority (getTaskKey center) p s)
         else s)
    | None =>
        match getChunk center (world s) with
        | Some chunk =>
            match objects (world s) !! chunk with
            | Some c =>
                if isInitialized c then (resolved_promise chunk, s)
                else enqueue_create center rings hexSize p (Some chunk) s
            | None => enqueue_create center rings hexSize p (Some chunk) s
            end
        | None => enqueue_create center rings hexSize p None s
        end
    end.
Proof.
  unfold enqueue, mbind, M_bind, tasks_get, worldMap_getChunk,
    chunk_isInitialized.
  destruct (tasks (queue s) !! getTaskKey center) as [t|] eqn:Ht.
  - now destruct (p >? priority t).
  - destruct (getChunk center (world s)) as [chunk|]; [|reflexivity].
    destruct (objects (world s) !! chunk) as [c|]; cbn [negb].
    + destruct (isInitialized c); cbn [negb]; [reflexivity|].
      now rewrite Ht.
    + now rewrite Ht.
Qed.

(** C6. For every call [enqueue(center, rings, hexSize, p)]:
    - if a task for the center exists, its promise is returned, its priority
      becomes the maximum of the old and the new one, no other task and
      nothing in the world changes;
    - if no task exists and the chunk exists and is initialized, a promise
      already resolved with that chunk is returned and the state is
      unchanged, so no task is created;
    - if neither a task nor a chunk exists, a fresh empty placeholder chunk
      is added to the world map and then the new pending task is registered
      under the center's key, in that order; the promise returned is the
      new task's promise. *)
Theorem enqueue_contract (center : HexCoord) (rings : Z)
    (hexSize : Rdefinitions.R) (p : Z) (s : Sys) :
  let key := getTaskKey center in
  let result := fst (enqueue center rings hexSize p s) in
  let s' := snd (enqueue center rings hexSize p s) in
  (forall t, tasks (queue s) !! key = Some t ->
     result = promise t /\
     tasks (queue s') !! key
       = Some (with_priority (Z.max (priority t) p) t) /\
     (forall k, k <> key -> tasks (queue s') !! k = tasks (queue s) !! k) /\
     world s' = world s) /\
  (forall ref c, tasks (queue s) !! key = None ->
     getChunk center (world s) = Some ref ->
     objects (world s) !! ref = Some c ->
     isInitialized c = true ->
     result = resolved_promise ref /\ s' = s) /\
  (tasks (queue s) !! key = None ->
   getChunk center (world s) = None ->
   exists ref,
     objects (world s) !! ref = None /\
     calls s' = calls s ++ [CallAddChunkPlaceholder key ref; CallTasksSet key] /\
     getChunk center (world s') = Some ref /\
     objects (world s') !! ref = Some (new_Chunk center hexSize) /\
     result = task_promise (promises_created (queue s)) /\
     tasks (queue s') !! key
       = Some {| task_chunkHex := center; task_rings := rings;
                 task_hexSize := hexSize; priority := p; status := pending;
                 promise := task_promise (promises_created (queue s));
                 processingState := None; task_currentStep := None |}).
Proof.
  intros key result s'. subst result s'.
  rewrite enqueue_cases. fold key. split_and!.
  - intros t Ht. rewrite Ht.
    destruct (Z.gtb_spec p (priority t)) as [Hgt|Hle]; cbn.
    + rewrite Z.max_r by lia. split_and!; try done.
      * now rewrite lookup_alter_eq, Ht.
      * intros k Hk. now rewrite lookup_alter_ne.
    + rewrite Z.max_l by lia. rewrite with_priority_same. now split_and!.
  - intros ref c Ht Hchunk Hobj Hinit.
    rewrite Ht, Hchunk, Hobj, Hinit. now split.
  - intros Ht Hchunk. rewrite Ht, Hchunk.
    exists (fresh (dom (objects (world s)))).
    split; [apply fresh_chunk_ref|].
    unfold enqueue_create, mbind, M_bind, construct_Chunk, alloc_chunk,
      worldMap_addChunkPlaceholder, construct_Promise, tasks_set, mret, M_ret.
    cbn -[fresh]. unfold addChunkPlaceholder.
    cbn -[fresh]. unfold getChunk in Hchunk. rewrite Hchunk. cbn -[fresh].
    split_and!.
    + now rewrite <- app_assoc.
    + unfold getChunk. cbn -[fresh]. apply lookup_insert_eq.
    + apply lookup_insert_eq.
    + reflexivity.
    + apply lookup_insert_eq.
Qed.

Lemma enqueue_contract_witness :
  let s0 := mkSys empty_World (new_ChunkGenerationQueue 5%R) [] in
  let s1 := snd (enqueue (mkHex 0 0) 2 1%R 100 s0) in
  let c := markInitialized (new_Chunk (mkHex 3 (-5)) 1%R) in
  let s2 := mkSys (with_chunks {[ (3, -5) := 0%nat ]}
                     (with_objects {[ 0%nat := c ]} empty_World))
                  (new_ChunkGenerationQueue 5%R) [] in
  (exists ref,
     calls s1 = [CallAddChunkPlaceholder (0, 0) ref; CallTasksSet (0, 0)] /\
     getChunk (mkHex 0 0) (world s1) = Some ref /\
     fst (enqueue (mkHex 0 0) 2 1%R 100 s0) = task_promise 0) /\
  (fst (enqueue (mkHex 0 0) 2 1%R 250 s1) = task_promise 0 /\
   priority <$> tasks (queue (snd (enqueue (mkHex 0 0) 2 1%R 250 s1))) !! (0, 0)
   = Some 250) /\
  (fst (enqueue (mkHex 3 (-5)) 2 1%R 100 s2) = resolved_promise 0%nat /\
   snd (enqueue (mkHex 3 (-5)) 2 1%R 100 s2) = s2).
Proof.
  intros s0 s1 c s2.
  destruct (proj2 (proj2 (enqueue_contract (mkHex 0 0) 2 1%R 100 s0))
              eq_refl eq_refl)
    as (ref & _ & Hcalls & Hchunk & _ & Hres & Htask).
  fold s1 in Hcalls, Hchunk, Htask.
  destruct (proj1 (enqueue_contract (mkHex 0 0) 2 1%R 250 s1) _ Htask)
    as (Hres1 & Hprio & _).
  split_and!.
  - exists ref. split_and!; [exact Hcalls|exact Hchunk|exact Hres].
  - exact Hres1.
  - exact (f_equal (fmap priority) Hprio).
  - apply (proj1 (proj2 (enqueue_contract (mkHex 3 (-5)) 2 1%R 100 s2))
             0%nat c); reflexivity.
  - apply (proj1 (proj2 (enqueue_contract (mkHex 3 (-5)) 2 1%R 100 s2))
             0%nat c); reflexivity.
Defined.

End Enqueue.

(* --------------------------------------------------------------------- *)
(** ** World and hex coordinates *)
(* --------------------------------------------------------------------- *)

Section WorldHex.

Local Open Scope R_scope.

Lemma Math_round_spec (x : R) (k : Z) :
  IZR k - / 2 <= x < IZR k + / 2 -> Math_round x = k.
Proof.
  intros [Hlo Hhi]. unfold Math_round, Int_part.
  assert (k + 1 = up (x + / 2))%Z as <-; [|lia].
  apply tech_up; rewrite plus_IZR; lra.
Qed.

Lemma sqrt3_sq : sqrt 3 * sqrt 3 = 3.
Proof. apply sqrt_sqrt. lra. Qed.

Lemma sqrt3_bounds : 1.732 < sqrt 3 < 1.7321.
Proof.
  pose proof sqrt3_sq as Hsq.
  pose proof (sqrt_pos 3) as Hpos.
  split; nra.
Qed.

Lemma Rgtb_false (a b : R) : a <= b -> Rgtb a b = false.
Proof. intros H. unfold Rgtb. destruct (Rlt_dec b a); [lra|reflexivity]. Qed.

Lemma Rgtb_true (a b : R) : b < a -> Rgtb a b = true.
Proof. intros H. unfold Rgtb. destruct (Rlt_dec b a); [reflexivity|lra]. Qed.

End WorldHex.

Section WorldHexBinary64.







End WorldHexBinary64.


Section FloatingOrigin.

Local Open Scope R_scope.

(** When the three roundings sum to zero no component is reset to a
    different value, whichever branch is taken. *)
Lemma worldToHex_rounded (x z hexSize : R) (q r s : Z) :
  let fracQ := (sqrt 3 / 3 * x - 1 / 3 * z) / hexSize in
  let fracR := 2 / 3 * z / hexSize in
  (q + r + s = 0)%Z ->
  IZR q - / 2 <= fracQ < IZR q + / 2 ->
  IZR r - / 2 <= fracR < IZR r + / 2 ->
  IZR s - / 2 <= - fracQ - fracR < IZR s + / 2 ->
  worldToHex x z hexSize = mkHex q r.
Proof.
  intros fracQ fracR Hsum Hq Hr Hs. unfold worldToHex. fold fracQ fracR.
  rewrite (Math_round_spec fracQ q Hq), (Math_round_spec fracR r Hr),
    (Math_round_spec (- fracQ - fracR) s Hs).
  destruct (Rgtb _ _ && Rgtb _ _); [f_equal; lia|].
  destruct (Rgtb _ _); f_equal; lia.
Qed.

Lemma worldToHex_1500 :
  worldToHex 1500 0 TILE_CONFIG_hexSize = mkHex 130 0 /\
  worldToHex (-1500) 0 TILE_CONFIG_hexSize = mkHex (-130) 0 /\
  worldToHex 0 0 TILE_CONFIG_hexSize = mkHex 0 0.
Proof.
  pose proof sqrt3_bounds as Hb. unfold TILE_CONFIG_hexSize.
  split; [|split].
  - apply (worldToHex_rounded _ _ _ 130 0 (-130)); [reflexivity|..];
      replace ((sqrt 3 / 3 * 1500 - 1 / 3 * 0) / (20 / 3)) with (75 * sqrt 3)
        by field;
      replace (2 / 3 * 0 / (20 / 3)) with 0 by field; lra.
  - apply (worldToHex_rounded _ _ _ (-130) 0 130); [reflexivity|..];
      replace ((sqrt 3 / 3 * -1500 - 1 / 3 * 0) / (20 / 3))
        with (- (75 * sqrt 3)) by field;
      replace (2 / 3 * 0 / (20 / 3)) with 0 by field; lra.
  - apply (worldToHex_rounded _ _ _ 0 0 0); [reflexivity|..];
      replace ((sqrt 3 / 3 * 0 - 1 / 3 * 0) / (20 / 3)) with 0 by field;
      replace (2 / 3 * 0 / (20 / 3)) with 0 by field; lra.
Qed.

(** On binary64 numbers the conversion gives the same three hexes. *)
Lemma worldToHex_1500_binary64 :
  Binary64.same_hex
    (Binary64.worldToHex (Binary64.of_Z 1500) (Binary64.of_Z 0)
                         Binary64.TILE_CONFIG_hexSize)
    (Binary64.of_Z 130, Binary64.of_Z 0) = true /\
  Binary64.same_hex
    (Binary64.worldToHex (Binary64.of_Z (-1500)) (Binary64.of_Z 0)
                         Binary64.TILE_CONFIG_hexSize)
    (Binary64.of_Z (-130), Binary64.of_Z 0) = true /\
  Binary64.same_hex
    (Binary64.worldToHex (PrimFloat.opp (Binary64.of_Z 0)) (Binary64.of_Z 0)
                         Binary64.TILE_CONFIG_hexSize)
    (Binary64.of_Z 0, Binary64.of_Z 0) = true.
Proof. split_and!; vm_compute; reflexivity. Qed.

(** C2 fails on the code.  The avatar stands 1500 units along x from the
    initial origin, its world matrix computed, so its true hex is
    [(-130, 0)].  The rebase accumulates
    [worldToHex(1500, 0) = (130, 0)], without the sign flip the tile lookup
    applies to x, and moves the avatar to the local origin: the true hex
    computed after the rebase is [(130, 0)]. *)
Theorem rebase_changes_true_hex :
  current_true_hex avatar_at_1500 = mkHex (-130) 0 /\
  worldHexOffset (updateFloatingOrigin avatar_at_1500) = mkHex 130 0 /\
  current_true_hex (updateFloatingOrigin avatar_at_1500) = mkHex 130 0.
Proof.
  destruct worldToHex_1500 as (Hpos & Hneg & Hzero).
  assert (Rgtb (Vector3_Distance (mkVector3 1500 0 0) Vector3_Zero) 1000 = true)
    as Hfar.
  { apply Rgtb_true. unfold Vector3_Distance. cbn [vx vy vz Vector3_Zero].
    replace ((1500 - 0) * (1500 - 0) + (0 - 0) * (0 - 0) + (0 - 0) * (0 - 0))
      with (1500 * 1500) by ring.
    rewrite sqrt_square by lra. lra. }
  split; [|split].
  - unfold current_true_hex, getCurrentTileHex.
    cbn [avatar_at_1500 scene avatarMesh position vx vz].
    replace (- (1500)) with (-1500) by lra. rewrite Hneg. reflexivity.
  - unfold updateFloatingOrigin.
    cbn [avatar_at_1500 scene player avatarMesh absolutePosition
         currentFloatingOrigin floatingOriginThreshold].
    rewrite Hfar. cbn [worldHexOffset Vector3_subtract vx vy vz Vector3_Zero].
    replace (1500 - 0) with 1500 by lra. replace (0 - 0) with 0 by lra.
    rewrite Hpos. reflexivity.
  - unfold current_true_hex, updateFloatingOrigin.
    cbn [avatar_at_1500 scene player avatarMesh absolutePosition
         currentFloatingOrigin floatingOriginThreshold].
    rewrite Hfar.
    cbn [scene avatarMesh position getCurrentTileHex getWorldHexOffset
         worldHexOffset Vector3_subtract vx vy vz Vector3_Zero].
    replace (1500 - 0) with 1500 by lra. replace (0 - 0) with 0 by lra.
    replace (- (1500 - 1500)) with 0 by lra.
    replace (0 - 0) with 0 by lra.
    rewrite Hpos, Hzero. reflexivity.
Qed.

End FloatingOrigin.

(* --------------------------------------------------------------------- *)
(** ** Caching the layout in the chunks *)
(* --------------------------------------------------------------------- *)

Section LayoutCacheFacts.

Variable get_tile_at : Z -> Z -> Z.

Lemma hex_eqb_eq (a b : HexCoord) : hex_eqb a b = true <-> a = b.
Proof.
  destruct a, b. unfold hex_eqb. cbn.
  rewrite andb_true_iff, !Z.eqb_eq. split.
  - now intros [-> ->].
  - now intros [= -> ->].
Qed.

Lemma tile_with_type_same (t : ChunkTile) : tile_with_type (tileType t) t = t.
Proof. now destruct t. Qed.

Lemma set_first_tile_skip (hex : HexCoord) (ty : option TileType)
    (pre g : list ChunkTile) :
  ~ In hex (map tile_hex pre) ->
  set_first_tile hex ty (pre ++ g) = pre ++ set_first_tile hex ty g.
Proof.
  induction pre as [|t pre IH]; intros Hnot; [reflexivity|].
  cbn [app set_first_tile].
  destruct (hex_eqb (tile_hex t) hex) eqn:E.
  - apply hex_eqb_eq in E. exfalso. apply Hnot. now left.
  - rewrite IH; [reflexivity|]. intros Hin. apply Hnot. now right.
Qed.

Lemma set_first_tile_head (ty : option TileType) (t : ChunkTile)
    (g : list ChunkTile) :
  set_first_tile (tile_hex t) ty (t :: g) = tile_with_type ty t :: g.
Proof.
  cbn [set_first_tile].
  now rewrite (proj2 (hex_eqb_eq (tile_hex t) (tile_hex t)) eq_refl).
Qed.

Lemma setGrid_setGrid (g1 g2 : list ChunkTile) (c : Chunk) :
  setGrid g1 (setGrid g2 c) = setGrid g1 c.
Proof. reflexivity. Qed.

Lemma fold_cache_tile (c : Chunk) (g pre : list ChunkTile) :
  List.NoDup (map tile_hex (pre ++ g)) ->
  fold_left (cache_tile get_tile_at) (map tile_hex g) (setGrid (pre ++ g) c)
  = setGrid (pre ++ map (fun t => tile_with_type (cached_type get_tile_at t) t) g) c.
Proof.
  revert pre. induction g as [|t g IH]; intros pre Hnd; [reflexivity|].
  cbn [map fold_left].
  assert (~ In (tile_hex t) (map tile_hex pre)) as Hfresh.
  { rewrite map_app in Hnd. cbn [map] in Hnd.
    apply List.NoDup_remove_2 in Hnd. intros Hin. apply Hnd.
    apply in_or_app. now left. }
  assert (cache_tile get_tile_at (setGrid (pre ++ t :: g) c) (tile_hex t)
          = setGrid ((pre ++ [tile_with_type (cached_type get_tile_at t) t]) ++ g) c)
    as ->.
  { unfold cache_tile, cached_type.
    destruct (tileTypeFromNumber _) as [ty|].
    - unfold setTileType. cbn [grid setGrid]. rewrite setGrid_setGrid.
      rewrite set_first_tile_skip by exact Hfresh.
      now rewrite set_first_tile_head, <- app_assoc.
    - now rewrite tile_with_type_same, <- app_assoc. }
  rewrite IH.
  - now rewrite <- app_assoc.
  - rewrite <- app_assoc. cbn [app].
    rewrite !map_app in *. cbn [map] in *. exact Hnd.
Qed.

Lemma setGrid_grid (c : Chunk) : setGrid (grid c) c = c.
Proof. now destruct c. Qed.

Lemma cache_chunk_result (c : Chunk) :
  List.NoDup (map tile_hex (grid c)) ->
  cache_chunk get_tile_at c = cache_result get_tile_at c.
Proof.
  intros Hnd. unfold cache_chunk, cache_result, getGrid.
  pose proof (fold_cache_tile c (grid c) [] Hnd) as H.
  cbn [app] in H. rewrite setGrid_grid in H. now rewrite H.
Qed.

Lemma cache_result_hexes (c : Chunk) :
  map tile_hex (grid (cache_result get_tile_at c)) = map tile_hex (grid c).
Proof.
  unfold cache_result. cbn [grid setGrid setTilesGenerated].
  rewrite map_map. now apply map_ext.
Qed.

Lemma cached_type_idem (t : ChunkTile) :
  cached_type get_tile_at (tile_with_type (cached_type get_tile_at t) t)
  = cached_type get_tile_at t.
Proof.
  unfold cached_type. cbn [tile_with_type tile_hex tileType].
  now destruct (tileTypeFromNumber _).
Qed.

Lemma cache_result_idem (c : Chunk) :
  cache_result get_tile_at (cache_result get_tile_at c)
  = cache_result get_tile_at c.
Proof.
  unfold cache_result, setTilesGenerated, setGrid.
  cbn [grid positionHex positionCartesian enabled neighbors initialized].
  f_equal. rewrite map_map. apply map_ext. intros t.
  rewrite cached_type_idem. now destruct t.
Qed.

Lemma cache_result_unmarked (c : Chunk) :
  cache_result get_tile_at (setTilesGenerated false c)
  = cache_result get_tile_at c.
Proof. reflexivity. Qed.

Lemma iter_cache_chunk (n : nat) (c : Chunk) :
  List.NoDup (map tile_hex (grid c)) ->
  Nat.iter (S n) (cache_chunk get_tile_at) c = cache_result get_tile_at c.
Proof.
  intros Hnd. induction n as [|n IH].
  - cbn. now apply cache_chunk_result.
  - change (Nat.iter (S (S n)) (cache_chunk get_tile_at) c)
      with (cache_chunk get_tile_at (Nat.iter (S n) (cache_chunk get_tile_at) c)).
    rewrite IH, cache_chunk_result, cache_result_idem; [reflexivity|].
    now rewrite cache_result_hexes.
Qed.

(** The object behind a reference after a loop of method calls over a list
    of references. *)
Lemma fold_update_chunk_lookup (f : Chunk -> Chunk) (l : list ChunkRef)
    (w : World) (ref : ChunkRef) :
  objects (fold_left (fun w r => update_chunk r f w) l w) !! ref
  = Nat.iter (count_occ Nat.eq_dec l ref) f <$> objects w !! ref.
Proof.
  revert w. induction l as [|r l IH]; intros w.
  - cbn. now destruct (objects w !! ref).
  - cbn [fold_left count_occ]. rewrite IH.
    cbn [update_chunk with_objects objects].
    destruct (Nat.eq_dec r ref) as [->|Hne].
    + rewrite lookup_alter_eq. destruct (objects w !! ref) as [c|]; [|reflexivity].
      cbn [fmap option_fmap option_map]. f_equal.
      symmetry. apply Nat.iter_succ_r.
    + now rewrite lookup_alter_ne.
Qed.

End LayoutCacheFacts.

Section LayoutCacheTheorems.

(** C7 fails on the code, which breaks what its own comments state about
    the flag ([Once true, the chunk's tile composition should never
    change]; [its composition is now locked]).  (1) A generated chunk of
    radius 1 is cached while the layout module reports no tile type (the
    number -1) for its hexes: the chunk is marked generated and every tile
    kind is still null.  (2) With a layout module that reports grass
    everywhere, a placeholder chunk that is enqueued but not yet built is
    marked generated by the pass; the grid phase then installs its tiles
    with null kinds, under a set flag, and the next pass without
    force-recompute changes those kinds from null to grass. *)
Lemma generated_flag_without_kinds :
  (let w := generate_chunk 10 (mkHex 0 0) 1 1%R empty_World in
   let w' := cache_layout (fun _ _ => -1) false w in
   chunk_test getTilesGenerated w' 0%nat = true /\
   chunk_test hasAllTilesGenerated w' 0%nat = false /\
   (getTileType (mkHex 0 0) <$> objects w' !! 0%nat) = Some None) /\
  (let all_grass := fun _ _ : Z => 0 in
   let s0 := mkSys empty_World (new_ChunkGenerationQueue 5%R) [] in
   let w1 := world (snd (enqueue (mkHex 0 0) 1 1%R 100 s0)) in
   let w2 := cache_layout all_grass false w1 in
   let w3 := fst (fst (drive 10 (Some StepGenerateGrid)
                         (w2, createProcessingState 0%nat 1 1%R (mkHex 0 0)))) in
   let w4 := cache_layout all_grass false w3 in
   hasChunk (mkHex 0 0) w1 = true /\
   chunk_test getTilesGenerated w2 0%nat = true /\
   chunk_test getTilesGenerated w3 0%nat = true /\
   length (grid_of 0%nat w3) = 7%nat /\
   chunk_test hasAllTilesGenerated w3 0%nat = false /\
   (getTileType (mkHex 0 0) <$> objects w3 !! 0%nat) = Some None /\
   (getTileType (mkHex 0 0) <$> objects w4 !! 0%nat) = Some (Some grass)).
Proof.
  cbv zeta. split; repeat split; vm_compute; reflexivity.
Qed.

End LayoutCacheTheorems.

(* --------------------------------------------------------------------- *)
(** ** The constraint parser *)
(* --------------------------------------------------------------------- *)

Module ConstraintParserFacts.

Import Stdlib.Strings.String Stdlib.Strings.Ascii Stdlib.QArith.QArith.
Import ConstraintParser.
Local Open Scope string_scope.

Section ParserFacts.

Variable JSON_parse : string -> option JSONValue.

(** C9 fails on the code.  In the text [grassRatio: .] the ratio pattern
    captures the single dot, [parseFloat] of it is [NaN], and the clamp
    [Math.max(0, Math.min(1, NaN))] is [NaN]: the ratio returned is not a
    number of the interval [0, 1].  The other three fields take their
    defaults.  No brace occurs, so [JSON.parse] is not consulted. *)
Theorem parseLayoutConstraints_NaN_ratio :
  grassRatioMatch "grassRatio: ." = Some "." /\
  parseFloat "." = num_NaN /\
  parseLayoutConstraints JSON_parse "grassRatio: ."
  = {| buildingDensity := density_medium; clustering := random;
       grassRatio := num_NaN; buildingSizeHint := size_medium |}.
Proof. repeat split. Qed.

Lemma clamp_range (x : Q) :
  exists y, Math_max (num 0) (Math_min (num 1) (num x)) = num y /\
            0 <= y <= 1.
Proof.
  unfold Math_min, Math_max.
  destruct (Qle_bool 1 x) eqn:E1.
  - eexists. split; [reflexivity|]. cbn. split; discriminate.
  - destruct (Qle_bool 0 x) eqn:E0; eexists; (split; [reflexivity|]).
    + apply Qle_bool_iff in E0. split; [exact E0|].
      apply Qlt_le_weak, Qnot_le_lt. intros H%Qle_bool_iff. congruence.
    + split; [apply Qle_refl|discriminate].
Qed.

(** Apart from [NaN], coming from [parseFloat] in the fallback, the ratio
    returned is a number of [0, 1]. *)
Lemma parseLayoutConstraints_ratio (output : string) :
  match grassRatio (parseLayoutConstraints JSON_parse output) with
  | num y => 0 <= y <= 1
  | num_NaN =>
      parse_json JSON_parse output = None /\
      exists text, grassRatioMatch output = Some text /\
                   parseFloat text = num_NaN
  end.
Proof.
  unfold parseLayoutConstraints.
  destruct (parse_json JSON_parse output) as [lc|] eqn:Hjson.
  - unfold parse_json in Hjson.
    destruct (jsonMatch output) as [text|]; [|discriminate].
    destruct (JSON_parse text) as [[| | | | |entries]|]; try discriminate.
    destruct (_ ≫= density_of_string) as [d|]; [|discriminate].
    destruct (_ ≫= clustering_of_string) as [c|]; [|discriminate].
    destruct (number_entry _) as [g|]; [|discriminate].
    destruct (_ ≫= size_of_string) as [sz|]; [|discriminate].
    destruct (Qle_bool 0 g) eqn:E0; [|discriminate].
    destruct (Qle_bool g 1) eqn:E1; [|discriminate].
    injection Hjson as <-. cbn [grassRatio].
    split; now apply Qle_bool_iff.
  - unfold parse_regex. cbn [grassRatio].
    destruct (grassRatioMatch output) as [text|] eqn:Hm.
    + destruct (parseFloat text) as [|x] eqn:Hf.
      * cbn. split; [reflexivity|]. now exists text.
      * destruct (clamp_range x) as (y & -> & Hy). exact Hy.
    + destruct (clamp_range (3 # 10)) as (y & -> & Hy). exact Hy.
Qed.

(** A text in which nothing is found yields the defaults. *)
Lemma parseLayoutConstraints_defaults (output : string) :
  jsonMatch output = None ->
  densityMatch output = None -> clusteringMatch output = None ->
  grassRatioMatch output = None -> sizeMatch output = None ->
  parseLayoutConstraints JSON_parse output = getDefaultConstraints.
Proof.
  intros Hj Hd Hc Hg Hs.
  unfold parseLayoutConstraints, parse_json, parse_regex.
  now rewrite Hj, Hd, Hc, Hg, Hs.
Qed.

End ParserFacts.

End ConstraintParserFacts.

(* ===================================================================== *)
(** * Further properties of the hex utilities *)
(* ===================================================================== *)

Section HexAlgebra.

Lemma distance_cube (q1 r1 q2 r2 : Z) :
  distance q1 r1 q2 r2 = cubeDistance (axialToCube q1 r1) (axialToCube q2 r2).
Proof.
  pose proof (distance_double q1 r1 q2 r2) as Hd.
  unfold cubeDistance, axialToCube. cbn [cube_q cube_r cube_s]. lia.
Qed.

(** X1. The axial distance is the cube distance of the corresponding cube
    coordinates, so the two boundary tests agree: [isInHexagonPattern]
    accepts a hex for a layer count exactly when [inHexBoundary] accepts it
    for that radius. *)
Theorem boundary_tests_agree (maxLayer q r centerQ centerR : Z) :
  distance q r centerQ centerR
  = cubeDistance (axialToCube q r) (axialToCube centerQ centerR) /\
  HEX_UTILS.isInHexagonPattern maxLayer q r centerQ centerR
  = HEX_UTILS.inHexBoundary q r centerQ centerR maxLayer.
Proof.
  split; [apply distance_cube|].
  unfold HEX_UTILS.isInHexagonPattern, HEX_UTILS.inHexBoundary.
  now rewrite distance_cube.
Qed.

(** X2. [distance] is a metric on axial hexes: it is never negative, it is
    zero exactly between a hex and itself, it is symmetric, it satisfies the
    triangle inequality, and it does not change when both hexes are shifted
    by the same offset. *)
Theorem distance_metric (q1 r1 q2 r2 q3 r3 dq dr : Z) :
  0 <= distance q1 r1 q2 r2 /\
  (distance q1 r1 q2 r2 = 0 <-> q1 = q2 /\ r1 = r2) /\
  distance q1 r1 q2 r2 = distance q2 r2 q1 r1 /\
  distance q1 r1 q3 r3 <= distance q1 r1 q2 r2 + distance q2 r2 q3 r3 /\
  distance (q1 + dq) (r1 + dr) (q2 + dq) (r2 + dr) = distance q1 r1 q2 r2.
Proof.
  split_and!.
  - pose proof (distance_double q1 r1 q2 r2). lia.
  - pose proof (distance_double q1 r1 q2 r2). lia.
  - pose proof (distance_double q1 r1 q2 r2).
    pose proof (distance_double q2 r2 q1 r1). lia.
  - pose proof (distance_double q1 r1 q2 r2).
    pose proof (distance_double q1 r1 q3 r3).
    pose proof (distance_double q2 r2 q3 r3). lia.
  - pose proof (distance_double q1 r1 q2 r2).
    pose proof (distance_double (q1 + dq) (r1 + dr) (q2 + dq) (r2 + dr)).
    replace (q1 + dq - (q2 + dq)) with (q1 - q2) in * by lia.
    replace (r1 + dr - (r2 + dr)) with (r1 - r2) in * by lia.
    replace (q1 + dq + (r1 + dr) - (q2 + dq) - (r2 + dr))
      with (q1 + r1 - q2 - r2) in * by lia.
    lia.
Qed.

Lemma in_getNeighbors (q r : Z) (n : HexCoord) :
  In n (HEX_UTILS.getNeighbors q r) <-> distance q r (hex_q n) (hex_r n) = 1.
Proof.
  pose proof (distance_double q r (hex_q n) (hex_r n)) as Hd.
  destruct n as [nq nr]. cbn [hex_q hex_r] in *.
  unfold HEX_UTILS.getNeighbors. cbn [In]. split.
  - intros H. repeat (destruct H as [H|H]; [injection H; lia|]).
    contradiction.
  - intros H1.
    assert ((nq = q + 1 /\ nr = r) \/ (nq = q - 1 /\ nr = r) \/
            (nq = q /\ nr = r + 1) \/ (nq = q /\ nr = r - 1) \/
            (nq = q + 1 /\ nr = r - 1) \/ (nq = q - 1 /\ nr = r + 1))
      as Hcases by lia.
    destruct Hcases as [[-> ->]|[[-> ->]|[[-> ->]|[[-> ->]|[[-> ->]|[-> ->]]]]]];
      tauto.
Qed.

(** X3. [getNeighbors] returns six pairwise distinct hexes, and they are
    exactly the hexes at distance 1 from the given hex. *)
Theorem getNeighbors_distance_one (q r : Z) (n : HexCoord) :
  length (HEX_UTILS.getNeighbors q r) = 6%nat /\
  List.NoDup (HEX_UTILS.getNeighbors q r) /\
  (In n (HEX_UTILS.getNeighbors q r) <->
   distance q r (hex_q n) (hex_r n) = 1).
Proof.
  split; [reflexivity|]. split.
  - unfold HEX_UTILS.getNeighbors.
    repeat (constructor; [cbn; intros H; repeat (destruct H as [H|H];
              [injection H; lia|]); exact H|]).
    constructor.
  - apply in_getNeighbors.
Qed.

Lemma parity_half (col : Z) : 2 * ((col + Z.land col 1) / 2) = col + Z.land col 1.
Proof.
  change 1 with (Z.ones 1) at 1 2. rewrite Z.land_ones by lia.
  change (2 ^ 1) with 2.
  pose proof (Z.div_mod col 2 ltac:(lia)) as Hc.
  pose proof (Z.mod_pos_bound col 2 ltac:(lia)) as Hb.
  pose proof (Z.div_mod (col + col mod 2) 2 ltac:(lia)) as Hs.
  pose proof (Z.mod_pos_bound (col + col mod 2) 2 ltac:(lia)) as Hsb.
  lia.
Qed.

(** X4. Offset and axial coordinates convert back and forth without loss:
    [axialToOffset] undoes [offsetToAxial] and [offsetToAxial] undoes
    [axialToOffset]; the halved quantity [col + (col & 1)] is even, so the
    conversion stays on integers. *)
Theorem offset_axial_round_trip (col row q r : Z) :
  (let a := HEX_UTILS.offsetToAxial col row in
   HEX_UTILS.axialToOffset (hex_q a) (hex_r a) = (col, row)) /\
  (let o := HEX_UTILS.axialToOffset q r in
   HEX_UTILS.offsetToAxial (fst o) (snd o) = mkHex q r) /\
  2 * ((col + Z.land col 1) / 2) = col + Z.land col 1.
Proof.
  unfold HEX_UTILS.offsetToAxial, HEX_UTILS.axialToOffset.
  cbn [hex_q hex_r fst snd]. split_and!.
  - f_equal. lia.
  - f_equal. lia.
  - apply parity_half.
Qed.

(** X5. Cube arithmetic keeps the constraint [q + r + s = 0]: the sum of two
    valid cubes, a multiple of a valid cube and a neighbour of a valid cube
    are valid, [axialToCube] is always valid, and a neighbour in any
    direction is at cube distance 1. *)
Theorem cube_operations_valid (a b : CubeCoord) (factor q r : Z)
    (direction : nat)
    (Ha : validateCubeCoord a = true) (Hb : validateCubeCoord b = true) :
  validateCubeCoord (cube_add a b) = true /\
  validateCubeCoord (cube_scale a factor) = true /\
  validateCubeCoord (cubeNeighbor a direction) = true /\
  validateCubeCoord (axialToCube q r) = true /\
  cubeDistance (cubeNeighbor a direction) a = 1.
Proof.
  unfold validateCubeCoord in *. apply Z.eqb_eq in Ha, Hb.
  assert (Hdir : (direction mod 6 < 6)%nat) by (apply Nat.mod_upper_bound; lia).
  unfold cubeNeighbor, cubeDistance.
  destruct (direction mod 6)%nat as [|[|[|[|[|[|k]]]]]]; [..|lia];
    (split_and!; [apply Z.eqb_eq; cbn; lia|apply Z.eqb_eq; cbn; nia|
                  apply Z.eqb_eq; cbn; lia|apply Z.eqb_eq; cbn; lia|cbn; lia]).
Qed.

Lemma cube_operations_valid_witness :
  validateCubeCoord (cube_add (mkCube 1 2 (-3)) (mkCube 0 (-4) 4)) = true /\
  validateCubeCoord (cube_scale (mkCube 1 2 (-3)) 7) = true /\
  validateCubeCoord (cubeNeighbor (mkCube 1 2 (-3)) 11) = true /\
  validateCubeCoord (axialToCube 5 (-9)) = true /\
  cubeDistance (cubeNeighbor (mkCube 1 2 (-3)) 11) (mkCube 1 2 (-3)) = 1.
Proof.
  apply (cube_operations_valid (mkCube 1 2 (-3)) (mkCube 0 (-4) 4) 7 5 (-9) 11);
    reflexivity.
Defined.

End HexAlgebra.

Section RingExact.

Lemma in_cubeRing_complete (x c : CubeCoord) (R : Z) :
  0 <= R ->
  cubeDistance x c = R ->
  cube_q x + cube_r x + cube_s x = cube_q c + cube_r c + cube_s c ->
  In x (cubeRing c R).
Proof.
  intros HR Hd Hsum. unfold cubeDistance in Hd.
  destruct (Z.eq_dec R 0) as [->|Hne].
  - rewrite cubeRing_zero. left. apply cube_ext; lia.
  - rewrite cubeRing_pos by lia. apply in_ring_sides; [lia|].
    destruct x as [xq xr xs], c as [cq cr cs]. cbn [cube_q cube_r cube_s] in *.
    assert (exists dq dr ds, xq = cq + dq /\ xr = cr + dr /\ xs = cs + ds)
      as (dq & dr & ds & -> & -> & ->)
      by (exists (xq - cq), (xr - cr), (xs - cs); lia).
    assert (dq + dr + ds = 0) as H0 by lia.
    clear Hsum.
    replace (cq + dq - cq) with dq in Hd by lia.
    replace (cr + dr - cr) with dr in Hd by lia.
    replace (cs + ds - cs) with ds in Hd by lia.
    assert (- R <= dq <= R /\ - R <= dr <= R /\ - R <= ds <= R) as Hb by lia.
    assert (dq = R \/ dq = - R \/ dr = R \/ dr = - R \/ ds = R \/ ds = - R)
      as Hm by lia.
    clear Hd.
    assert ((dr = R /\ - R < ds <= 0) \/ (ds = - R /\ 0 <= dq < R) \/
            (dq = R /\ - R < dr <= 0) \/ (dr = - R /\ 0 <= ds < R) \/
            (ds = R /\ - R < dq <= 0) \/ (dq = - R /\ 0 <= dr < R))
      as Hcases by lia.
    cbn zeta.
    destruct Hcases as [[H1 H2]|[[H1 H2]|[[H1 H2]|[[H1 H2]|[[H1 H2]|[H1 H2]]]]]].
    + exists (- ds). split; [lia|]. left. f_equal; lia.
    + exists dq. split; [lia|]. right; left. f_equal; lia.
    + exists (- dr). split; [lia|]. do 2 right; left. f_equal; lia.
    + exists ds. split; [lia|]. do 3 right; left. f_equal; lia.
    + exists (- dq). split; [lia|]. do 4 right; left. f_equal; lia.
    + exists dr. split; [lia|]. do 5 right. f_equal; lia.
Qed.

Lemma in_cubeRing_sound (x c : CubeCoord) (R : Z) :
  0 <= R -> In x (cubeRing c R) ->
  cubeDistance x c = R /\
  cube_q x + cube_r x + cube_s x = cube_q c + cube_r c + cube_s c.
Proof.
  intros HR Hx.
  destruct (Z.eq_dec R 0) as [->|Hne].
  - rewrite cubeRing_zero in Hx. destruct Hx as [<-|[]].
    unfold cubeDistance. lia.
  - rewrite cubeRing_pos in Hx by lia.
    apply in_ring_sides in Hx; [|lia].
    destruct Hx as (j & Hj & H). cbn zeta in H. unfold cubeDistance.
    destruct H as [->|[->|[->|[->|[->| ->]]]]]; cbn [cube_q cube_r cube_s]; lia.
Qed.

(** X6. For a radius [R >= 0], [cubeRing] enumerates, without repetition,
    exactly the cubes at cube distance [R] from the center that have the
    center's coordinate sum: [6 R] of them for [R > 0], the center alone for
    [R = 0]. *)
Theorem cubeRing_exact (c x : CubeCoord) (R : Z) (HR : 0 <= R) :
  (In x (cubeRing c R) <->
   cubeDistance x c = R /\
   cube_q x + cube_r x + cube_s x = cube_q c + cube_r c + cube_s c) /\
  List.NoDup (cubeRing c R) /\
  Z.of_nat (length (cubeRing c R)) = if R =? 0 then 1 else 6 * R.
Proof.
  split_and!.
  - split.
    + now apply in_cubeRing_sound.
    + intros [Hd Hs]. now apply in_cubeRing_complete.
  - apply NoDup_ListNoDup. now apply NoDup_cubeRing.
  - now apply length_cubeRing.
Qed.

Lemma cubeRing_exact_witness :
  (In (mkCube 2 (-2) 0) (cubeRing (mkCube 0 0 0) 2) <->
   cubeDistance (mkCube 2 (-2) 0) (mkCube 0 0 0) = 2 /\ 2 + -2 + 0 = 0 + 0 + 0) /\
  List.NoDup (cubeRing (mkCube 0 0 0) 2) /\
  Z.of_nat (length (cubeRing (mkCube 0 0 0) 2)) = 12.
Proof.
  apply (cubeRing_exact (mkCube 0 0 0) (mkCube 2 (-2) 0) 2). lia.
Defined.

(** X7. For a radius [R >= 0], [generateHexGrid] returns, without
    repetition, exactly the hexes at distance at most [R] from the center:
    a hex is in the grid if and only if its distance to the center is at
    most [R]. *)
Theorem generateHexGrid_exact (R q r : Z) (h : HexCoord) (HR : 0 <= R) :
  (In h (generateHexGrid R q r) <-> distance q r (hex_q h) (hex_r h) <= R) /\
  List.NoDup (generateHexGrid R q r).
Proof.
  split; [split|].
  - now apply generateHexGrid_within.
  - intros Hd. rewrite generateHexGrid_spec by exact HR.
    apply in_map_iff. exists (axialToCube (hex_q h) (hex_r h)).
    split; [now destruct h|].
    unfold rings_upto. apply in_flat_map.
    pose proof (distance_double q r (hex_q h) (hex_r h)) as Hdd.
    set (k := distance q r (hex_q h) (hex_r h)) in *.
    assert (0 <= k) as Hk by lia.
    exists k. split.
    + apply in_map_iff. exists (Z.to_nat k). split; [lia|].
      apply in_seq. lia.
    + apply in_cubeRing_complete; [exact Hk| |cbn; lia].
      subst k. rewrite distance_cube. unfold cubeDistance, axialToCube.
      cbn [cube_q cube_r cube_s]. lia.
  - apply NoDup_ListNoDup. now apply NoDup_generateHexGrid.
Qed.

Lemma generateHexGrid_exact_witness :
  (In (mkHex 3 1) (generateHexGrid 2 2 2) <-> distance 2 2 3 1 <= 2) /\
  List.NoDup (generateHexGrid 2 2 2).
Proof.
  apply (generateHexGrid_exact 2 2 2 (mkHex 3 1)). lia.
Defined.

End RingExact.

(* ===================================================================== *)
(** * The whole task pipeline *)
(* ===================================================================== *)

Section Pipeline.

Lemma drive_None (n : nat) (ws : World * ChunkGenerationState) :
  drive n None ws = (ws, None).
Proof. now destruct n. Qed.

Lemma drive_add (n m : nat) (step : option ProcessingStep)
    (ws : World * ChunkGenerationState) :
  drive (n + m) step ws
  = let '(ws', next) := drive n step ws in drive m next ws'.
Proof.
  revert step ws. induction n as [|n IH]; intros step ws; [reflexivity|].
  destruct step as [s|]; cbn [Nat.add].
  - rewrite !drive_S. destruct (run_step s ws) as [ws' next]. apply IH.
  - now rewrite !drive_None.
Qed.

Lemma update_chunk_update_chunk (ref : ChunkRef) (f g : Chunk -> Chunk)
    (w : World) :
  update_chunk ref g (update_chunk ref f w) = update_chunk ref (g ∘ f) w.
Proof.
  unfold update_chunk, with_objects. cbn [objects chunks spatialIndex].
  f_equal. apply map_eq. intros i. destruct (decide (i = ref)) as [->|Hne].
  - rewrite !lookup_alter_eq. now destruct (objects w !! ref).
  - now rewrite !lookup_alter_ne.
Qed.

Lemma update_chunk_at (ref : ChunkRef) (f : Chunk -> Chunk) (w : World)
    (c : Chunk) :
  objects w !! ref = Some c ->
  update_chunk ref f w = with_objects (<[ref := f c]> (objects w)) w.
Proof.
  intros Hc. unfold update_chunk. f_equal.
  apply map_eq. intros i. destruct (decide (i = ref)) as [->|Hne].
  - now rewrite lookup_alter_eq, lookup_insert_eq, Hc.
  - now rewrite lookup_alter_ne, lookup_insert_ne.
Qed.

Lemma grid_of_at (ref : ChunkRef) (w : World) (c : Chunk) :
  objects w !! ref = Some c -> grid_of ref w = grid c.
Proof. intros Hc. unfold grid_of. now rewrite Hc. Qed.

(** A task run from its first step: the final world and state. *)
Lemma drive_pipeline (rings : Z) (center : HexCoord) (w : World)
    (ref : ChunkRef) (c : Chunk) (hexSize : Rdefinitions.R) (extra : nat) :
  0 <= rings ->
  objects w !! ref = Some c ->
  positionHex c = center ->
  let state := createProcessingState ref rings hexSize center in
  let g := generateHexGrid rings (hex_q center) (hex_r center) in
  let c' := initialized_chunk rings c in
  drive (pipeline_calls rings center + extra) (Some StepGenerateGrid) (w, state)
  = (publish_tiles center (map fresh_tile g)
       (with_objects (<[ref := c']> (objects w)) w),
     index_done_state
       (with_currentStep LabelSpatialIndex
          (grid_done_state state g (map fresh_tile g)))
       (length g),
     None).
Proof.
  intros Hrings Hc Hpos state g c'. unfold pipeline_calls. fold g.
  destruct center as [q r]. cbn [hex_q hex_r] in *.
  rewrite <- !Nat.add_assoc, drive_add.
  pose proof (drive_grid_all_validated rings q r w ref hexSize Hrings) as Hgrid.
  cbn zeta in Hgrid. fold g state in Hgrid. rewrite Hgrid.
  cbn [Nat.add]. rewrite drive_S. cbn [run_step].
  unfold stepComputeNeighbors. rewrite update_chunk_update_chunk.
  rewrite (update_chunk_at ref _ w c Hc).
  match goal with
  | |- context [<[ref := ?v]> (objects w)] => replace v with c'
  end.
  2:{ subst c'. unfold initialized_chunk, compose, calculateChunkNeighborsPublic.
      cbn [setGrid positionHex]. now rewrite Hpos. }
  set (w1 := with_objects _ w).
  set (st1 := with_currentStep LabelSpatialIndex _).
  assert (Hobj : objects w1 !! ref = Some c')
    by (subst w1; cbn [with_objects objects]; apply lookup_insert_eq).
  assert (Hg : grid_of (st_chunk st1) w1 = map fresh_tile g).
  { subst st1. cbn [st_chunk with_currentStep grid_done_state state
                    createProcessingState].
    rewrite (grid_of_at ref w1 c' Hobj). subst c'.
    unfold initialized_chunk. cbn [grid markInitialized setNeighbors setGrid].
    now rewrite Hpos. }
  rewrite drive_add.
  pose proof (drive_index_phase w1 st1 eq_refl) as Hidx. cbn zeta in Hidx.
  rewrite Hg, length_map in Hidx. rewrite Hidx. rewrite drive_None.
  reflexivity.
Qed.

End Pipeline.

Section PipelineTheorems.

Lemma initializeAsync_fresh (rings : Z) (c : Chunk) :
  0 <= rings -> initialized c = false ->
  initializeAsync rings c = initialized_chunk rings c.
Proof.
  intros Hrings Hinit. unfold initializeAsync, initialized_chunk.
  rewrite Hinit, fold_validate_hex. cbn [app].
  now rewrite filter_all_within.
Qed.

Lemma publish_tiles_fresh_lookup (center : HexCoord) (g : list HexCoord)
    (w : World) (key : Key) :
  (In key (map getChunkKey g) ->
   spatialIndex (publish_tiles center (map fresh_tile g) w) !! key = Some center)
  /\
  (~ In key (map getChunkKey g) ->
   spatialIndex (publish_tiles center (map fresh_tile g) w) !! key
   = spatialIndex w !! key).
Proof.
  rewrite publish_tiles_lookup.
  destruct (existsb _ (map fresh_tile g)) eqn:E.
  - split; [reflexivity|]. intros Hn. exfalso. apply Hn.
    apply existsb_exists in E. destruct E as (t & Ht & Hk).
    apply in_map_iff in Ht. destruct Ht as (h & <- & Hh).
    apply bool_decide_eq_true in Hk. cbn in Hk.
    apply in_map_iff. now exists h.
  - split; [|reflexivity]. intros Hin. exfalso.
    apply in_map_iff in Hin. destruct Hin as (h & <- & Hh).
    assert (existsb (fun t => bool_decide (getChunkKey (tile_hex t) = getChunkKey h))
                    (map fresh_tile g) = true) as E'; [|congruence].
    apply existsb_exists. exists (fresh_tile h). split.
    + now apply in_map.
    + now apply bool_decide_eq_true.
Qed.

(** X9. A generation task on a chunk object of the store runs to
    completion for every radius [rings >= 0]: after one call per grid
    batch, the neighbours step and one call per index batch (and whatever
    the number of further calls) the continuation is null and the state is
    labelled complete; the chunk is then initialized, holds one fresh tile
    per hex of the grid and, as its neighbours, the six pairwise different
    centers [calculateChunkNeighbors] gives for its center, each at the
    packing distance ([2 rings + 1], or [1] when [rings = 0]); every hex
    of the grid is indexed under the chunk's center, and the chunks of the
    map are unchanged. *)
Theorem task_pipeline_completes (rings : Z) (center : HexCoord) (w : World)
    (ref : ChunkRef) (c : Chunk) (hexSize : Rdefinitions.R) (calls : nat)
    (Hrings : 0 <= rings)
    (Hchunk : objects w !! ref = Some c)
    (Hcenter : positionHex c = center)
    (Hcalls : (pipeline_calls rings center <= calls)%nat) :
  let g := generateHexGrid rings (hex_q center) (hex_r center) in
  exists w' state' c',
    drive calls (Some StepGenerateGrid)
          (w, createProcessingState ref rings hexSize center)
    = (w', state', None) /\
    currentStep state' = LabelComplete /\
    objects w' !! ref = Some c' /\
    isInitialized c' = true /\
    grid c' = map fresh_tile g /\
    neighbors c' = calculateChunkNeighbors center rings /\
    length (neighbors c') = 6%nat /\
    List.NoDup (neighbors c') /\
    (forall n, In n (neighbors c') ->
       distance (hex_q center) (hex_r center) (hex_q n) (hex_r n)
       = if rings =? 0 then 1 else 2 * rings + 1) /\
    chunks w' = chunks w /\
    (forall h, In h g -> spatialIndex w' !! getChunkKey h = Some center).
Proof.
  intros g.
  assert (Hneighbors : neighbors (initialized_chunk rings c)
                       = calculateChunkNeighbors center rings).
  { unfold initialized_chunk. cbn [neighbors markInitialized setNeighbors setGrid].
    now rewrite Hcenter. }
  replace calls with (pipeline_calls rings center
                      + (calls - pipeline_calls rings center))%nat by lia.
  pose proof (drive_pipeline rings center w ref c hexSize
                (calls - pipeline_calls rings center) Hrings Hchunk Hcenter)
    as Hdrive.
  cbn zeta in Hdrive. fold g in Hdrive.
  eexists _, _, (initialized_chunk rings c). split; [exact Hdrive|].
  split_and!.
  - reflexivity.
  - rewrite (proj1 (publish_tiles_objects _ _ _)). cbn [with_objects objects].
    apply lookup_insert_eq.
  - reflexivity.
  - unfold initialized_chunk. cbn [grid markInitialized setNeighbors setGrid].
    now rewrite Hcenter.
  - exact Hneighbors.
  - reflexivity.
  - rewrite Hneighbors. now apply calculateChunkNeighbors_NoDup.
  - intros n. rewrite Hneighbors. now apply calculateChunkNeighbors_distance.
  - now rewrite (proj2 (publish_tiles_objects _ _ _)).
  - intros h Hh. apply publish_tiles_fresh_lookup. now apply in_map.
Qed.

Lemma task_pipeline_completes_witness :
  let w := with_objects {[ 0%nat := new_Chunk (mkHex 0 0) 1%R ]} empty_World in
  exists w' state' c',
    drive 3 (Some StepGenerateGrid)
          (w, createProcessingState 0%nat 1 1%R (mkHex 0 0))
    = (w', state', None) /\
    currentStep state' = LabelComplete /\
    objects w' !! 0%nat = Some c' /\
    isInitialized c' = true /\
    grid c' = map fresh_tile (generateHexGrid 1 0 0) /\
    neighbors c' = calculateChunkNeighbors (mkHex 0 0) 1 /\
    length (neighbors c') = 6%nat /\
    List.NoDup (neighbors c') /\
    (forall n, In n (neighbors c') -> distance 0 0 (hex_q n) (hex_r n) = 3) /\
    chunks w' = chunks w /\
    (forall h, In h (generateHexGrid 1 0 0) ->
       spatialIndex w' !! getChunkKey h = Some (mkHex 0 0)).
Proof.
  intros w.
  apply (task_pipeline_completes 1 (mkHex 0 0) w 0%nat
           (new_Chunk (mkHex 0 0) 1%R) 1%R 3).
  - lia.
  - reflexivity.
  - reflexivity.
  - vm_compute. lia.
Defined.

(** The world a chunk generated from scratch leaves behind. *)
Lemma generate_chunk_result (calls : nat) (center : HexCoord) (rings : Z)
    (hexSize : Rdefinitions.R) (w : World) :
  0 <= rings ->
  getChunk center w = None ->
  (pipeline_calls rings center <= calls)%nat ->
  let ref := fresh (dom (objects w)) in
  let g := generateHexGrid rings (hex_q center) (hex_r center) in
  generate_chunk calls center rings hexSize w
  = publish_tiles center (map fresh_tile g)
      {| objects := <[ref := initialized_chunk rings (new_Chunk center hexSize)]>
                      (objects w);
         chunks := <[getChunkKey center := ref]> (chunks w);
         spatialIndex := spatialIndex w |}.
Proof.
  intros Hrings Hnone Hcalls ref g.
  unfold generate_chunk, alloc_chunk. fold ref.
  unfold addChunkPlaceholder. cbn [with_objects chunks].
  unfold getChunk in Hnone. rewrite Hnone.
  set (w2 := with_chunks _ _).
  replace calls with (pipeline_calls rings center
                      + (calls - pipeline_calls rings center))%nat by lia.
  rewrite (drive_pipeline rings center w2 ref (new_Chunk center hexSize) hexSize);
    [|exact Hrings|subst w2; cbn; apply lookup_insert_eq|reflexivity].
  cbn [fst]. fold g. f_equal. subst w2.
  unfold with_objects, with_chunks. cbn [objects chunks spatialIndex].
  f_equal. apply insert_insert_eq.
Qed.

(** X10. The index answers for a freshly generated chunk: when no chunk
    exists yet at a center and one is generated there with radius
    [rings >= 0] (the placeholder, then the task run to completion), the
    fast lookup with the same radius returns that center for every hex at
    distance at most [rings] from it, and leaves the world unchanged. *)
Theorem fast_lookup_after_generation (calls : nat) (center tileHex : HexCoord)
    (rings : Z) (hexSize : Rdefinitions.R) (w : World)
    (Hrings : 0 <= rings)
    (Hnone : getChunk center w = None)
    (Hcalls : (pipeline_calls rings center <= calls)%nat)
    (Hnear : distance (hex_q center) (hex_r center)
                      (hex_q tileHex) (hex_r tileHex) <= rings) :
  let w' := generate_chunk calls center rings hexSize w in
  getChunkForTileFast tileHex rings w' = (w', Some center).
Proof.
  intros w'. subst w'.
  rewrite (generate_chunk_result calls center rings hexSize w Hrings Hnone Hcalls).
  cbn zeta. set (g := generateHexGrid _ _ _).
  set (w1 := publish_tiles _ _ _).
  assert (Hin : In tileHex g).
  { subst g. rewrite generateHexGrid_spec by exact Hrings.
    apply in_map_iff. exists (axialToCube (hex_q tileHex) (hex_r tileHex)).
    split; [now destruct tileHex|].
    unfold rings_upto. apply in_flat_map.
    pose proof (distance_double (hex_q center) (hex_r center)
                  (hex_q tileHex) (hex_r tileHex)) as Hdd.
    set (k := distance _ _ _ _) in *.
    exists k. split.
    - apply in_map_iff. exists (Z.to_nat k). split; [lia|]. apply in_seq. lia.
    - apply in_cubeRing_complete; [lia| |cbn; lia].
      subst k. rewrite distance_cube. unfold cubeDistance, axialToCube.
      cbn [cube_q cube_r cube_s]. lia. }
  unfold getChunkForTileFast.
  assert (Hidx : spatialIndex w1 !! getChunkKey tileHex = Some center).
  { subst w1. apply publish_tiles_fresh_lookup. now apply in_map. }
  rewrite Hidx.
  assert (Hch : getChunk center w1 = Some (fresh (dom (objects w)))).
  { unfold getChunk. subst w1.
    rewrite (proj2 (publish_tiles_objects _ _ _)). cbn [chunks].
    apply lookup_insert_eq. }
  rewrite Hch.
  pose proof (distance_double (hex_q center) (hex_r center)
                (hex_q tileHex) (hex_r tileHex)) as H1.
  pose proof (distance_double (hex_q tileHex) (hex_r tileHex)
                (hex_q center) (hex_r center)) as H2.
  destruct (Z.leb_spec (distance (hex_q tileHex) (hex_r tileHex)
                                 (hex_q center) (hex_r center)) rings);
    [reflexivity|lia].
Qed.

Lemma fast_lookup_after_generation_witness :
  let w' := generate_chunk 5 (mkHex 2 (-1)) 1 1%R empty_World in
  getChunkForTileFast (mkHex 3 (-2)) 1 w' = (w', Some (mkHex 2 (-1))).
Proof.
  apply (fast_lookup_after_generation 5 (mkHex 2 (-1)) (mkHex 3 (-2)) 1 1%R
           empty_World).
  - lia.
  - reflexivity.
  - vm_compute. lia.
  - vm_compute. discriminate.
Defined.

(** X11. The two ways of building a chunk agree: for a radius
    [rings >= 0] and a center at which no chunk exists, [createChunk]
    leaves the same world behind (chunk object, map entry and index) as
    the queue's placeholder followed by the task run to completion. *)
Theorem createChunk_agrees_with_queue (calls : nat) (center : HexCoord)
    (rings : Z) (hexSize : Rdefinitions.R) (w : World)
    (Hrings : 0 <= rings)
    (Hnone : getChunk center w = None)
    (Hcalls : (pipeline_calls rings center <= calls)%nat) :
  snd (createChunk center rings hexSize w)
  = generate_chunk calls center rings hexSize w /\
  getChunk center (snd (createChunk center rings hexSize w))
  = Some (fst (createChunk center rings hexSize w)).
Proof.
  rewrite (generate_chunk_result calls center rings hexSize w Hrings Hnone Hcalls).
  cbn zeta. unfold createChunk, alloc_chunk.
  unfold getChunk in Hnone. rewrite Hnone.
  set (ref := fresh (dom (objects w))).
  set (w2 := with_chunks _ _).
  assert (Hobj : objects w2 !! ref = Some (new_Chunk center hexSize))
    by (subst w2; cbn; apply lookup_insert_eq).
  rewrite (update_chunk_at ref _ w2 _ Hobj).
  rewrite initializeAsync_fresh by (exact Hrings || reflexivity).
  cbn [fst snd]. unfold updateSpatialIndexIncremental.
  set (w3 := with_objects _ w2).
  assert (Hobj3 : objects w3 !! ref
                  = Some (initialized_chunk rings (new_Chunk center hexSize)))
    by (subst w3; cbn; apply lookup_insert_eq).
  rewrite (grid_of_at ref w3 _ Hobj3).
  assert (Hw3 : w3 = {| objects := <[ref := initialized_chunk rings
                                              (new_Chunk center hexSize)]>
                                     (objects w);
                        chunks := <[getChunkKey center := ref]> (chunks w);
                        spatialIndex := spatialIndex w |}).
  { subst w3 w2. unfold with_objects, with_chunks.
    cbn [objects chunks spatialIndex]. f_equal. apply insert_insert_eq. }
  rewrite Hw3. split; [reflexivity|].
  unfold getChunk. rewrite (proj2 (publish_tiles_objects _ _ _)).
  cbn [chunks]. apply lookup_insert_eq.
Qed.

Lemma createChunk_agrees_with_queue_witness :
  snd (createChunk (mkHex 0 0) 1 1%R empty_World)
  = generate_chunk 4 (mkHex 0 0) 1 1%R empty_World /\
  getChunk (mkHex 0 0) (snd (createChunk (mkHex 0 0) 1 1%R empty_World))
  = Some (fst (createChunk (mkHex 0 0) 1 1%R empty_World)).
Proof.
  apply (createChunk_agrees_with_queue 4 (mkHex 0 0) 1 1%R empty_World).
  - lia.
  - reflexivity.
  - vm_compute. lia.
Defined.

End PipelineTheorems.

Section ChunkTiles.

Lemma find_set_first_tile_same (hex : HexCoord) (ty : option TileType)
    (g : list ChunkTile) :
  In hex (map tile_hex g) ->
  option_map tileType
    (List.find (fun t => hex_eqb (tile_hex t) hex) (set_first_tile hex ty g))
  = Some ty.
Proof.
  induction g as [|t g IH]; intros Hin; [destruct Hin|].
  cbn [set_first_tile]. destruct (hex_eqb (tile_hex t) hex) eqn:E.
  - cbn [List.find tile_with_type tile_hex]. now rewrite E.
  - cbn [List.find]. rewrite E. apply IH.
    destruct Hin as [Hin|Hin]; [|exact Hin].
    cbn in Hin. apply hex_eqb_eq in Hin. congruence.
Qed.

Lemma find_set_first_tile_other (hex hex' : HexCoord) (ty : option TileType)
    (g : list ChunkTile) :
  hex' <> hex ->
  option_map tileType
    (List.find (fun t => hex_eqb (tile_hex t) hex') (set_first_tile hex ty g))
  = option_map tileType (List.find (fun t => hex_eqb (tile_hex t) hex') g).
Proof.
  intros Hne. induction g as [|t g IH]; [reflexivity|].
  cbn [set_first_tile]. destruct (hex_eqb (tile_hex t) hex) eqn:E.
  - apply hex_eqb_eq in E. cbn [List.find tile_with_type tile_hex].
    destruct (hex_eqb (tile_hex t) hex') eqn:E'; [|reflexivity].
    apply hex_eqb_eq in E'. congruence.
  - cbn [List.find]. destruct (hex_eqb (tile_hex t) hex'); [reflexivity|apply IH].
Qed.

Lemma set_first_tile_hexes (hex : HexCoord) (ty : option TileType)
    (g : list ChunkTile) :
  map tile_hex (set_first_tile hex ty g) = map tile_hex g.
Proof.
  induction g as [|t g IH]; [reflexivity|].
  cbn [set_first_tile]. destruct (hex_eqb (tile_hex t) hex).
  - reflexivity.
  - cbn [map]. now rewrite IH.
Qed.

Lemma set_first_tile_absent (hex : HexCoord) (ty : option TileType)
    (g : list ChunkTile) :
  ~ In hex (map tile_hex g) -> set_first_tile hex ty g = g.
Proof.
  intros Hn. rewrite <- (app_nil_r g) at 1.
  rewrite set_first_tile_skip by exact Hn. cbn. apply app_nil_r.
Qed.

Lemma getTileType_find (hex : HexCoord) (c : Chunk) :
  getTileType hex c
  = match option_map tileType
            (List.find (fun t => hex_eqb (tile_hex t) hex) (grid c)) with
    | Some ty => ty
    | None => None
    end.
Proof. unfold getTileType. now destruct (List.find _ _). Qed.

(** X12. Writing and reading the kind of a tile.  When the chunk has a
    tile at [hex], [getTileType] after [setTileType hex ty] returns [ty]
    (null included); when it has none, the write is dropped, the chunk is
    left exactly as it was and the read gives null.  In both cases the
    kind read at any other hex is unchanged, and so are the hexes and the
    flags of the tiles and the other fields of the chunk. *)
Theorem setTileType_getTileType (hex : HexCoord) (ty : option TileType)
    (c : Chunk) :
  (In hex (map tile_hex (grid c)) ->
   getTileType hex (setTileType hex ty c) = ty) /\
  (~ In hex (map tile_hex (grid c)) ->
   setTileType hex ty c = c /\ getTileType hex c = None) /\
  (forall hex', hex' <> hex ->
     getTileType hex' (setTileType hex ty c) = getTileType hex' c) /\
  map tile_hex (grid (setTileType hex ty c)) = map tile_hex (grid c) /\
  map tile_enabled (grid (setTileType hex ty c)) = map tile_enabled (grid c) /\
  setGrid (grid c) (setTileType hex ty c) = c.
Proof.
  split_and!.
  - intros Hin. rewrite getTileType_find. unfold setTileType. cbn [setGrid grid].
    now rewrite find_set_first_tile_same.
  - intros Hout. split.
    + unfold setTileType. rewrite set_first_tile_absent by exact Hout.
      apply setGrid_grid.
    + unfold getTileType.
      destruct (List.find _ (grid c)) as [t|] eqn:E; [|reflexivity].
      apply find_some in E. destruct E as [Ht He]. apply hex_eqb_eq in He.
      exfalso. apply Hout. apply in_map_iff. now exists t.
  - intros hex' Hne. rewrite !getTileType_find. unfold setTileType.
    cbn [setGrid grid]. now rewrite find_set_first_tile_other.
  - unfold setTileType. cbn [setGrid grid]. apply set_first_tile_hexes.
  - unfold setTileType. cbn [setGrid grid].
    induction (grid c) as [|t g IH]; [reflexivity|].
    cbn [set_first_tile]. destruct (hex_eqb (tile_hex t) hex).
    + reflexivity.
    + cbn [map]. now rewrite IH.
  - unfold setTileType. rewrite setGrid_setGrid. apply setGrid_grid.
Qed.

(** X13. [setEnabled] sets the flag of the chunk and of every tile and
    nothing else: the hexes and the cached kinds of the tiles are kept
    (so [getTileType] and [hasAllTilesGenerated] answer as before), and
    of two calls in a row only the last one counts. *)
Theorem setEnabled_flags_only (b b' : bool) (c : Chunk) :
  getEnabled (setEnabled b c) = b /\
  List.Forall (fun t => tile_enabled t = b) (grid (setEnabled b c)) /\
  map tile_hex (grid (setEnabled b c)) = map tile_hex (grid c) /\
  map tileType (grid (setEnabled b c)) = map tileType (grid c) /\
  (forall hex, getTileType hex (setEnabled b c) = getTileType hex c) /\
  hasAllTilesGenerated (setEnabled b c) = hasAllTilesGenerated c /\
  setEnabled b (setEnabled b' c) = setEnabled b c.
Proof.
  split_and!.
  - reflexivity.
  - cbn [setEnabled grid]. apply List.Forall_forall. intros t Ht.
    apply in_map_iff in Ht. now destruct Ht as (t0 & <- & _).
  - cbn [setEnabled grid]. rewrite map_map. reflexivity.
  - cbn [setEnabled grid]. rewrite map_map. reflexivity.
  - intros hex. unfold getTileType. cbn [setEnabled grid].
    induction (grid c) as [|t g IH]; [reflexivity|].
    cbn [map List.find tile_with_enabled tile_hex].
    destruct (hex_eqb (tile_hex t) hex); [reflexivity|exact IH].
  - unfold hasAllTilesGenerated. cbn [setEnabled grid].
    induction (grid c) as [|t g IH]; [reflexivity|].
    cbn [map forallb tile_with_enabled tileType]. now rewrite IH.
  - unfold setEnabled. cbn [grid positionHex positionCartesian enabled
                            neighbors tilesGenerated initialized].
    f_equal. rewrite map_map. reflexivity.
Qed.

End ChunkTiles.

Section WorldMapRemoval.

Lemma fold_remove_owned_entry_lookup (positionHex : HexCoord)
    (tiles : list ChunkTile) (index : gmap Key HexCoord) (key : Key) :
  fold_left (remove_owned_entry positionHex) tiles index !! key
  = if existsb (fun t => bool_decide (getChunkKey (tile_hex t) = key)) tiles
       && owned_by positionHex index key
    then None
    else index !! key.
Proof.
  revert index. induction tiles as [|t tiles IH]; intros index; [reflexivity|].
  cbn [fold_left existsb]. rewrite IH. clear IH.
  set (tk := getChunkKey (tile_hex t)).
  set (ex := existsb _ tiles).
  unfold remove_owned_entry. fold tk. unfold owned_by, hex_eqb.
  case_bool_decide as Hk.
  - subst key. cbn [orb].
    destruct (index !! tk) as [p|] eqn:Hp.
    + destruct ((hex_q p =? hex_q positionHex) && (hex_r p =? hex_r positionHex))
        eqn:Hown.
      * rewrite lookup_delete_eq. cbn [andb]. rewrite andb_false_r.
        reflexivity.
      * rewrite Hp, Hown. rewrite andb_false_r. reflexivity.
    + rewrite Hp. rewrite andb_false_r. reflexivity.
  - cbn [orb].
    destruct (index !! tk) as [p|] eqn:Hp; [|reflexivity].
    destruct ((hex_q p =? hex_q positionHex) && (hex_r p =? hex_r positionHex));
      [|reflexivity].
    rewrite lookup_delete_ne by exact Hk. reflexivity.
Qed.

(** X14. [removeChunk] on a chunk of the map deletes the entry of the
    chunk and those index entries, among the keys of the tiles of the
    chunk, that point to it; every other index entry (one of another
    chunk under the key of a shared tile, or one under a key outside the
    grid) and every other chunk is kept, as are the chunk objects.  On a
    position without a chunk it changes nothing. *)
Theorem removeChunk_spec (positionHex : HexCoord) (w : World) :
  (getChunk positionHex w = None -> removeChunk positionHex w = w) /\
  (forall chunk, getChunk positionHex w = Some chunk ->
     let w' := removeChunk positionHex w in
     getChunk positionHex w' = None /\
     (forall other, getChunkKey other <> getChunkKey positionHex ->
        getChunk other w' = getChunk other w) /\
     objects w' = objects w /\
     (forall h, In h (map tile_hex (grid_of chunk w)) ->
        spatialIndex w' !! getChunkKey h <> Some positionHex) /\
     (forall key,
        spatialIndex w' !! key
        = if existsb (fun t => bool_decide (getChunkKey (tile_hex t) = key))
                     (grid_of chunk w)
             && owned_by positionHex (spatialIndex w) key
          then None
          else spatialIndex w !! key)).
Proof.
  unfold getChunk, removeChunk. split.
  - now intros ->.
  - intros chunk ->. cbn zeta. split_and!.
    + cbn. apply lookup_delete_eq.
    + intros other Hne. cbn. apply lookup_delete_ne. congruence.
    + reflexivity.
    + intros h Hh. cbn [with_chunks with_spatialIndex spatialIndex].
      rewrite fold_remove_owned_entry_lookup.
      assert (Hex : existsb (fun t => bool_decide
                              (getChunkKey (tile_hex t) = getChunkKey h))
                            (grid_of chunk w) = true).
      { apply in_map_iff in Hh. destruct Hh as (t & <- & Ht).
        apply existsb_exists. exists t. split; [exact Ht|].
        now apply bool_decide_eq_true. }
      rewrite Hex. cbn [andb]. unfold owned_by.
      destruct (spatialIndex w !! getChunkKey h) as [p|] eqn:Hp;
        [|discriminate].
      destruct (hex_eqb p positionHex) eqn:E; [discriminate|].
      intros [= ->].
      now rewrite (proj2 (hex_eqb_eq _ _) eq_refl) in E.
    + intros key. cbn [with_chunks with_spatialIndex spatialIndex].
      apply fold_remove_owned_entry_lookup.
Qed.

End WorldMapRemoval.

Section LinearLookup.

Lemma distance_nonneg (q1 r1 q2 r2 : Z) : 0 <= distance q1 r1 q2 r2.
Proof. pose proof (distance_double q1 r1 q2 r2). lia. Qed.

Lemma scan_chunks_spec (tileHex : HexCoord) (rings : Z)
    (existingChunks : list Chunk) (closest : option (HexCoord * Z)) :
  match closest with
  | Some (p0, d0) => d0 = tile_distance tileHex p0 /\ d0 <= rings
  | None => True
  end ->
  match scan_chunks tileHex rings existingChunks closest with
  | Some p =>
      (In p (map getPositionHex existingChunks) \/ option_map fst closest = Some p) /\
      (tile_distance tileHex p = 0 \/ tile_distance tileHex p <= rings) /\
      (forall c, In c existingChunks ->
         tile_distance tileHex p <= tile_distance tileHex (getPositionHex c)) /\
      (forall p0 d0, closest = Some (p0, d0) -> tile_distance tileHex p <= d0)
  | None =>
      closest = None /\
      forall c, In c existingChunks ->
        tile_distance tileHex (getPositionHex c) <> 0 /\
        rings < tile_distance tileHex (getPositionHex c)
  end.
Proof.
  revert closest.
  induction existingChunks as [|chunk rest IH]; intros closest Hacc.
  - cbn [scan_chunks]. destruct closest as [[p0 d0]|]; cbn [option_map fst].
    + destruct Hacc as [Hd Hle]. split_and!.
      * now right.
      * right. lia.
      * intros c [].
      * intros p1 d1 [= <- <-]. lia.
    + split; [reflexivity|]. intros c [].
  - cbn [scan_chunks].
    fold (tile_distance tileHex (getPositionHex chunk)).
    set (d := tile_distance tileHex (getPositionHex chunk)).
    assert (Hd0 : 0 <= d) by apply distance_nonneg.
    destruct (Z.eqb_spec d 0) as [Hz|Hnz].
    + split_and!.
      * left. now left.
      * left. exact Hz.
      * intros c _. fold d. rewrite Hz. apply distance_nonneg.
      * intros p0 d0 ->. destruct Hacc as [-> _]. fold d. rewrite Hz.
        apply distance_nonneg.
    + destruct (Z.leb_spec d rings) as [Hin|Hout].
      * assert (Hnew : match Some (getPositionHex chunk, d) with
                       | Some (p0, d0) => d0 = tile_distance tileHex p0 /\ d0 <= rings
                       | None => True
                       end) by (split; [reflexivity|exact Hin]).
        destruct closest as [[p0 d0]|].
        -- destruct (Z.ltb_spec d d0) as [Hlt|Hge].
           ++ specialize (IH (Some (getPositionHex chunk, d)) Hnew).
              destruct (scan_chunks tileHex rings rest _) as [p|].
              ** destruct IH as (Hsrc & Hr & Hmin & Hacc').
                 specialize (Hacc' _ _ eq_refl). split_and!.
                 --- destruct Hsrc as [Hsrc|Hsrc].
                     +++ left. now right.
                     +++ cbn in Hsrc. injection Hsrc as <-. left. now left.
                 --- exact Hr.
                 --- intros c [<-|Hc]; [fold d; lia|now apply Hmin].
                 --- intros p1 d1 [= <- <-]. lia.
              ** destruct IH as [IH _]. discriminate IH.
           ++ specialize (IH (Some (p0, d0)) Hacc).
              destruct (scan_chunks tileHex rings rest _) as [p|].
              ** destruct IH as (Hsrc & Hr & Hmin & Hacc').
                 specialize (Hacc' _ _ eq_refl). split_and!.
                 --- destruct Hsrc as [Hsrc|Hsrc]; [left; now right|now right].
                 --- exact Hr.
                 --- intros c [<-|Hc]; [fold d; lia|now apply Hmin].
                 --- intros p1 d1 [= <- <-]. lia.
              ** destruct IH as [IH _]. discriminate IH.
        -- specialize (IH (Some (getPositionHex chunk, d)) Hnew).
           destruct (scan_chunks tileHex rings rest _) as [p|].
           ** destruct IH as (Hsrc & Hr & Hmin & Hacc').
              specialize (Hacc' _ _ eq_refl). split_and!.
              --- destruct Hsrc as [Hsrc|Hsrc].
                  +++ left. now right.
                  +++ cbn in Hsrc. injection Hsrc as <-. left. now left.
              --- exact Hr.
              --- intros c [<-|Hc]; [fold d; lia|now apply Hmin].
              --- intros p1 d1 [=].
           ** destruct IH as [IH _]. discriminate IH.
      * specialize (IH closest Hacc).
        destruct (scan_chunks tileHex rings rest closest) as [p|].
        -- destruct IH as (Hsrc & Hr & Hmin & Hacc'). split_and!.
           ++ destruct Hsrc as [Hsrc|Hsrc]; [left; now right|now right].
           ++ exact Hr.
           ++ intros c [<-|Hc]; [|now apply Hmin]. fold d.
              pose proof (distance_nonneg (hex_q tileHex) (hex_r tileHex)
                            (hex_q p) (hex_r p)).
              unfold tile_distance in *. lia.
           ++ exact Hacc'.
        -- destruct IH as [-> IH]. split; [reflexivity|].
           intros c [<-|Hc]; [fold d; lia|now apply IH].
Qed.

(** X15. The linear search of [getChunkForTile] (no world map given):
    the answer is the position of one of the chunks, at distance zero
    from the tile or at most [rings], and no chunk of the array is
    closer to the tile; the answer is null exactly when every chunk is
    farther than [rings] and none is centered on the tile.  With a world
    map, an answer of the fast lookup is returned as it is, and the
    linear search is the fallback. *)
Theorem getChunkForTile_closest (tileHex : HexCoord) (rings : Z)
    (existingChunks : list Chunk) :
  let result := snd (getChunkForTile tileHex rings existingChunks None) in
  match result with
  | Some p =>
      In p (map getPositionHex existingChunks) /\
      (tile_distance tileHex p = 0 \/ tile_distance tileHex p <= rings) /\
      (forall c, In c existingChunks ->
         tile_distance tileHex p <= tile_distance tileHex (getPositionHex c))
  | None =>
      forall c, In c existingChunks ->
        tile_distance tileHex (getPositionHex c) <> 0 /\
        rings < tile_distance tileHex (getPositionHex c)
  end /\
  forall w,
    getChunkForTile tileHex rings existingChunks (Some w)
    = match getChunkForTileFast tileHex rings w with
      | (w', Some p) => (Some w', Some p)
      | (w', None) => (Some w', result)
      end.
Proof.
  cbn zeta. unfold getChunkForTile. cbn [snd]. split.
  - pose proof (scan_chunks_spec tileHex rings existingChunks None I) as H.
    destruct (scan_chunks tileHex rings existingChunks None) as [p|].
    + destruct H as (Hsrc & Hr & Hmin & _). split_and!; try assumption.
      destruct Hsrc as [Hsrc|Hsrc]; [exact Hsrc|discriminate Hsrc].
    + now destruct H.
  - intros w. destruct (getChunkForTileFast tileHex rings w) as [w' [p|]];
      reflexivity.
Qed.

End LinearLookup.

Section CreateChunk.

Lemma isInitialized_initializeAsync (rings : Z) (c : Chunk) :
  isInitialized (initializeAsync rings c) = true.
Proof.
  unfold initializeAsync. destruct (initialized c) eqn:E; [exact E|reflexivity].
Qed.

Lemma chunk_test_update_chunk (rings : Z) (w : World) (existing : ChunkRef) :
  update_chunk existing (initializeAsync rings) w = w \/
  chunk_test isInitialized
             (update_chunk existing (initializeAsync rings) w) existing = true.
Proof.
  unfold chunk_test, update_chunk. cbn [with_objects objects].
  rewrite lookup_alter_eq.
  destruct (objects w !! existing) as [c|] eqn:Hc.
  - right. cbn. apply isInitialized_initializeAsync.
  - left. destruct w as [o ch si]. unfold with_objects. cbn in *. f_equal.
    apply map_eq. intros i.
    destruct (decide (i = existing)) as [->|Hne].
    + now rewrite lookup_alter_eq, Hc.
    + now rewrite lookup_alter_ne by congruence.
Qed.

(** X16. [createChunk] is idempotent, whatever the world and the radius:
    a second call for the same position returns the chunk object the
    first call returned and leaves the world as the first call left it.
    The chunk the first call returns is registered under its position. *)
Theorem createChunk_idempotent (positionHex : HexCoord) (rings : Z)
    (hexSize : Rdefinitions.R) (w : World) :
  let '(chunk, w1) := createChunk positionHex rings hexSize w in
  createChunk positionHex rings hexSize w1 = (chunk, w1) /\
  getChunk positionHex w1 = Some chunk.
Proof.
  unfold createChunk at 1.
  destruct (chunks w !! getChunkKey positionHex) as [existing|] eqn:Hk.
  - destruct (chunk_test isInitialized w existing) eqn:Hinit.
    + split; [|exact Hk]. unfold createChunk. now rewrite Hk, Hinit.
    + split; [|exact Hk]. unfold createChunk.
      set (w1 := update_chunk existing (initializeAsync rings) w).
      change (chunks w1) with (chunks w). rewrite Hk.
      destruct (chunk_test_update_chunk rings w existing) as [Hsame|Hdone].
      * fold w1 in Hsame. rewrite Hsame, Hinit. subst w1. now rewrite Hsame.
      * fold w1 in Hdone. now rewrite Hdone.
  - unfold alloc_chunk. set (ref := fresh (dom (objects w))).
    set (w2 := with_chunks _ _).
    assert (Hobj : objects w2 !! ref = Some (new_Chunk positionHex hexSize))
      by (subst w2; cbn; apply lookup_insert_eq).
    rewrite (update_chunk_at ref _ w2 _ Hobj).
    set (w3 := with_objects _ w2). unfold updateSpatialIndexIncremental.
    set (w4 := publish_tiles _ _ w3).
    assert (Hch : chunks w4 !! getChunkKey positionHex = Some ref).
    { subst w4. rewrite (proj2 (publish_tiles_objects _ _ _)).
      subst w3 w2. cbn. apply lookup_insert_eq. }
    assert (Hini : chunk_test isInitialized w4 ref = true).
    { unfold chunk_test. subst w4.
      rewrite (proj1 (publish_tiles_objects _ _ _)). subst w3.
      cbn [with_objects objects]. rewrite lookup_insert_eq.
      apply isInitialized_initializeAsync. }
    split; [|exact Hch]. unfold createChunk. now rewrite Hch, Hini.
Qed.

End CreateChunk.

Section TaskSelection.

Lemma in_tasks_entries (s : Runtime) (k : Key) (t : ChunkGenerationTask) :
  In (k, t) (tasks_entries s) <-> In k (rt_order s) /\ rt_tasks s !! k = Some t.
Proof.
  unfold tasks_entries. induction (rt_order s) as [|k0 l IH].
  - cbn. tauto.
  - cbn [omap list_omap]. destruct (rt_tasks s !! k0) as [t0|] eqn:E; cbn.
    + rewrite IH. split.
      * intros [[= <- <-]|[Hin Ht]]; [now split; [left|]|now split; [right|]].
      * intros [[<-|Hin] Ht]; [left; congruence|right; now split].
    + rewrite IH. split.
      * intros [Hin Ht]. now split; [right|].
      * intros [[<-|Hin] Ht]; [congruence|now split].
Qed.

Lemma in_insert_task (x y : Key * ChunkGenerationTask)
    (l : list (Key * ChunkGenerationTask)) :
  In y (insert_task x l) <-> y = x \/ In y l.
Proof.
  induction l as [|z l IH]; cbn [insert_task].
  - cbn. intuition congruence.
  - destruct (compare_tasks (snd x) (snd z) <=? 0); cbn [In].
    + intuition congruence.
    + rewrite IH. intuition congruence.
Qed.

Lemma in_sort_tasks (y : Key * ChunkGenerationTask)
    (l : list (Key * ChunkGenerationTask)) :
  In y (sort_tasks l) <-> In y l.
Proof.
  induction l as [|x l IH]; [reflexivity|].
  cbn [sort_tasks fold_right]. fold (sort_tasks l).
  rewrite in_insert_task, IH. cbn. intuition congruence.
Qed.

(** What the comparator says about two tasks when it does not put the
    second one first. *)
Lemma compare_tasks_le (a b : ChunkGenerationTask) :
  compare_tasks a b <= 0 <->
  priority b < priority a \/
  (priority a = priority b /\ (is_pending b = true -> is_pending a = true)).
Proof.
  unfold compare_tasks.
  destruct (Z.eqb_spec (priority a) (priority b)) as [He|Hne]; cbn [negb].
  - destruct (is_pending a), (is_pending b); cbn; split;
      try lia; try (intros _; right; split; [exact He|tauto]).
  - split; [intros; left; lia|]. intros [Hlt|[He _]]; [lia|contradiction].
Qed.

Lemma compare_tasks_total (a b : ChunkGenerationTask) :
  compare_tasks a b <= 0 \/ compare_tasks b a <= 0.
Proof.
  rewrite !compare_tasks_le.
  destruct (Z.lt_trichotomy (priority a) (priority b)) as [H|[H|H]].
  - right. now left.
  - destruct (is_pending a) eqn:Ea.
    + left. right. now split.
    + right. right. split; [easy|]. intros Hp. congruence.
  - left. now left.
Qed.

Lemma compare_tasks_trans (a b c : ChunkGenerationTask) :
  compare_tasks a b <= 0 -> compare_tasks b c <= 0 -> compare_tasks a c <= 0.
Proof.
  rewrite !compare_tasks_le.
  intros [H1|[H1 P1]] [H2|[H2 P2]].
  - left. lia.
  - left. lia.
  - left. lia.
  - right. split; [congruence|tauto].
Qed.

Lemma sorted_insert_task (x : Key * ChunkGenerationTask)
    (l : list (Key * ChunkGenerationTask)) :
  Sorted.StronglySorted (fun a b => compare_tasks (snd a) (snd b) <= 0) l ->
  Sorted.StronglySorted (fun a b => compare_tasks (snd a) (snd b) <= 0)
                        (insert_task x l).
Proof.
  induction 1 as [|y l Hs IH Hy]; cbn [insert_task].
  - constructor; [constructor|constructor].
  - destruct (Z.leb_spec (compare_tasks (snd x) (snd y)) 0) as [Hle|Hgt].
    + constructor; [now constructor|].
      constructor; [exact Hle|].
      eapply List.Forall_impl; [|exact Hy].
      intros z Hz. cbn beta in *. eapply compare_tasks_trans; eassumption.
    + constructor; [exact IH|].
      apply List.Forall_forall. intros z Hz.
      apply in_insert_task in Hz. destruct Hz as [->|Hz].
      * destruct (compare_tasks_total (snd x) (snd y)); [lia|assumption].
      * rewrite List.Forall_forall in Hy. now apply Hy.
Qed.

Lemma sorted_sort_tasks (l : list (Key * ChunkGenerationTask)) :
  Sorted.StronglySorted (fun a b => compare_tasks (snd a) (snd b) <= 0) (sort_tasks l).
Proof.
  induction l as [|x l IH]; [constructor|].
  cbn [sort_tasks fold_right]. now apply sorted_insert_task.
Qed.

Lemma find_sorted {A : Type} (R : A -> A -> Prop) (f : A -> bool)
    (l : list A) (x : A) :
  Sorted.StronglySorted R l -> List.find f l = Some x ->
  forall y, In y l -> f y = true -> y = x \/ R x y.
Proof.
  induction 1 as [|z l Hs IH Hz]; [discriminate|].
  cbn [List.find]. destruct (f z) eqn:Ez.
  - intros [= <-] y [<-|Hy] _; [now left|].
    right. rewrite List.Forall_forall in Hz. now apply Hz.
  - intros Hfind y [<-|Hy] Hfy; [congruence|]. now apply IH.
Qed.

(** The task picked, by what it is not preceded by. *)
Lemma select_task_facts (s : Runtime) :
  match select_task s with
  | Some (key, task) =>
      In key (rt_order s) /\ rt_tasks s !! key = Some task /\
      ready task = true /\
      forall key' task',
        In key' (rt_order s) -> rt_tasks s !! key' = Some task' ->
        ready task' = true ->
        priority task' <= priority task /\
        (priority task' = priority task -> is_pending task' = true ->
         is_pending task = true)
  | None =>
      forall key' task',
        In key' (rt_order s) -> rt_tasks s !! key' = Some task' ->
        ready task' = false
  end.
Proof.
  unfold select_task.
  destruct (List.find _ _) as [[key task]|] eqn:Hfind.
  - pose proof (find_some _ _ Hfind) as [Hin Hready].
    apply in_sort_tasks, in_tasks_entries in Hin. destruct Hin as [Hin Ht].
    split_and!; try assumption.
    intros key' task' Hin' Ht' Hready'.
    assert (Hent : In (key', task') (sort_tasks (tasks_entries s)))
      by (apply in_sort_tasks, in_tasks_entries; now split).
    destruct (find_sorted _ _ _ _ (sorted_sort_tasks _) Hfind _ Hent Hready')
      as [[= -> ->]|Hle].
    + split; [lia|tauto].
    + cbn [snd] in Hle. apply compare_tasks_le in Hle.
      destruct Hle as [Hlt|[He Hp]]; [split; lia|].
      split; [lia|]. intros _. exact Hp.
  - intros key' task' Hin' Ht'.
    destruct (ready task') eqn:Hready; [|reflexivity].
    assert (Hent : In (key', task') (sort_tasks (tasks_entries s)))
      by (apply in_sort_tasks, in_tasks_entries; now split).
    pose proof (find_none _ _ Hfind _ Hent) as Hn. cbn [snd] in Hn. congruence.
Qed.

End TaskSelection.

Section StepsLoop.

Lemma alter_at {A : Type} (m : gmap Key A) (k : Key) (f : A -> A) (x : A) :
  m !! k = Some x -> alter f k m = <[k := f x]> m.
Proof.
  intros Hx. apply map_eq. intros i. destruct (decide (i = k)) as [->|Hne].
  - now rewrite lookup_alter_eq, lookup_insert_eq, Hx.
  - now rewrite lookup_alter_ne, lookup_insert_ne.
Qed.

Lemma drive_Some_prefix (j : nat) :
  forall (step : option ProcessingStep) (ws ws' : World * ChunkGenerationState)
         (stp : ProcessingStep) (i : nat),
    drive j step ws = (ws', Some stp) -> (i <= j)%nat ->
    exists ws'' stp', drive i step ws = (ws'', Some stp').
Proof.
  induction j as [|j IH]; intros step ws ws' stp i Hd Hi.
  - assert (i = 0%nat) as -> by lia. rewrite drive_O in *. eauto.
  - destruct step as [s0|]; [|rewrite drive_None in Hd; discriminate].
    destruct i as [|i]; [rewrite drive_O; eauto|].
    rewrite drive_S in *. destruct (run_step s0 ws) as [ws1 next].
    eapply IH; [exact Hd|lia].
Qed.

(** The loop when the budget test never fires before the step that
    returns null: the task is completed, resolved and deleted. *)
Lemma steps_loop_completes (over_budget : nat -> bool) (key : Key)
    (task : ChunkGenerationTask) (m : nat) :
  getTaskKey (task_chunkHex task) = key ->
  forall (fuel n : nat) (step : ProcessingStep) (state : ChunkGenerationState)
         (s : Runtime) (w' : World) (state' : ChunkGenerationState),
    (m <= fuel)%nat ->
    (forall i, (i < m)%nat -> over_budget (n + i)%nat = false) ->
    drive m (Some step) (rt_world s, state) = (w', state', None) ->
    let s' := {| rt_world := w';
                 rt_tasks := delete key (rt_tasks s);
                 rt_order := List.filter (fun k => negb (bool_decide (k = key)))
                                         (rt_order s);
                 rt_settled := rt_settled s
                               ++ [(promise task, Resolve (st_chunk state'))] |} in
    steps_loop over_budget fuel n key task step state s
    = Some (tasks_nonempty s', s').
Proof.
  intros Hkey. induction m as [|m IH];
    intros fuel n step state s w' state' Hfuel Hover Hdrive; [discriminate|].
  destruct fuel as [|fuel]; [lia|].
  rewrite drive_S in Hdrive. cbn [steps_loop].
  destruct (run_step step (rt_world s, state)) as [[w1 state1] next].
  rewrite <- (Nat.add_0_r n) at 1. rewrite Hover by lia.
  destruct next as [next|].
  - set (s1 := with_task key (with_task_currentStep (Some next)) _).
    specialize (IH fuel (S n) next state1 s1 w' state' ltac:(lia)).
    rewrite IH; [| |exact Hdrive].
    + cbn zeta. subst s1. cbn [with_task with_world rt_tasks rt_order rt_settled].
      now rewrite !delete_alter_eq.
    + intros i Hi. replace (S n + i)%nat with (n + S i)%nat by lia.
      apply Hover. lia.
  - rewrite drive_None in Hdrive. injection Hdrive as <- <-.
    rewrite Hkey. cbn zeta. unfold tasks_delete, settle, with_task, with_world.
    cbn [rt_world rt_tasks rt_order rt_settled].
    now rewrite !delete_alter_eq.
Qed.

(** The loop when the budget test fires for the first time after the step
    call number [j]: the progress is saved on the task, nothing else
    changes. *)
Lemma steps_loop_pauses (over_budget : nat -> bool) (key : Key)
    (task : ChunkGenerationTask) (j : nat) :
  forall (fuel n : nat) (step : ProcessingStep) (state : ChunkGenerationState)
         (s : Runtime) (t0 : ChunkGenerationTask)
         (wj : World) (statej : ChunkGenerationState) (stepj : ProcessingStep)
         (w' : World) (state' : ChunkGenerationState)
         (next : option ProcessingStep),
    (j < fuel)%nat ->
    (forall i, (i < j)%nat -> over_budget (n + i)%nat = false) ->
    over_budget (n + j)%nat = true ->
    rt_tasks s !! key = Some t0 ->
    drive j (Some step) (rt_world s, state) = (wj, statej, Some stepj) ->
    run_step stepj (wj, statej) = (w', state', next) ->
    steps_loop over_budget fuel n key task step state s
    = Some (true,
            {| rt_world := w';
               rt_tasks :=
                 <[key := with_task_currentStep next
                            (with_processingState (Some state') t0)]>
                   (rt_tasks s);
               rt_order := rt_order s;
               rt_settled := rt_settled s |}).
Proof.
  induction j as [|j IH];
    intros fuel n step state s t0 wj statej stepj w' state' next
           Hfuel Hover Hhit Ht0 Hdrive Hrun.
  - destruct fuel as [|fuel]; [lia|]. rewrite drive_O in Hdrive.
    injection Hdrive as <- <- <-. cbn [steps_loop]. rewrite Hrun.
    rewrite Nat.add_0_r in Hhit. rewrite Hhit.
    unfold with_task, with_world. cbn [rt_world rt_tasks rt_order rt_settled].
    do 2 f_equal. f_equal.
    rewrite (alter_at _ _ _ _ Ht0).
    rewrite (alter_at _ _ _ _ (lookup_insert_eq _ _ _)).
    apply insert_insert_eq.
  - destruct fuel as [|fuel]; [lia|]. rewrite drive_S in Hdrive.
    cbn [steps_loop].
    destruct (run_step step (rt_world s, state)) as [[w1 state1] next1].
    rewrite <- (Nat.add_0_r n) at 1. rewrite Hover by lia.
    destruct next1 as [next1|]; [|rewrite drive_None in Hdrive; discriminate].
    set (s1 := with_task key (with_task_currentStep (Some next1)) _).
    assert (Ht1 : rt_tasks s1 !! key
                  = Some (with_task_currentStep (Some next1)
                            (with_processingState (Some state1) t0))).
    { subst s1. cbn [with_task with_world rt_tasks].
      rewrite !lookup_alter_eq, Ht0. reflexivity. }
    rewrite (IH fuel (S n) next1 state1 s1
                (with_task_currentStep (Some next1)
                   (with_processingState (Some state1) t0))
                wj statej stepj w' state' next ltac:(lia)); try assumption.
    + do 2 f_equal. subst s1. unfold with_task, with_world.
      cbn [rt_world rt_tasks rt_order rt_settled]. f_equal.
      rewrite (alter_at _ _ _ _ Ht0).
      rewrite (alter_at _ _ _ _ (lookup_insert_eq _ _ _)).
      rewrite !insert_insert_eq. reflexivity.
    + intros i Hi. replace (S n + i)%nat with (n + S i)%nat by lia.
      apply Hover. lia.
    + replace (S n + j)%nat with (n + S j)%nat by lia. exact Hhit.
Qed.

End StepsLoop.

Section PipelineLastCall.

(** While batches remain after it, a call of the index step hands over to
    the index step again. *)
Lemma drive_index_partial (k : nat) :
  forall (w : World) (state : ChunkGenerationState),
    let g := grid_of (st_chunk state) w in
    let i := spatialIndexBatchIndex state in
    (k = 0%nat \/ (k * SPATIAL_INDEX_BATCH_SIZE < length g - i)%nat) ->
    exists w' state',
      drive k (Some StepUpdateSpatialIndex) (w, state)
      = (w', state', Some StepUpdateSpatialIndex).
Proof.
  induction k as [|k IH]; intros w state g i Hk.
  - rewrite drive_O. eauto.
  - assert (SPATIAL_INDEX_BATCH_SIZE < length g - i)%nat as Hmore
        by (destruct Hk as [Hk|Hk];
            [discriminate|unfold SPATIAL_INDEX_BATCH_SIZE in *; lia]).
    destruct (slice_more g i SPATIAL_INDEX_BATCH_SIZE Hmore) as [Hmin Hsplit].
    rewrite drive_S. cbn [run_step]. unfold stepUpdateSpatialIndex.
    fold g. fold i. rewrite Hmin.
    destruct (Nat.ltb_spec (i + SPATIAL_INDEX_BATCH_SIZE) (length g))
      as [_|Hge]; [|lia].
    fold (publish_tiles (st_chunkHex state)
            (slice g i (i + SPATIAL_INDEX_BATCH_SIZE)) w).
    apply IH. cbn [st_chunk st_chunkHex spatialIndexBatchIndex].
    rewrite grid_of_publish_tiles. fold g.
    destruct k as [|k]; [now left|right].
    unfold SPATIAL_INDEX_BATCH_SIZE in *. lia.
Qed.

(** The last call of a task is the one that returns null: one call
    earlier the continuation is still the index step. *)
Lemma drive_pipeline_last (rings : Z) (center : HexCoord) (w : World)
    (ref : ChunkRef) (c : Chunk) (hexSize : Rdefinitions.R) :
  0 <= rings ->
  objects w !! ref = Some c ->
  positionHex c = center ->
  let state := createProcessingState ref rings hexSize center in
  exists wj statej stepj,
    drive (pipeline_calls rings center - 1) (Some StepGenerateGrid) (w, state)
    = (wj, statej, Some stepj) /\
    run_step stepj (wj, statej)
    = (fst (drive (pipeline_calls rings center) (Some StepGenerateGrid)
                  (w, state)),
       None).
Proof.
  intros Hrings Hc Hpos state.
  pose proof (drive_pipeline rings center w ref c hexSize 0 Hrings Hc Hpos)
    as Hfull. cbn zeta in Hfull. rewrite Nat.add_0_r in Hfull. fold state in Hfull.
  assert (Hprefix : exists wj statej stepj,
            drive (pipeline_calls rings center - 1) (Some StepGenerateGrid)
                  (w, state) = (wj, statej, Some stepj)).
  { unfold pipeline_calls.
    set (g := generateHexGrid rings (hex_q center) (hex_r center)).
    destruct (batches_bounds SPATIAL_INDEX_BATCH_SIZE (length g))
      as (Hb & Hle & Hk); [unfold SPATIAL_INDEX_BATCH_SIZE; lia|].
    cbn zeta in *.
    set (k := (batches SPATIAL_INDEX_BATCH_SIZE (length g) - 1)%nat) in *.
    replace (batches GRID_BATCH_SIZE (length g) + 1
             + batches SPATIAL_INDEX_BATCH_SIZE (length g) - 1)%nat
      with (batches GRID_BATCH_SIZE (length g) + (1 + k))%nat by lia.
    rewrite drive_add.
    destruct center as [q r]. cbn [hex_q hex_r] in *.
    pose proof (drive_grid_all_validated rings q r w ref hexSize Hrings) as Hgrid.
    cbn zeta in Hgrid. fold g state in Hgrid. rewrite Hgrid.
    cbn [Nat.add]. rewrite drive_S. cbn [run_step].
    unfold stepComputeNeighbors. rewrite update_chunk_update_chunk.
    rewrite (update_chunk_at ref _ w c Hc).
    set (w1 := with_objects _ w).
    set (st1 := with_currentStep LabelSpatialIndex _).
    destruct (drive_index_partial k w1 st1) as (w' & state' & Hd).
    - cbn zeta. subst st1.
      cbn [st_chunk with_currentStep grid_done_state state
           createProcessingState spatialIndexBatchIndex].
      assert (Hg : length (grid_of ref w1) = length g).
      { subst w1. unfold grid_of. cbn [with_objects objects].
        rewrite lookup_insert_eq. unfold compose. cbn. apply length_map. }
      rewrite Hg. destruct Hk as [Hk|Hk]; [now left|right; lia].
    - rewrite Hd. eauto. }
  destruct Hprefix as (wj & statej & stepj & Hj).
  exists wj, statej, stepj. split; [exact Hj|].
  assert (Hm : (0 < pipeline_calls rings center)%nat) by (unfold pipeline_calls; lia).
  replace (pipeline_calls rings center)
    with (pipeline_calls rings center - 1 + 1)%nat in Hfull |- * by lia.
  rewrite drive_add, Hj in Hfull |- *. cbn [Nat.add] in Hfull |- *.
  rewrite drive_S in Hfull |- *.
  destruct (run_step stepj (wj, statej)) as [ws' next].
  rewrite drive_O in Hfull |- *. cbn [fst]. congruence.
Qed.

End PipelineLastCall.

Section ProcessNext.

Lemma tasks_size_lookup (s : Runtime) (key : Key) (task : ChunkGenerationTask) :
  rt_tasks s !! key = Some task -> (size (rt_tasks s) =? 0)%nat = false.
Proof.
  intros Ht. apply Nat.eqb_neq.
  apply (map_size_ne_0_lookup_2 (rt_tasks s) key). rewrite Ht. now eexists.
Qed.

Lemma processNext_no_ready (over_budget : nat -> bool) (fuel : nat)
    (s : Runtime) :
  (forall key task,
     In key (rt_order s) -> rt_tasks s !! key = Some task ->
     ready task = false) ->
  processNext over_budget fuel s = Some (false, s).
Proof.
  intros Hnone. unfold processNext.
  destruct (size (rt_tasks s) =? 0)%nat; [reflexivity|].
  pose proof (select_task_facts s) as Hsel.
  destruct (select_task s) as [[key task]|]; [|reflexivity].
  destruct Hsel as (Hin & Ht & Hready & _).
  rewrite (Hnone key task Hin Ht) in Hready. discriminate.
Qed.

(** X17. [processNext] picks a task of highest priority among the tasks
    it can work on (the pending ones and the generating ones that have a
    continuation), and among those of that priority a pending one if
    there is one; it picks none exactly when the table holds no such
    task, and then it returns false and changes nothing, whatever the
    frame budget. *)
Theorem processNext_selection (s : Runtime) :
  match select_task s with
  | Some (key, task) =>
      In key (rt_order s) /\ rt_tasks s !! key = Some task /\
      ready task = true /\
      forall key' task',
        In key' (rt_order s) -> rt_tasks s !! key' = Some task' ->
        ready task' = true ->
        priority task' <= priority task /\
        (priority task' = priority task -> is_pending task' = true ->
         is_pending task = true)
  | None =>
      (forall key' task',
         In key' (rt_order s) -> rt_tasks s !! key' = Some task' ->
         ready task' = false) /\
      forall over_budget fuel, processNext over_budget fuel s = Some (false, s)
  end.
Proof.
  pose proof (select_task_facts s) as Hsel.
  destruct (select_task s) as [[key task]|]; [exact Hsel|].
  split; [exact Hsel|]. intros over_budget fuel.
  now apply processNext_no_ready.
Qed.

(** X18. A pending task whose chunk is no longer in the world map (the
    placeholder was removed) is dropped by [processNext]: its promise is
    rejected with the message of the missing placeholder, the task leaves
    the table, the world map is untouched, and the call returns whether
    tasks remain. *)
Theorem processNext_missing_placeholder (over_budget : nat -> bool)
    (fuel : nat) (s : Runtime) (key : Key) (task : ChunkGenerationTask)
    (Hsel : select_task s = Some (key, task))
    (Hstatus : status task = pending)
    (Hkey : getTaskKey (task_chunkHex task) = key)
    (Hnone : getChunk (task_chunkHex task) (rt_world s) = None) :
  exists s',
    processNext over_budget fuel s = Some (tasks_nonempty s', s') /\
    rt_world s' = rt_world s /\
    rt_tasks s' = delete key (rt_tasks s) /\
    rt_order s' = List.filter (fun k => negb (bool_decide (k = key))) (rt_order s) /\
    rt_settled s'
    = rt_settled s
      ++ [(promise task,
           Reject (ErrorMessages.generation_failed
                     ErrorMessages.placeholder_not_found))].
Proof.
  pose proof (select_task_facts s) as Hfacts. rewrite Hsel in Hfacts.
  destruct Hfacts as (Hin & Ht & _).
  eexists. split.
  - unfold processNext. rewrite (tasks_size_lookup s key task Ht), Hsel, Hstatus.
    cbn [with_task rt_world]. rewrite Hnone. unfold fail_task. reflexivity.
  - rewrite Hkey. cbn. rewrite !delete_alter_eq. now split_and!.
Qed.

Lemma processNext_missing_placeholder_witness :
  let task := mkTask (mkHex 0 0) 1 1%R 0 pending (task_promise 0) None None in
  let s := mkRuntime empty_World {[ (0, 0) := task ]} [(0, 0)] [] in
  exists s',
    processNext (fun _ => false) 0 s = Some (tasks_nonempty s', s') /\
    rt_world s' = rt_world s /\
    rt_tasks s' = delete (0, 0) (rt_tasks s) /\
    rt_order s'
    = List.filter (fun k => negb (bool_decide (k = (0, 0)))) (rt_order s) /\
    rt_settled s'
    = rt_settled s
      ++ [(promise task,
           Reject (ErrorMessages.generation_failed
                     ErrorMessages.placeholder_not_found))].
Proof.
  intros task s.
  apply (processNext_missing_placeholder (fun _ => false) 0 s (0, 0) task).
  - vm_compute. reflexivity.
  - reflexivity.
  - reflexivity.
  - reflexivity.
Defined.

(** X19. A pending task that is picked, whose placeholder is in the world
    map, and whose step calls all stay within the frame budget is
    finished by one call of [processNext]: the chunk is generated (grid,
    neighbours, initialized flag, index entries), the promise is resolved
    with the chunk, the task leaves the table, and the call returns
    whether tasks remain. *)
Theorem processNext_completes_within_budget (over_budget : nat -> bool)
    (fuel : nat) (s : Runtime) (key : Key) (task : ChunkGenerationTask)
    (ref : ChunkRef) (c : Chunk)
    (Hsel : select_task s = Some (key, task))
    (Hstatus : status task = pending)
    (Hkey : getTaskKey (task_chunkHex task) = key)
    (Hchunk : getChunk (task_chunkHex task) (rt_world s) = Some ref)
    (Hobj : objects (rt_world s) !! ref = Some c)
    (Hpos : positionHex c = task_chunkHex task)
    (Hrings : 0 <= task_rings task)
    (Hfuel : (pipeline_calls (task_rings task) (task_chunkHex task) <= fuel)%nat)
    (Hover : forall i,
        (i < pipeline_calls (task_rings task) (task_chunkHex task))%nat ->
        over_budget i = false) :
  let center := task_chunkHex task in
  let g := generateHexGrid (task_rings task) (hex_q center) (hex_r center) in
  exists s',
    processNext over_budget fuel s = Some (tasks_nonempty s', s') /\
    rt_world s'
    = publish_tiles center (map fresh_tile g)
        (with_objects
           (<[ref := initialized_chunk (task_rings task) c]>
              (objects (rt_world s)))
           (rt_world s)) /\
    rt_tasks s' = delete key (rt_tasks s) /\
    rt_order s' = List.filter (fun k => negb (bool_decide (k = key))) (rt_order s) /\
    rt_settled s' = rt_settled s ++ [(promise task, Resolve ref)].
Proof.
  intros center g.
  pose proof (select_task_facts s) as Hfacts. rewrite Hsel in Hfacts.
  destruct Hfacts as (Hin & Ht & _).
  pose proof (drive_pipeline (task_rings task) center (rt_world s) ref c
                (task_hexSize task) 0 Hrings Hobj Hpos) as Hdrive.
  cbn zeta in Hdrive. rewrite Nat.add_0_r in Hdrive. fold g in Hdrive.
  eexists. split.
  - unfold processNext. rewrite (tasks_size_lookup s key task Ht), Hsel, Hstatus.
    cbn [with_task rt_world]. rewrite Hchunk.
    eapply (steps_loop_completes over_budget key task
              (pipeline_calls (task_rings task) center) Hkey).
    + exact Hfuel.
    + intros i Hi. cbn [Nat.add]. now apply Hover.
    + cbn [rt_world]. exact Hdrive.
  - cbn [rt_world rt_tasks rt_order rt_settled with_task with_world].
    rewrite !delete_alter_eq. now split_and!.
Qed.

Lemma processNext_completes_within_budget_witness :
  let task := mkTask (mkHex 0 0) 1 1%R 0 pending (task_promise 0) None None in
  let c := new_Chunk (mkHex 0 0) 1%R in
  let w := with_chunks {[ (0, 0) := 0%nat ]}
             (with_objects {[ 0%nat := c ]} empty_World) in
  let s := mkRuntime w {[ (0, 0) := task ]} [(0, 0)] [] in
  exists s',
    processNext (fun _ => false) 3 s = Some (tasks_nonempty s', s') /\
    rt_world s'
    = publish_tiles (mkHex 0 0) (map fresh_tile (generateHexGrid 1 0 0))
        (with_objects (<[0%nat := initialized_chunk 1 c]> (objects w)) w) /\
    rt_tasks s' = delete (0, 0) (rt_tasks s) /\
    rt_order s'
    = List.filter (fun k => negb (bool_decide (k = (0, 0)))) (rt_order s) /\
    rt_settled s' = rt_settled s ++ [(promise task, Resolve 0%nat)].
Proof.
  intros task c w s.
  apply (processNext_completes_within_budget (fun _ => false) 3 s (0, 0) task
           0%nat c).
  - vm_compute. reflexivity.
  - reflexivity.
  - reflexivity.
  - reflexivity.
  - reflexivity.
  - reflexivity.
  - cbn. lia.
  - vm_compute. lia.
  - reflexivity.
Defined.

End ProcessNext.

Section Stranding.

Lemma insert_alter_same {A : Type} (m : gmap Key A) (k : Key) (f : A -> A)
    (x : A) :
  <[k := x]> (alter f k m) = <[k := x]> m.
Proof.
  apply map_eq. intros i. destruct (decide (i = k)) as [->|Hne].
  - now rewrite !lookup_insert_eq.
  - now rewrite !lookup_insert_ne, lookup_alter_ne by congruence.
Qed.

(** X20. The frame budget can strand a task: when the budget test fires
    for the first time right after the step call that returns null (the
    last index batch), [processNext] saves the null continuation and
    returns true; the chunk is fully generated, but the task stays in the
    table in status generating with no continuation, and its promise is
    not settled.  Such a task is not picked again: when no other task can
    be worked on, every later call returns false and changes nothing. *)
Theorem processNext_over_budget_at_last_call (over_budget : nat -> bool)
    (fuel : nat) (s : Runtime) (key : Key) (task : ChunkGenerationTask)
    (ref : ChunkRef) (c : Chunk)
    (Hsel : select_task s = Some (key, task))
    (Hstatus : status task = pending)
    (Hchunk : getChunk (task_chunkHex task) (rt_world s) = Some ref)
    (Hobj : objects (rt_world s) !! ref = Some c)
    (Hpos : positionHex c = task_chunkHex task)
    (Hrings : 0 <= task_rings task)
    (Hfuel : (pipeline_calls (task_rings task) (task_chunkHex task) <= fuel)%nat)
    (Hover : forall i,
        (i < pipeline_calls (task_rings task) (task_chunkHex task) - 1)%nat ->
        over_budget i = false)
    (Hhit : over_budget
              (pipeline_calls (task_rings task) (task_chunkHex task) - 1)%nat
            = true) :
  let center := task_chunkHex task in
  let g := generateHexGrid (task_rings task) (hex_q center) (hex_r center) in
  exists s' task',
    processNext over_budget fuel s = Some (true, s') /\
    rt_world s'
    = publish_tiles center (map fresh_tile g)
        (with_objects
           (<[ref := initialized_chunk (task_rings task) c]>
              (objects (rt_world s)))
           (rt_world s)) /\
    rt_tasks s' = <[key := task']> (rt_tasks s) /\
    rt_order s' = rt_order s /\
    rt_settled s' = rt_settled s /\
    status task' = generating /\
    task_currentStep task' = None /\
    promise task' = promise task /\
    forall over_budget' fuel',
      (forall key' t', key' <> key -> rt_tasks s !! key' = Some t' ->
                       ready t' = false) ->
      processNext over_budget' fuel' s' = Some (false, s').
Proof.
  intros center g.
  pose proof (select_task_facts s) as Hfacts. rewrite Hsel in Hfacts.
  destruct Hfacts as (Hin & Ht & _).
  pose proof (drive_pipeline (task_rings task) center (rt_world s) ref c
                (task_hexSize task) 0 Hrings Hobj Hpos) as Hdrive.
  cbn zeta in Hdrive. rewrite Nat.add_0_r in Hdrive. fold g in Hdrive.
  destruct (drive_pipeline_last (task_rings task) center (rt_world s) ref c
              (task_hexSize task) Hrings Hobj Hpos)
    as (wj & statej & stepj & Hj & Hlast).
  rewrite Hdrive in Hlast. cbn [fst] in Hlast.
  set (state := createProcessingState ref (task_rings task) (task_hexSize task)
                  center) in *.
  set (t0 := with_task_currentStep (Some StepGenerateGrid)
               (with_processingState (Some state) (with_status generating task))).
  assert (Hm : (0 < pipeline_calls (task_rings task) center)%nat)
    by (unfold pipeline_calls; lia).
  eexists _, _. split; [|split_and!].
  - unfold processNext. rewrite (tasks_size_lookup s key task Ht), Hsel, Hstatus.
    cbn [with_task rt_world]. rewrite Hchunk. fold center state.
    eapply (steps_loop_pauses over_budget key task
              (pipeline_calls (task_rings task) center - 1) _ _ _ _ _ t0).
    + fold center in Hfuel. lia.
    + intros i Hi. cbn [Nat.add]. now apply Hover.
    + cbn [Nat.add]. exact Hhit.
    + cbn [rt_tasks with_task with_world]. rewrite !lookup_alter_eq, Ht.
      reflexivity.
    + cbn [rt_world]. exact Hj.
    + exact Hlast.
  - reflexivity.
  - cbn [rt_tasks with_task with_world]. now rewrite !insert_alter_same.
  - reflexivity.
  - reflexivity.
  - reflexivity.
  - reflexivity.
  - reflexivity.
  - intros over_budget' fuel' Hothers. apply processNext_no_ready.
    cbn [rt_order rt_tasks with_task with_world]. intros key' t' _ Hlook.
    destruct (decide (key' = key)) as [->|Hne].
    + rewrite lookup_insert_eq in Hlook. now injection Hlook as <-.
    + rewrite lookup_insert_ne in Hlook by congruence.
      rewrite !lookup_alter_ne in Hlook by congruence.
      now apply (Hothers key').
Qed.

Lemma processNext_over_budget_at_last_call_witness :
  let task := mkTask (mkHex 0 0) 1 1%R 0 pending (task_promise 0) None None in
  let c := new_Chunk (mkHex 0 0) 1%R in
  let w := with_chunks {[ (0, 0) := 0%nat ]}
             (with_objects {[ 0%nat := c ]} empty_World) in
  let s := mkRuntime w {[ (0, 0) := task ]} [(0, 0)] [] in
  let over_budget := fun n => (n =? 2)%nat in
  exists s' task',
    processNext over_budget 3 s = Some (true, s') /\
    rt_world s'
    = publish_tiles (mkHex 0 0) (map fresh_tile (generateHexGrid 1 0 0))
        (with_objects (<[0%nat := initialized_chunk 1 c]> (objects w)) w) /\
    rt_tasks s' = <[(0, 0) := task']> (rt_tasks s) /\
    rt_order s' = rt_order s /\
    rt_settled s' = rt_settled s /\
    status task' = generating /\
    task_currentStep task' = None /\
    promise task' = promise task /\
    forall over_budget' fuel',
      (forall key' t', key' <> (0, 0) -> rt_tasks s !! key' = Some t' ->
                       ready t' = false) ->
      processNext over_budget' fuel' s' = Some (false, s').
Proof.
  intros task c w s over_budget.
  apply (processNext_over_budget_at_last_call over_budget 3 s (0, 0) task
           0%nat c).
  - vm_compute. reflexivity.
  - reflexivity.
  - reflexivity.
  - reflexivity.
  - reflexivity.
  - cbn. lia.
  - vm_compute. lia.
  - intros i Hi. assert (Hi' : (i < 2)%nat) by (vm_compute in Hi; lia).
    subst over_budget. cbn beta. apply Nat.eqb_neq. lia.
  - reflexivity.
Defined.

End Stranding.

Section ProcessNextFrame.

(** What a run of the loop can change: the task it works on, deleted or
    with new progress, the world, and settle calls on the promise of that
    task. *)
Lemma steps_loop_frame (over_budget : nat -> bool) (key : Key)
    (task : ChunkGenerationTask) (fuel : nat) :
  getTaskKey (task_chunkHex task) = key ->
  forall (n : nat) (step : ProcessingStep) (state : ChunkGenerationState)
         (s : Runtime) (b : bool) (s' : Runtime),
    steps_loop over_budget fuel n key task step state s = Some (b, s') ->
    (forall key', key' <> key -> rt_tasks s' !! key' = rt_tasks s !! key') /\
    (forall key', key' <> key -> In key' (rt_order s) -> In key' (rt_order s')) /\
    (forall x, In x (rt_settled s') ->
               In x (rt_settled s) \/ fst x = promise task).
Proof.
  intros Hkey. induction fuel as [|fuel IH];
    intros n step state s b s' Hrun; [discriminate|].
  cbn [steps_loop] in Hrun.
  destruct (run_step step (rt_world s, state)) as [[w1 state1] next].
  destruct (over_budget n).
  - injection Hrun as <- <-. cbn [with_task with_world rt_tasks rt_order rt_settled].
    split_and!.
    + intros key' Hne. now rewrite !lookup_alter_ne by congruence.
    + tauto.
    + tauto.
  - destruct next as [next|].
    + apply IH in Hrun. destruct Hrun as (Htasks & Horder & Hsettled).
      cbn [with_task with_world rt_tasks rt_order rt_settled] in *.
      split_and!.
      * intros key' Hne. rewrite Htasks by exact Hne.
        now rewrite !lookup_alter_ne by congruence.
      * exact Horder.
      * exact Hsettled.
    + injection Hrun as <- <-. rewrite Hkey.
      cbn [tasks_delete settle with_task with_world rt_tasks rt_order rt_settled].
      split_and!.
      * intros key' Hne. rewrite lookup_delete_ne by congruence.
        now rewrite !lookup_alter_ne by congruence.
      * intros key' Hne Hin. apply filter_In. split; [exact Hin|].
        now rewrite bool_decide_eq_false_2.
      * intros x Hx. apply in_app_or in Hx. destruct Hx as [Hx|[<-|[]]];
          [now left|now right].
Qed.

Lemma fail_task_frame (key : Key) (task : ChunkGenerationTask)
    (message : String.string) (s : Runtime) :
  getTaskKey (task_chunkHex task) = key ->
  let s' := snd (fail_task key task message s) in
  (forall key', key' <> key -> rt_tasks s' !! key' = rt_tasks s !! key') /\
  (forall key', key' <> key -> In key' (rt_order s) -> In key' (rt_order s')) /\
  (forall x, In x (rt_settled s') ->
             In x (rt_settled s) \/ fst x = promise task).
Proof.
  intros Hkey. unfold fail_task. rewrite Hkey.
  cbn [snd tasks_delete settle with_task rt_tasks rt_order rt_settled].
  split_and!.
  - intros key' Hne. rewrite lookup_delete_ne by congruence.
    now rewrite lookup_alter_ne by congruence.
  - intros key' Hne Hin. apply filter_In. split; [exact Hin|].
    now rewrite bool_decide_eq_false_2.
  - intros x Hx. apply in_app_or in Hx. destruct Hx as [Hx|[<-|[]]];
      [now left|now right].
Qed.

(** X21. [processNext] never touches a task it cannot work on.  In a
    table whose tasks are held under the key of their chunk, a task that
    is neither pending nor generating with a continuation is left in the
    table exactly as it is by any call, whatever the budget and whichever
    task is worked on; its key keeps its place in the table, and every
    settle call the call makes is on the promise of another task of the
    table. *)
Theorem processNext_leaves_unready_task (over_budget : nat -> bool)
    (fuel : nat) (s : Runtime) (key : Key) (task : ChunkGenerationTask)
    (b : bool) (s' : Runtime)
    (Hkeys : forall k t, rt_tasks s !! k = Some t ->
                         getTaskKey (task_chunkHex t) = k)
    (Htask : rt_tasks s !! key = Some task)
    (Hunready : ready task = false)
    (Hrun : processNext over_budget fuel s = Some (b, s')) :
  rt_tasks s' !! key = Some task /\
  (In key (rt_order s) -> In key (rt_order s')) /\
  forall p how,
    In (p, how) (rt_settled s') ->
    In (p, how) (rt_settled s) \/
    exists key' task',
      key' <> key /\ rt_tasks s !! key' = Some task' /\ p = promise task'.
Proof.
  unfold processNext in Hrun.
  destruct (size (rt_tasks s) =? 0)%nat.
  { injection Hrun as <- <-. split_and!; [exact Htask|tauto|]. intros; now left. }
  pose proof (select_task_facts s) as Hfacts.
  destruct (select_task s) as [[k t]|].
  2:{ injection Hrun as <- <-. split_and!; [exact Htask|tauto|]. intros; now left. }
  destruct Hfacts as (Hin & Ht & Hready & _).
  assert (Hne : key <> k) by (intros ->; congruence).
  pose proof (Hkeys k t Ht) as Hk.
  assert (Hframe :
    (forall key', key' <> k -> rt_tasks s' !! key' = rt_tasks s !! key') /\
    (forall key', key' <> k -> In key' (rt_order s) -> In key' (rt_order s')) /\
    (forall x, In x (rt_settled s') -> In x (rt_settled s) \/ fst x = promise t)).
  { destruct (status t) eqn:Hst.
    - destruct (getChunk (task_chunkHex t) _) as [existing|].
      + apply (steps_loop_frame _ _ _ _ Hk) in Hrun.
        cbn [with_task rt_tasks rt_order rt_settled] in Hrun.
        destruct Hrun as (H1 & H2 & H3). split_and!; try assumption.
        intros key' Hne'. rewrite H1 by exact Hne'.
        now rewrite !lookup_alter_ne by congruence.
      + injection Hrun as <- <-.
        destruct (fail_task_frame k t ErrorMessages.placeholder_not_found
                    (with_task k (with_status generating) s) Hk)
          as (H1 & H2 & H3).
        cbn [with_task rt_tasks rt_order rt_settled] in *.
        split_and!; try assumption.
        intros key' Hne'. rewrite H1 by exact Hne'.
        now rewrite !lookup_alter_ne by congruence.
    - destruct (task_currentStep t) as [step|], (processingState t) as [state|];
        try (injection Hrun as <- <-;
             exact (fail_task_frame k t ErrorMessages.no_current_step s Hk)).
      exact (steps_loop_frame _ _ _ _ Hk _ _ _ _ _ _ Hrun).
    - destruct (task_currentStep t) as [step|], (processingState t) as [state|];
        try (injection Hrun as <- <-;
             exact (fail_task_frame k t ErrorMessages.no_current_step s Hk)).
      exact (steps_loop_frame _ _ _ _ Hk _ _ _ _ _ _ Hrun).
    - destruct (task_currentStep t) as [step|], (processingState t) as [state|];
        try (injection Hrun as <- <-;
             exact (fail_task_frame k t ErrorMessages.no_current_step s Hk)).
      exact (steps_loop_frame _ _ _ _ Hk _ _ _ _ _ _ Hrun). }
  destruct Hframe as (H1 & H2 & H3). split_and!.
  - now rewrite H1.
  - now apply H2.
  - intros p how Hx. destruct (H3 _ Hx) as [Hold|Hp]; [now left|].
    right. exists k, t. split_and!; [congruence|exact Ht|exact Hp].
Qed.

Lemma processNext_leaves_unready_task_witness :
  let stranded := mkTask (mkHex 0 0) 1 1%R 5 generating (task_promise 0)
                         None None in
  let waiting := mkTask (mkHex 3 0) 1 1%R 0 pending (task_promise 1)
                        None None in
  let s := mkRuntime empty_World
             {[ (0, 0) := stranded; (3, 0) := waiting ]} [(0, 0); (3, 0)] [] in
  let s' := snd (fail_task (3, 0) waiting ErrorMessages.placeholder_not_found
                   (with_task (3, 0) (with_status generating) s)) in
  rt_tasks s' !! (0, 0) = Some stranded /\
  (In (0, 0) (rt_order s) -> In (0, 0) (rt_order s')) /\
  forall p how,
    In (p, how) (rt_settled s') ->
    In (p, how) (rt_settled s) \/
    exists key' task',
      key' <> (0, 0) /\ rt_tasks s !! key' = Some task' /\ p = promise task'.
Proof.
  intros stranded waiting s s'.
  apply (processNext_leaves_unready_task (fun _ => false) 0 s (0, 0) stranded
           true s').
  - intros k t Hlook.
    destruct (decide (k = (0, 0))) as [->|H0].
    + vm_compute in Hlook. now injection Hlook as <-.
    + destruct (decide (k = (3, 0))) as [->|H3].
      * vm_compute in Hlook. now injection Hlook as <-.
      * subst s. cbn [rt_tasks] in Hlook.
        rewrite lookup_insert_ne in Hlook by congruence.
        rewrite lookup_singleton_ne in Hlook by congruence. discriminate.
  - vm_compute. reflexivity.
  - reflexivity.
  - vm_compute. reflexivity.
Defined.

End ProcessNextFrame.

Section Resumption.

Lemma select_task_highest (s : Runtime) (key : Key)
    (task : ChunkGenerationTask) :
  In key (rt_order s) -> rt_tasks s !! key = Some task -> ready task = true ->
  (forall key' task', key' <> key -> rt_tasks s !! key' = Some task' ->
                      priority task' < priority task) ->
  select_task s = Some (key, task).
Proof.
  intros Hin Ht Hready Hprio.
  pose proof (select_task_facts s) as Hfacts.
  destruct (select_task s) as [[k t]|].
  - destruct Hfacts as (_ & Hk & _ & Hmax).
    destruct (decide (k = key)) as [->|Hne]; [congruence|].
    pose proof (Hprio k t Hne Hk). pose proof (Hmax key task Hin Ht Hready). lia.
  - rewrite (Hfacts key task Hin Ht) in Hready. discriminate.
Qed.

(** X22. The frame budget only decides in which frame a step call
    happens.  A pending task of strictly highest priority whose first
    call of [processNext] is cut by the budget test before its last step
    call is resumed by the next call where it stopped (saved
    continuation, saved state); when that call stays within its budget,
    the world, the table and the settle calls end up exactly as after a
    single call that stayed within the budget. *)
Theorem processNext_resumes (over_budget over_budget' : nat -> bool)
    (fuel fuel' j : nat) (s : Runtime) (key : Key)
    (task : ChunkGenerationTask) (ref : ChunkRef) (c : Chunk)
    (Hin : In key (rt_order s))
    (Htask : rt_tasks s !! key = Some task)
    (Hprio : forall key' task',
        key' <> key -> rt_tasks s !! key' = Some task' ->
        priority task' < priority task)
    (Hstatus : status task = pending)
    (Hkey : getTaskKey (task_chunkHex task) = key)
    (Hchunk : getChunk (task_chunkHex task) (rt_world s) = Some ref)
    (Hobj : objects (rt_world s) !! ref = Some c)
    (Hpos : positionHex c = task_chunkHex task)
    (Hrings : 0 <= task_rings task)
    (Hj : (j < pipeline_calls (task_rings task) (task_chunkHex task) - 1)%nat)
    (Hfuel : (j < fuel)%nat)
    (Hover : forall i, (i < j)%nat -> over_budget i = false)
    (Hhit : over_budget j = true)
    (Hfuel' : (pipeline_calls (task_rings task) (task_chunkHex task) <= fuel')%nat)
    (Hover' : forall i,
        (i < pipeline_calls (task_rings task) (task_chunkHex task))%nat ->
        over_budget' i = false) :
  let center := task_chunkHex task in
  let g := generateHexGrid (task_rings task) (hex_q center) (hex_r center) in
  exists s1 s2,
    processNext over_budget fuel s = Some (true, s1) /\
    rt_settled s1 = rt_settled s /\
    processNext over_budget' fuel' s1 = Some (tasks_nonempty s2, s2) /\
    rt_world s2
    = publish_tiles center (map fresh_tile g)
        (with_objects
           (<[ref := initialized_chunk (task_rings task) c]>
              (objects (rt_world s)))
           (rt_world s)) /\
    rt_tasks s2 = delete key (rt_tasks s) /\
    rt_order s2 = List.filter (fun k => negb (bool_decide (k = key))) (rt_order s) /\
    rt_settled s2 = rt_settled s ++ [(promise task, Resolve ref)].
Proof.
  intros center g. fold center in Hj, Hfuel', Hover'.
  set (m := pipeline_calls (task_rings task) center) in *.
  assert (Hready : ready task = true) by (unfold ready; now rewrite Hstatus).
  pose proof (select_task_highest s key task Hin Htask Hready Hprio) as Hsel.
  pose proof (drive_pipeline (task_rings task) center (rt_world s) ref c
                (task_hexSize task) 0 Hrings Hobj Hpos) as Hdrive.
  cbn zeta in Hdrive. rewrite Nat.add_0_r in Hdrive. fold g m in Hdrive.
  destruct (drive_pipeline_last (task_rings task) center (rt_world s) ref c
              (task_hexSize task) Hrings Hobj Hpos)
    as (wl & statel & stepl & Hlast & _). fold m in Hlast.
  set (state := createProcessingState ref (task_rings task) (task_hexSize task)
                  center) in *.
  destruct (drive_Some_prefix _ _ _ _ _ j Hlast ltac:(lia))
    as ([wj statej] & stepj & Hdj).
  destruct (drive_Some_prefix _ _ _ _ _ (j + 1)%nat Hlast ltac:(lia))
    as ([w1 state1] & step1 & Hd1).
  assert (Hrun : run_step stepj (wj, statej) = (w1, state1, Some step1)).
  { rewrite drive_add, Hdj in Hd1. cbn [drive] in Hd1.
    now destruct (run_step stepj (wj, statej)) as [ws next]. }
  set (t0 := with_task_currentStep (Some StepGenerateGrid)
               (with_processingState (Some state) (with_status generating task))).
  set (t1 := with_task_currentStep (Some step1)
               (with_processingState (Some state1) t0)).
  set (s0 := with_task key
               (fun t => with_task_currentStep (Some StepGenerateGrid)
                           (with_processingState (Some state) t))
               (with_task key (with_status generating) s)).
  set (s1 := {| rt_world := w1; rt_tasks := <[key := t1]> (rt_tasks s0);
                rt_order := rt_order s0; rt_settled := rt_settled s0 |}).
  assert (Hfirst : processNext over_budget fuel s = Some (true, s1)).
  { unfold processNext. rewrite (tasks_size_lookup s key task Htask), Hsel, Hstatus.
    cbn [with_task rt_world]. rewrite Hchunk. fold center state.
    apply (steps_loop_pauses over_budget key task j fuel 0 StepGenerateGrid
             state s0 t0 wj statej stepj w1 state1 (Some step1)).
    - exact Hfuel.
    - intros i Hi. cbn [Nat.add]. now apply Hover.
    - exact Hhit.
    - subst s0. cbn [rt_tasks with_task]. rewrite !lookup_alter_eq, Htask.
      reflexivity.
    - exact Hdj.
    - exact Hrun. }
  assert (Ht1 : rt_tasks s1 !! key = Some t1) by apply lookup_insert_eq.
  assert (Hsel1 : select_task s1 = Some (key, t1)).
  { apply select_task_highest.
    - exact Hin.
    - exact Ht1.
    - reflexivity.
    - intros key' task' Hne Hlook. subst s1 s0.
      cbn [rt_tasks with_task] in Hlook.
      rewrite lookup_insert_ne in Hlook by congruence.
      rewrite !lookup_alter_ne in Hlook by congruence.
      exact (Hprio key' task' Hne Hlook). }
  assert (Hrest : drive (m - (j + 1)) (Some step1) (w1, state1)
                  = (publish_tiles center (map fresh_tile g)
                       (with_objects
                          (<[ref := initialized_chunk (task_rings task) c]>
                             (objects (rt_world s)))
                          (rt_world s)),
                     index_done_state
                       (with_currentStep LabelSpatialIndex
                          (grid_done_state state g (map fresh_tile g)))
                       (length g),
                     None)).
  { rewrite <- Hdrive.
    replace m with (j + 1 + (m - (j + 1)))%nat at 2 by lia.
    now rewrite drive_add, Hd1. }
  exists s1. eexists. split; [exact Hfirst|]. split; [reflexivity|].
  split.
  - unfold processNext. rewrite (tasks_size_lookup s1 key t1 Ht1), Hsel1.
    cbn [status t1 t0 with_task_currentStep with_processingState with_status
         task_currentStep processingState].
    apply (steps_loop_completes over_budget' key t1 (m - (j + 1)) Hkey).
    + lia.
    + intros i Hi. cbn [Nat.add]. apply Hover'. lia.
    + exact Hrest.
  - cbn [rt_world rt_tasks rt_order rt_settled s1 s0 with_task].
    rewrite delete_insert_eq, !delete_alter_eq. now split_and!.
Qed.

Lemma processNext_resumes_witness :
  let task := mkTask (mkHex 0 0) 1 1%R 0 pending (task_promise 0) None None in
  let c := new_Chunk (mkHex 0 0) 1%R in
  let w := with_chunks {[ (0, 0) := 0%nat ]}
             (with_objects {[ 0%nat := c ]} empty_World) in
  let s := mkRuntime w {[ (0, 0) := task ]} [(0, 0)] [] in
  exists s1 s2,
    processNext (fun _ => true) 1 s = Some (true, s1) /\
    rt_settled s1 = rt_settled s /\
    processNext (fun _ => false) 3 s1 = Some (tasks_nonempty s2, s2) /\
    rt_world s2
    = publish_tiles (mkHex 0 0) (map fresh_tile (generateHexGrid 1 0 0))
        (with_objects (<[0%nat := initialized_chunk 1 c]> (objects w)) w) /\
    rt_tasks s2 = delete (0, 0) (rt_tasks s) /\
    rt_order s2
    = List.filter (fun k => negb (bool_decide (k = (0, 0)))) (rt_order s) /\
    rt_settled s2 = rt_settled s ++ [(promise task, Resolve 0%nat)].
Proof.
  intros task c w s.
  apply (processNext_resumes (fun _ => true) (fun _ => false) 1 3 0 s (0, 0)
           task 0%nat c).
  - now left.
  - reflexivity.
  - intros key' task' Hne Hlook. subst s. cbn [rt_tasks] in Hlook.
    rewrite lookup_singleton_ne in Hlook by congruence. discriminate.
  - reflexivity.
  - reflexivity.
  - reflexivity.
  - reflexivity.
  - reflexivity.
  - cbn. lia.
  - vm_compute. lia.
  - lia.
  - intros i Hi. lia.
  - reflexivity.
  - vm_compute. lia.
  - reflexivity.
Defined.

End Resumption.

Section QueueInvariant.

Lemma keeps_task_compose (f g : ChunkGenerationTask -> ChunkGenerationTask) :
  keeps_task f -> keeps_task g -> keeps_task (f ∘ g).
Proof.
  intros Hf Hg t. unfold compose. destruct (Hf (g t)) as [H1 H2].
  destruct (Hg t) as [H3 H4]. split; [congruence|tauto].
Qed.

Lemma steps_loop_shape (over_budget : nat -> bool) (key : Key)
    (task : ChunkGenerationTask) (fuel : nat) :
  getTaskKey (task_chunkHex task) = key ->
  forall (n : nat) (step : ProcessingStep) (state : ChunkGenerationState)
         (s : Runtime) (b : bool) (s' : Runtime),
    steps_loop over_budget fuel n key task step state s = Some (b, s') ->
    (rt_order s' = rt_order s /\
     exists f, keeps_task f /\ rt_tasks s' = alter f key (rt_tasks s)) \/
    (rt_order s'
     = List.filter (fun k => negb (bool_decide (k = key))) (rt_order s) /\
     rt_tasks s' = delete key (rt_tasks s)).
Proof.
  intros Hkey. induction fuel as [|fuel IH];
    intros n step state s b s' Hrun; [discriminate|].
  cbn [steps_loop] in Hrun.
  destruct (run_step step (rt_world s, state)) as [[w1 state1] next].
  destruct (over_budget n).
  - injection Hrun as <- <-. left.
    cbn [with_task with_world rt_tasks rt_order]. split; [reflexivity|].
    eexists. split; [|apply alter_alter_eq].
    apply keeps_task_compose; intros t; now split.
  - destruct next as [next|].
    + apply IH in Hrun.
      cbn [with_task with_world rt_tasks rt_order] in Hrun.
      destruct Hrun as [[Ho (f & Hf & Ht)]|[Ho Ht]].
      * left. split; [exact Ho|]. eexists. split.
        2:{ rewrite Ht, !alter_alter_eq. reflexivity. }
        first [ apply keeps_task_compose; [apply keeps_task_compose|]
              | apply keeps_task_compose; [|apply keeps_task_compose] ];
          try exact Hf; intros t; now split.
      * right. split; [exact Ho|]. now rewrite Ht, !delete_alter_eq.
    + injection Hrun as <- <-. right. rewrite Hkey.
      cbn [tasks_delete settle with_task with_world rt_tasks rt_order].
      split; [reflexivity|]. now rewrite !delete_alter_eq.
Qed.

Lemma well_formed_alter (s s' : Runtime) (key : Key)
    (f : ChunkGenerationTask -> ChunkGenerationTask) :
  well_formed_queue s -> keeps_task f ->
  rt_order s' = rt_order s -> rt_tasks s' = alter f key (rt_tasks s) ->
  well_formed_queue s'.
Proof.
  intros (Hnd & Hdom & Htasks) Hf Ho Ht. unfold well_formed_queue.
  rewrite Ho, Ht. split_and!.
  - exact Hnd.
  - intros k. rewrite Hdom. symmetry. apply lookup_alter_is_Some.
  - intros k t Hlook. destruct (decide (k = key)) as [->|Hne].
    + rewrite lookup_alter_eq in Hlook.
      destruct (rt_tasks s !! key) as [t0|] eqn:E; [|discriminate].
      injection Hlook as <-. destruct (Htasks key t0 E) as [H1 H2].
      destruct (Hf t0) as [H3 H4]. split; [congruence|tauto].
    + rewrite lookup_alter_ne in Hlook by congruence. now apply Htasks.
Qed.

Lemma well_formed_delete (s s' : Runtime) (key : Key) :
  well_formed_queue s ->
  rt_order s' = List.filter (fun k => negb (bool_decide (k = key))) (rt_order s) ->
  rt_tasks s' = delete key (rt_tasks s) ->
  well_formed_queue s'.
Proof.
  intros (Hnd & Hdom & Htasks) Ho Ht. unfold well_formed_queue.
  rewrite Ho, Ht. split_and!.
  - now apply List.NoDup_filter.
  - intros k. rewrite filter_In, Hdom, lookup_delete_is_Some.
    rewrite negb_true_iff, bool_decide_eq_false. intuition congruence.
  - intros k t Hlook. apply lookup_delete_Some in Hlook. now apply Htasks.
Qed.

Lemma getPendingCount_size (s : Runtime) :
  well_formed_queue s -> getPendingCount s = size (rt_tasks s).
Proof.
  intros (Hnd & Hdom & Htasks). unfold getPendingCount.
  assert (Hall : List.filter (fun kt => counts_as_pending (snd kt))
                             (tasks_entries s) = tasks_entries s).
  { apply forallb_filter_id. apply forallb_forall. intros [k t] Hin.
    apply in_tasks_entries in Hin. now apply (Htasks k t). }
  rewrite Hall.
  assert (Hlen : length (tasks_entries s) = length (rt_order s)).
  { unfold tasks_entries.
    assert (Hsome : forall k, In k (rt_order s) -> is_Some (rt_tasks s !! k))
      by (intros k; apply Hdom).
    clear Hall Hnd Hdom. revert Hsome.
    induction (rt_order s) as [|k l IH]; intros Hsome; [reflexivity|].
    cbn [omap list_omap]. destruct (Hsome k ltac:(now left)) as [t ->].
    cbn. f_equal. apply IH. intros k' Hk'. apply Hsome. now right. }
  rewrite Hlen, <- size_dom.
  replace (dom (rt_tasks s)) with (list_to_set (rt_order s) : gset Key).
  - symmetry. apply size_list_to_set. now apply NoDup_ListNoDup.
  - apply set_eq. intros k.
    rewrite elem_of_list_to_set, elem_of_dom, list_elem_of_In. apply Hdom.
Qed.

(** X23. The shape of the table is kept by [processNext]: when the keys
    in insertion order are the keys of the table and every task is held
    under the key of its chunk in status pending or generating, the same
    holds after any call that returns, whatever the budget.  A finished
    or failed task never stays in the table, so [getPendingCount] is the
    number of tasks of the table, before and after. *)
Theorem processNext_keeps_table_shape (over_budget : nat -> bool)
    (fuel : nat) (s : Runtime) (b : bool) (s' : Runtime)
    (Hshape : well_formed_queue s)
    (Hrun : processNext over_budget fuel s = Some (b, s')) :
  well_formed_queue s' /\
  getPendingCount s' = size (rt_tasks s') /\
  getPendingCount s = size (rt_tasks s) /\
  (size (rt_tasks s') <= size (rt_tasks s))%nat.
Proof.
  assert (Hs' : (rt_order s' = rt_order s /\
                 exists key f, keeps_task f /\
                               rt_tasks s' = alter f key (rt_tasks s)) \/
                (exists key,
                   rt_order s'
                   = List.filter (fun k => negb (bool_decide (k = key)))
                                 (rt_order s) /\
                   rt_tasks s' = delete key (rt_tasks s))).
  { unfold processNext in Hrun.
    assert (Hid : rt_order s = rt_order s /\
                  exists key f, keeps_task f /\
                                rt_tasks s = alter f key (rt_tasks s)).
    { split; [reflexivity|]. exists (0, 0), (fun t => t).
      split; [intros t; now split|]. symmetry. now apply alter_id. }
    destruct (size (rt_tasks s) =? 0)%nat.
    { injection Hrun as <- <-. now left. }
    pose proof (select_task_facts s) as Hfacts.
    destruct (select_task s) as [[k t]|].
    2:{ injection Hrun as <- <-. now left. }
    destruct Hfacts as (Hin & Ht & _).
    destruct Hshape as (_ & _ & Htasks). destruct (Htasks k t Ht) as [Hk _].
    assert (Hfail : forall message s0 f,
               keeps_task f -> rt_order s0 = rt_order s ->
               rt_tasks s0 = alter f k (rt_tasks s) ->
               Some (fail_task k t message s0) = Some (b, s') ->
               exists key,
                 rt_order s'
                 = List.filter (fun k => negb (bool_decide (k = key)))
                               (rt_order s) /\
                 rt_tasks s' = delete key (rt_tasks s)).
    { intros message s0 f Hf Ho Ht0 Heq. injection Heq as <- <-.
      exists k. unfold fail_task. rewrite Hk.
      cbn [tasks_delete settle with_task rt_tasks rt_order].
      rewrite Ho, Ht0, !delete_alter_eq. now split. }
    assert (Hloop : forall n step state s0 f,
               keeps_task f -> rt_order s0 = rt_order s ->
               rt_tasks s0 = alter f k (rt_tasks s) ->
               steps_loop over_budget fuel n k t step state s0 = Some (b, s') ->
               (rt_order s' = rt_order s /\
                exists key f, keeps_task f /\
                              rt_tasks s' = alter f key (rt_tasks s)) \/
               (exists key,
                  rt_order s'
                  = List.filter (fun k => negb (bool_decide (k = key)))
                                (rt_order s) /\
                  rt_tasks s' = delete key (rt_tasks s))).
    { intros n step state s0 f Hf Ho Ht0 Hloop.
      apply (steps_loop_shape _ _ _ _ Hk) in Hloop.
      destruct Hloop as [[Ho' (f' & Hf' & Ht')]|[Ho' Ht']].
      - left. split; [congruence|]. exists k, (f' ∘ f). split.
        + now apply keeps_task_compose.
        + rewrite Ht', Ht0. apply alter_alter_eq.
      - right. exists k. rewrite Ho', Ht', Ho, Ht0, delete_alter_eq. now split. }
    assert (Hkeep_id : rt_tasks s = alter (fun t => t) k (rt_tasks s)).
    { symmetry. now apply alter_id. }
    assert (Hkid : keeps_task (fun t => t)) by (intros t0; now split).
    destruct (status t) eqn:Hst.
    - destruct (getChunk (task_chunkHex t) _) as [existing|].
      + eapply (Hloop _ _ _ _
                  ((fun t0 => with_task_currentStep (Some StepGenerateGrid)
                                (with_processingState _ t0))
                   ∘ with_status generating)); [| | |exact Hrun].
        * intros t0. now split.
        * reflexivity.
        * cbn [with_task rt_tasks]. apply alter_alter_eq.
      + right. eapply (Hfail _ _ (with_status generating)); [| | |exact Hrun].
        * intros t0. now split.
        * reflexivity.
        * reflexivity.
    - destruct (task_currentStep t) as [step|], (processingState t) as [state|];
        try (right; now apply (Hfail _ s (fun t => t) Hkid eq_refl Hkeep_id Hrun)).
      now apply (Hloop _ _ _ s (fun t => t) Hkid eq_refl Hkeep_id Hrun).
    - destruct (task_currentStep t) as [step|], (processingState t) as [state|];
        try (right; now apply (Hfail _ s (fun t => t) Hkid eq_refl Hkeep_id Hrun)).
      now apply (Hloop _ _ _ s (fun t => t) Hkid eq_refl Hkeep_id Hrun).
    - destruct (task_currentStep t) as [step|], (processingState t) as [state|];
        try (right; now apply (Hfail _ s (fun t => t) Hkid eq_refl Hkeep_id Hrun)).
      now apply (Hloop _ _ _ s (fun t => t) Hkid eq_refl Hkeep_id Hrun). }
  assert (Hshape' : well_formed_queue s').
  { destruct Hs' as [[Ho (key & f & Hf & Ht)]|(key & Ho & Ht)].
    - exact (well_formed_alter s s' key f Hshape Hf Ho Ht).
    - exact (well_formed_delete s s' key Hshape Ho Ht). }
  split_and!.
  - exact Hshape'.
  - now apply getPendingCount_size.
  - now apply getPendingCount_size.
  - destruct Hs' as [[Ho (key & f & Hf & Ht)]|(key & Ho & Ht)]; rewrite Ht.
    + rewrite <- !size_dom, dom_alter_L. lia.
    + rewrite <- !size_dom, dom_delete_L.
      apply subseteq_size. now apply subseteq_difference_l.
Qed.

Lemma processNext_keeps_table_shape_witness :
  let task := mkTask (mkHex 0 0) 1 1%R 0 pending (task_promise 0) None None in
  let s := mkRuntime empty_World {[ (0, 0) := task ]} [(0, 0)] [] in
  let s' := snd (fail_task (0, 0) task ErrorMessages.placeholder_not_found
                   (with_task (0, 0) (with_status generating) s)) in
  well_formed_queue s' /\
  getPendingCount s' = size (rt_tasks s') /\
  getPendingCount s = size (rt_tasks s) /\
  (size (rt_tasks s') <= size (rt_tasks s))%nat.
Proof.
  intros task s s'.
  apply (processNext_keeps_table_shape (fun _ => false) 0 s false s').
  - split_and!.
    + repeat constructor. intros [].
    + intros k. destruct (decide (k = (0, 0))) as [->|Hne].
      * split; [intros _; now eexists|intros _; now left].
      * subst s. cbn [rt_order rt_tasks].
        rewrite lookup_singleton_ne by congruence. split.
        -- intros [H|[]]. congruence.
        -- intros [x Hx]. discriminate.
    + intros k t Hlook. subst s. cbn [rt_tasks] in Hlook.
      destruct (decide (k = (0, 0))) as [->|Hne].
      * rewrite lookup_singleton_eq in Hlook. now injection Hlook as <-.
      * rewrite lookup_singleton_ne in Hlook by congruence. discriminate.
  - vm_compute. reflexivity.
Defined.

End QueueInvariant.

Section FloatingOriginRebase.

Local Open Scope R_scope.

Lemma Vector3_Distance_same (a : Vector3) : Vector3_Distance a a = 0.
Proof.
  unfold Vector3_Distance.
  replace ((vx a - vx a) * (vx a - vx a) + (vy a - vy a) * (vy a - vy a)
           + (vz a - vz a) * (vz a - vz a)) with 0 by ring.
  apply sqrt_0.
Qed.

Lemma Vector3_shift_relative (p a offset : Vector3) :
  Vector3_subtract (Vector3_subtract p offset) (Vector3_subtract a offset)
  = Vector3_subtract p a.
Proof.
  destruct p as [px py pz], a as [ax ay az], offset as [ox oy oz].
  unfold Vector3_subtract. cbn. f_equal; ring.
Qed.

Lemma Vector3_shift_to_origin (a c0 : Vector3) :
  Vector3_subtract a (Vector3_subtract a c0) = c0.
Proof.
  destruct a as [ax ay az], c0 as [cx cy cz].
  unfold Vector3_subtract. cbn. f_equal; ring.
Qed.

(** X24. A rebase of the floating origin keeps the scene rigid.  With
    [offset] the absolute position of the avatar minus the old origin:
    the avatar's position is shifted by [offset], so that an avatar whose
    world matrix was up to date (position and absolute position the same)
    lands on the position of the old origin; the absolute position the
    mesh reports stays the one read; the new origin is that absolute
    position; every other mesh and every light with a position keeps its
    position relative to the avatar; lights without a position stay
    without one, and the threshold is unchanged. *)
Theorem rebase_keeps_relative_positions (cm : CanvasManager) (sc : Scene)
    (mesh : Mesh)
    (Hscene : scene cm = Some sc)
    (Hplayer : player cm = true)
    (Hmesh : avatarMesh sc = Some mesh)
    (Hfar : Rgtb (Vector3_Distance (absolutePosition mesh)
                                   (currentFloatingOrigin cm))
                 (floatingOriginThreshold cm) = true) :
  let cm' := updateFloatingOrigin cm in
  let offset :=
      Vector3_subtract (absolutePosition mesh) (currentFloatingOrigin cm) in
  exists sc' mesh',
    scene cm' = Some sc' /\
    avatarMesh sc' = Some mesh' /\
    position mesh' = Vector3_subtract (position mesh) offset /\
    absolutePosition mesh' = absolutePosition mesh /\
    (position mesh = absolutePosition mesh ->
     position mesh' = currentFloatingOrigin cm) /\
    currentFloatingOrigin cm' = absolutePosition mesh /\
    floatingOriginThreshold cm' = floatingOriginThreshold cm /\
    length (otherMeshes sc') = length (otherMeshes sc) /\
    length (lights sc') = length (lights sc) /\
    (forall i p, nth_error (otherMeshes sc) i = Some p ->
       exists p', nth_error (otherMeshes sc') i = Some p' /\
                  p' = Vector3_subtract p offset /\
                  Vector3_subtract p' (position mesh')
                  = Vector3_subtract p (position mesh)) /\
    (forall i p, nth_error (lights sc) i = Some (Some p) ->
       exists p', nth_error (lights sc') i = Some (Some p') /\
                  p' = Vector3_subtract p offset /\
                  Vector3_subtract p' (position mesh')
                  = Vector3_subtract p (position mesh)) /\
    (forall i, nth_error (lights sc) i = Some None ->
               nth_error (lights sc') i = Some None).
Proof.
  intros cm' offset. subst cm'. unfold updateFloatingOrigin.
  rewrite Hscene, Hplayer, Hmesh. cbv zeta. rewrite Hfar. fold offset.
  eexists _, _. split; [reflexivity|]. split; [reflexivity|].
  cbn [scene avatarMesh otherMeshes lights position absolutePosition
       currentFloatingOrigin floatingOriginThreshold].
  split_and!.
  - reflexivity.
  - reflexivity.
  - intros ->. subst offset. apply Vector3_shift_to_origin.
  - reflexivity.
  - reflexivity.
  - apply length_map.
  - apply length_map.
  - intros i p Hp. eexists. split_and!.
    + rewrite nth_error_map, Hp. reflexivity.
    + reflexivity.
    + apply Vector3_shift_relative.
  - intros i p Hp. eexists. split_and!.
    + rewrite nth_error_map, Hp. reflexivity.
    + reflexivity.
    + apply Vector3_shift_relative.
  - intros i Hp. now rewrite nth_error_map, Hp.
Qed.

Lemma rebase_keeps_relative_positions_witness :
  let mesh := mkMesh (mkVector3 1500 0 0) (mkVector3 1500 0 0) in
  let sc := mkScene (Some mesh) [mkVector3 1510 0 5]
                    [None; Some (mkVector3 0 100 0)] in
  let cm := mkCanvasManager (Some sc) true 1000 Vector3_Zero (mkHex 0 0) in
  let cm' := updateFloatingOrigin cm in
  let offset :=
      Vector3_subtract (absolutePosition mesh) (currentFloatingOrigin cm) in
  exists sc' mesh',
    scene cm' = Some sc' /\
    avatarMesh sc' = Some mesh' /\
    position mesh' = Vector3_subtract (position mesh) offset /\
    absolutePosition mesh' = absolutePosition mesh /\
    (position mesh = absolutePosition mesh ->
     position mesh' = currentFloatingOrigin cm) /\
    currentFloatingOrigin cm' = absolutePosition mesh /\
    floatingOriginThreshold cm' = floatingOriginThreshold cm /\
    length (otherMeshes sc') = length (otherMeshes sc) /\
    length (lights sc') = length (lights sc) /\
    (forall i p, nth_error (otherMeshes sc) i = Some p ->
       exists p', nth_error (otherMeshes sc') i = Some p' /\
                  p' = Vector3_subtract p offset /\
                  Vector3_subtract p' (position mesh')
                  = Vector3_subtract p (position mesh)) /\
    (forall i p, nth_error (lights sc) i = Some (Some p) ->
       exists p', nth_error (lights sc') i = Some (Some p') /\
                  p' = Vector3_subtract p offset /\
                  Vector3_subtract p' (position mesh')
                  = Vector3_subtract p (position mesh)) /\
    (forall i, nth_error (lights sc) i = Some None ->
               nth_error (lights sc') i = Some None).
Proof.
  intros mesh sc cm.
  apply (rebase_keeps_relative_positions cm sc mesh).
  - reflexivity.
  - reflexivity.
  - reflexivity.
  - apply Rgtb_true. unfold Vector3_Distance.
    cbn [vx vy vz Vector3_Zero mesh absolutePosition cm currentFloatingOrigin
         floatingOriginThreshold].
    replace ((1500 - 0) * (1500 - 0) + (0 - 0) * (0 - 0) + (0 - 0) * (0 - 0))
      with (1500 * 1500) by ring.
    rewrite sqrt_square by lra. lra.
Defined.

(** X25. With a threshold that is not negative, a second call of
    [updateFloatingOrigin] that follows the first with no frame rendered
    between them does nothing: after a rebase the origin is the absolute
    position the avatar mesh still reports, the distance between them is
    zero, and the meshes, the lights, the origin and the accumulated hex
    offset stay as the first call left them. *)
Theorem rebase_twice_same_frame (cm : CanvasManager)
    (Hthreshold : 0 <= floatingOriginThreshold cm) :
  updateFloatingOrigin (updateFloatingOrigin cm) = updateFloatingOrigin cm.
Proof.
  unfold updateFloatingOrigin at 2 3.
  destruct (scene cm) as [sc|] eqn:Hscene; [|unfold updateFloatingOrigin; now rewrite Hscene].
  destruct (player cm) eqn:Hplayer;
    [|unfold updateFloatingOrigin; now rewrite Hscene, Hplayer].
  destruct (avatarMesh sc) as [mesh|] eqn:Hmesh;
    [|unfold updateFloatingOrigin; now rewrite Hscene, Hplayer, Hmesh].
  cbv zeta.
  destruct (Rgtb (Vector3_Distance (absolutePosition mesh)
                                   (currentFloatingOrigin cm))
                 (floatingOriginThreshold cm)) eqn:Hfar.
  - unfold updateFloatingOrigin.
    cbn [scene player avatarMesh absolutePosition currentFloatingOrigin
         floatingOriginThreshold].
    rewrite Vector3_Distance_same, Rgtb_false by exact Hthreshold.
    reflexivity.
  - unfold updateFloatingOrigin. now rewrite Hscene, Hplayer, Hmesh, Hfar.
Qed.

Lemma rebase_twice_same_frame_witness :
  let mesh := mkMesh (mkVector3 1500 0 0) (mkVector3 1500 0 0) in
  let sc := mkScene (Some mesh) [mkVector3 1510 0 5]
                    [None; Some (mkVector3 0 100 0)] in
  let cm := mkCanvasManager (Some sc) true 1000 Vector3_Zero (mkHex 0 0) in
  0 <= floatingOriginThreshold cm /\
  currentFloatingOrigin (updateFloatingOrigin cm) = mkVector3 1500 0 0 /\
  updateFloatingOrigin (updateFloatingOrigin cm) = updateFloatingOrigin cm.
Proof.
  intros mesh sc cm.
  assert (Hthreshold : 0 <= floatingOriginThreshold cm) by (cbn; lra).
  split; [exact Hthreshold|]. split.
  - unfold updateFloatingOrigin.
    cbn [cm sc mesh scene player avatarMesh absolutePosition
         currentFloatingOrigin floatingOriginThreshold].
    rewrite Rgtb_true; [reflexivity|].
    unfold Vector3_Distance. cbn [vx vy vz Vector3_Zero].
    replace ((1500 - 0) * (1500 - 0) + (0 - 0) * (0 - 0) + (0 - 0) * (0 - 0))
      with (1500 * 1500) by ring.
    rewrite sqrt_square by lra. lra.
  - apply (rebase_twice_same_frame cm Hthreshold).
Defined.

End FloatingOriginRebase.

Section Footprints.

Lemma fold_widen_spec (l : list Cell) :
  forall b : Bounds,
    minX b <= maxX b -> minY b <= maxY b ->
    let b' := fold_left widen l b in
    (minX b' <= minX b /\ maxX b <= maxX b' /\
     minY b' <= minY b /\ maxY b <= maxY b') /\
    (forall c, In c l ->
       minX b' <= cell_x c <= maxX b' /\ minY b' <= cell_y c <= maxY b') /\
    (minX b' = minX b \/ exists c, In c l /\ cell_x c = minX b') /\
    (maxX b' = maxX b \/ exists c, In c l /\ cell_x c = maxX b') /\
    (minY b' = minY b \/ exists c, In c l /\ cell_y c = minY b') /\
    (maxY b' = maxY b \/ exists c, In c l /\ cell_y c = maxY b').
Proof.
  induction l as [|c l IH]; intros b Hx Hy.
  - cbn. split_and!; try lia; try (now left); try (intros c []).
  - cbn [fold_left]. set (b1 := widen b c).
    assert (H1 : minX b1 <= minX b /\ maxX b <= maxX b1 /\
                 minY b1 <= minY b /\ maxY b <= maxY b1 /\
                 minX b1 <= cell_x c <= maxX b1 /\
                 minY b1 <= cell_y c <= maxY b1 /\
                 (minX b1 = minX b \/ cell_x c = minX b1) /\
                 (maxX b1 = maxX b \/ cell_x c = maxX b1) /\
                 (minY b1 = minY b \/ cell_y c = minY b1) /\
                 (maxY b1 = maxY b \/ cell_y c = maxY b1)).
    { subst b1. unfold widen. cbn [minX maxX minY maxY].
      destruct (Z.ltb_spec (cell_x c) (minX b)), (Z.gtb_spec (cell_x c) (maxX b)),
               (Z.ltb_spec (cell_y c) (minY b)), (Z.gtb_spec (cell_y c) (maxY b));
        lia. }
    destruct H1 as (A1 & A2 & A3 & A4 & A5 & A6 & A7 & A8 & A9 & A10).
    specialize (IH b1 ltac:(lia) ltac:(lia)). cbn zeta in IH.
    destruct IH as ((B1 & B2 & B3 & B4) & Hall & C1 & C2 & C3 & C4).
    split_and!; try lia.
    + intros c' [<-|Hc']; [lia|now apply Hall].
    + destruct C1 as [C1|(c' & Hc' & C1)]; [|right; exists c'; split; [now right|exact C1]].
      destruct A7 as [A7|A7]; [left; lia|right; exists c; split; [now left|lia]].
    + destruct C2 as [C2|(c' & Hc' & C2)]; [|right; exists c'; split; [now right|exact C2]].
      destruct A8 as [A8|A8]; [left; lia|right; exists c; split; [now left|lia]].
    + destruct C3 as [C3|(c' & Hc' & C3)]; [|right; exists c'; split; [now right|exact C3]].
      destruct A9 as [A9|A9]; [left; lia|right; exists c; split; [now left|lia]].
    + destruct C4 as [C4|(c' & Hc' & C4)]; [|right; exists c'; split; [now right|exact C4]].
      destruct A10 as [A10|A10]; [left; lia|right; exists c; split; [now left|lia]].
Qed.

(** X26. The bounds of a footprint are tight: there are none for the
    empty footprint, and for any other every cell lies within the bounds
    and each of the four bounds is the coordinate of one of the cells.
    [validateFootprintBoundaries] holds exactly when the footprint is not
    empty and both sides of that bounding box count at least [minSize]
    cells. *)
Theorem footprint_bounds_tight (footprint : list Cell) (minSize : Z) :
  match calculateRectangularBoundary footprint with
  | None =>
      footprint = [] /\ validateFootprintBoundaries footprint minSize = false
  | Some b =>
      (forall c, In c footprint ->
         minX b <= cell_x c <= maxX b /\ minY b <= cell_y c <= maxY b) /\
      (exists c, In c footprint /\ cell_x c = minX b) /\
      (exists c, In c footprint /\ cell_x c = maxX b) /\
      (exists c, In c footprint /\ cell_y c = minY b) /\
      (exists c, In c footprint /\ cell_y c = maxY b) /\
      (validateFootprintBoundaries footprint minSize = true <->
       minSize <= maxX b - minX b + 1 /\ minSize <= maxY b - minY b + 1)
  end.
Proof.
  unfold validateFootprintBoundaries.
  destruct footprint as [|first rest]; [now split|].
  unfold calculateRectangularBoundary.
  set (b0 := {| minX := cell_x first; maxX := cell_x first;
                minY := cell_y first; maxY := cell_y first |}).
  pose proof (fold_widen_spec (first :: rest) b0 ltac:(cbn; lia) ltac:(cbn; lia))
    as H. cbn zeta in H.
  set (b := fold_left widen (first :: rest) b0) in *.
  destruct H as (_ & Hall & C1 & C2 & C3 & C4).
  assert (Hfirst : In first (first :: rest)) by now left.
  split_and!.
  - exact Hall.
  - destruct C1 as [C1|C1]; [exists first; split; [exact Hfirst|now rewrite C1]|exact C1].
  - destruct C2 as [C2|C2]; [exists first; split; [exact Hfirst|now rewrite C2]|exact C2].
  - destruct C3 as [C3|C3]; [exists first; split; [exact Hfirst|now rewrite C3]|exact C3].
  - destruct C4 as [C4|C4]; [exists first; split; [exact Hfirst|now rewrite C4]|exact C4].
  - rewrite andb_true_iff, !Z.geb_le. reflexivity.
Qed.

End Footprints.

Section RoadHelpers.

Lemma fold_nearer_spec (seed : HexCoord) (roadNetwork : list HexCoord) :
  forall acc : option (HexCoord * Z),
    match acc with
    | Some (p, d) => d = tile_distance seed p
    | None => True
    end ->
    match fold_left (nearer seed) roadNetwork acc with
    | Some (roadHex, d) =>
        d = tile_distance seed roadHex /\
        (In roadHex roadNetwork \/ exists d0, acc = Some (roadHex, d0)) /\
        (forall other, In other roadNetwork ->
           tile_distance seed roadHex <= tile_distance seed other) /\
        (forall p0 d0, acc = Some (p0, d0) -> tile_distance seed roadHex <= d0)
    | None => acc = None /\ roadNetwork = []
    end.
Proof.
  induction roadNetwork as [|roadHex rest IH]; intros acc Hacc.
  - cbn [fold_left]. destruct acc as [[p d]|]; [|now split].
    split_and!; [exact Hacc|right; now exists d|intros other []|].
    intros p0 d0 [= <- <-]. lia.
  - cbn [fold_left]. unfold nearer at 2.
    fold (tile_distance seed roadHex). set (d := tile_distance seed roadHex).
    destruct acc as [[p0 d0]|].
    + destruct (Z.ltb_spec d d0) as [Hlt|Hge].
      * specialize (IH (Some (roadHex, d)) eq_refl).
        destruct (fold_left (nearer seed) rest (Some (roadHex, d))) as [[best db]|].
        -- destruct IH as (Hd & Hsrc & Hmin & Hacc').
           specialize (Hacc' _ _ eq_refl). split_and!.
           ++ exact Hd.
           ++ destruct Hsrc as [Hsrc|[dx [= -> _]]]; left; [now right|now left].
           ++ intros other [<-|Ho]; [fold d; lia|now apply Hmin].
           ++ intros p1 d1 [= <- <-]. lia.
        -- destruct IH as [IH _]. discriminate.
      * specialize (IH (Some (p0, d0)) Hacc).
        destruct (fold_left (nearer seed) rest (Some (p0, d0))) as [[best db]|].
        -- destruct IH as (Hd & Hsrc & Hmin & Hacc').
           specialize (Hacc' _ _ eq_refl). split_and!.
           ++ exact Hd.
           ++ destruct Hsrc as [Hsrc|Hsrc]; [left; now right|now right].
           ++ intros other [<-|Ho]; [fold d; lia|now apply Hmin].
           ++ intros p1 d1 [= <- <-]. lia.
        -- destruct IH as [IH _]. discriminate.
    + specialize (IH (Some (roadHex, d)) eq_refl).
      destruct (fold_left (nearer seed) rest (Some (roadHex, d))) as [[best db]|].
      * destruct IH as (Hd & Hsrc & Hmin & Hacc').
        specialize (Hacc' _ _ eq_refl). split_and!.
        -- exact Hd.
        -- destruct Hsrc as [Hsrc|[dx [= -> _]]]; left; [now right|now left].
        -- intros other [<-|Ho]; [fold d; lia|now apply Hmin].
        -- intros p1 d1 [=].
      * destruct IH as [IH _]. discriminate.
Qed.

(** X27. [findNearestRoad] returns a hex of the road network that no
    other hex of the network beats in distance to the seed, and null
    exactly for the empty network. *)
Theorem findNearestRoad_nearest (seed : HexCoord) (roadNetwork : list HexCoord) :
  match findNearestRoad seed roadNetwork with
  | Some roadHex =>
      In roadHex roadNetwork /\
      forall other, In other roadNetwork ->
        distance (hex_q seed) (hex_r seed) (hex_q roadHex) (hex_r roadHex)
        <= distance (hex_q seed) (hex_r seed) (hex_q other) (hex_r other)
  | None => roadNetwork = []
  end.
Proof.
  unfold findNearestRoad. destruct roadNetwork as [|r0 rest]; [reflexivity|].
  pose proof (fold_nearer_spec seed (r0 :: rest) None I) as H.
  destruct (fold_left (nearer seed) (r0 :: rest) None) as [[roadHex d]|].
  - destruct H as (_ & Hsrc & Hmin & _). cbn [option_map fst]. split.
    + destruct Hsrc as [Hsrc|[d0 Hd0]]; [exact Hsrc|discriminate].
    + exact Hmin.
  - destruct H as [_ H]. discriminate.
Qed.

Lemma hex_key_inj (a b : HexCoord) :
  (hex_q a, hex_r a) = (hex_q b, hex_r b) <-> a = b.
Proof.
  destruct a, b. cbn. split; [now intros [= -> ->]|now intros [= -> ->]].
Qed.

Lemma road_set_spec (roadNetwork : list HexCoord) (s : gset Key) (k : Key) :
  k ∈ fold_left (fun s roadHex => {[ (hex_q roadHex, hex_r roadHex) ]} ∪ s) roadNetwork s
  <-> k ∈ s \/ exists roadHex, In roadHex roadNetwork /\ (hex_q roadHex, hex_r roadHex) = k.
Proof.
  revert s. induction roadNetwork as [|roadHex rest IH]; intros s; cbn [fold_left].
  - split; [now left|]. intros [H|(roadHex & [] & _)]. exact H.
  - rewrite IH, elem_of_union, elem_of_singleton. split.
    + intros [[->|H]|(roadHex' & Hin & Hk)].
      * right. exists roadHex. split; [now left|reflexivity].
      * now left.
      * right. exists roadHex'. split; [now right|exact Hk].
    + intros [H|(roadHex' & [<-|Hin] & Hk)].
      * left. now right.
      * left. left. now symmetry.
      * right. now exists roadHex'.
Qed.

(** The hexes the inner loop is after. *)
Lemma adjacent_step_spec (roadSet occupiedHexes : gset Key)
    (validTerrainHexes : list HexCoord) (l : list HexCoord) (s : gset Key)
    (n : HexCoord) :
  List.NoDup l ->
  (forall k, k ∈ s <-> exists h, In h l /\ (hex_q h, hex_r h) = k) ->
  let '(l', s') :=
    adjacent_step roadSet occupiedHexes validTerrainHexes (l, s) n in
  List.NoDup l' /\
  (forall k, k ∈ s' <-> exists h, In h l' /\ (hex_q h, hex_r h) = k) /\
  (exists suffix, l' = l ++ suffix) /\
  forall h, In h l' <->
    In h l \/
    (h = n /\ ((hex_q n, hex_r n) ∉ roadSet) /\
     ((hex_q n, hex_r n) ∉ occupiedHexes) /\ In n validTerrainHexes).
Proof.
  intros Hnd Hs. unfold adjacent_step.
  assert (Hvalid : existsb (fun hex => (hex_q hex =? hex_q n)
                                       && (hex_r hex =? hex_r n))
                           validTerrainHexes = true
                   <-> In n validTerrainHexes).
  { rewrite existsb_exists. split.
    - intros (h & Hin & Heq). apply andb_true_iff in Heq.
      rewrite !Z.eqb_eq in Heq. destruct Heq as [Hq Hr].
      assert (h = n) as <- by (apply hex_key_inj; congruence). exact Hin.
    - intros Hin. exists n. split; [exact Hin|]. now rewrite !Z.eqb_refl. }
  assert (Hmem : (hex_q n, hex_r n) ∈ s <-> In n l).
  { rewrite Hs. split.
    - intros (h & Hin & Hk). apply hex_key_inj in Hk. now subst h.
    - intros Hin. now exists n. }
  case_bool_decide as Hroad; cbn [orb].
  { split_and!; [exact Hnd|exact Hs|exists []; now rewrite app_nil_r|].
    intros h. split; [now left|]. intros [H|(-> & Hn & _)]; [exact H|contradiction]. }
  case_bool_decide as Hadded.
  { split_and!; [exact Hnd|exact Hs|exists []; now rewrite app_nil_r|].
    intros h. split; [now left|]. intros [H|(-> & _)]; [exact H|now apply Hmem]. }
  case_bool_decide as Hocc.
  { split_and!; [exact Hnd|exact Hs|exists []; now rewrite app_nil_r|].
    intros h. split; [now left|].
    intros [H|(-> & _ & Hn & _)]; [exact H|contradiction]. }
  destruct (existsb _ validTerrainHexes) eqn:Hex.
  - assert (Hin : In n validTerrainHexes) by (now apply Hvalid).
    clear Hex. rename Hin into Hex. split_and!.
    + apply NoDup_ListNoDup, NoDup_app. split_and!.
      * now apply NoDup_ListNoDup.
      * intros x Hx Hn. apply list_elem_of_In in Hx, Hn.
        destruct Hn as [<-|[]]. apply Hadded, Hmem. exact Hx.
      * apply NoDup_singleton.
    + intros k. rewrite elem_of_union, elem_of_singleton, Hs. split.
      * intros [->|(h & Hin & Hk)].
        -- exists n. split; [apply in_or_app; right; now left|reflexivity].
        -- exists h. split; [apply in_or_app; now left|exact Hk].
      * intros (h & Hin & Hk). apply in_app_or in Hin.
        destruct Hin as [Hin|[<-|[]]]; [right; now exists h|left; now symmetry].
    + now exists [n].
    + intros h. rewrite in_app_iff. cbn [In]. split.
      * intros [H|[<-|[]]]; [now left|right; now split_and!].
      * intros [H|(-> & _)]; [now left|right; now left].
  - split_and!; [exact Hnd|exact Hs|exists []; now rewrite app_nil_r|].
    intros h. split; [now left|].
    intros [H|(-> & _ & _ & Hn)]; [exact H|].
    apply Hvalid in Hn. discriminate.
Qed.

Lemma adjacent_fold_spec (roadSet occupiedHexes : gset Key)
    (validTerrainHexes ns : list HexCoord) :
  forall (l : list HexCoord) (s : gset Key),
    List.NoDup l ->
    (forall k, k ∈ s <-> exists h, In h l /\ (hex_q h, hex_r h) = k) ->
    let '(l', s') :=
      fold_left (adjacent_step roadSet occupiedHexes validTerrainHexes) ns (l, s) in
    List.NoDup l' /\
    (forall k, k ∈ s' <-> exists h, In h l' /\ (hex_q h, hex_r h) = k) /\
    forall h, In h l' <->
      In h l \/
      (In h ns /\ ((hex_q h, hex_r h) ∉ roadSet) /\
       ((hex_q h, hex_r h) ∉ occupiedHexes) /\ In h validTerrainHexes).
Proof.
  induction ns as [|n ns IH]; intros l s Hnd Hs.
  - cbn [fold_left]. split_and!; [exact Hnd|exact Hs|].
    intros h. split; [now left|]. intros [H|([] & _)]. exact H.
  - cbn [fold_left].
    pose proof (adjacent_step_spec roadSet occupiedHexes validTerrainHexes
                  l s n Hnd Hs) as Hstep.
    destruct (adjacent_step roadSet occupiedHexes validTerrainHexes (l, s) n)
      as [l1 s1].
    destruct Hstep as (Hnd1 & Hs1 & _ & Hin1).
    specialize (IH l1 s1 Hnd1 Hs1).
    destruct (fold_left _ ns (l1, s1)) as [l' s'].
    destruct IH as (Hnd' & Hs' & Hin'). split_and!; [exact Hnd'|exact Hs'|].
    intros h. rewrite Hin', Hin1. cbn [In]. split.
    + intros [[H|(-> & H)]|(Hn & H)].
      * now left.
      * right. split; [now left|exact H].
      * right. split; [now right|exact H].
    + intros [H|([<-|Hn] & H)].
      * left. now left.
      * left. right. now split.
      * right. now split.
Qed.

(** X28. [getAdjacentValidTerrain] returns, each once, exactly the hexes
    that are at distance 1 from a hex of the road network, are not
    themselves in the network, are not occupied, and are among the valid
    terrain hexes. *)
Theorem getAdjacentValidTerrain_spec (roadNetwork validTerrainHexes : list HexCoord)
    (occupiedHexes : gset Key) :
  List.NoDup (getAdjacentValidTerrain roadNetwork validTerrainHexes occupiedHexes) /\
  forall h,
    In h (getAdjacentValidTerrain roadNetwork validTerrainHexes occupiedHexes)
    <->
    (exists roadHex, In roadHex roadNetwork /\
       distance (hex_q roadHex) (hex_r roadHex) (hex_q h) (hex_r h) = 1) /\
    ~ In h roadNetwork /\
    ((hex_q h, hex_r h) ∉ occupiedHexes) /\
    In h validTerrainHexes.
Proof.
  unfold getAdjacentValidTerrain.
  set (roadSet := fold_left _ roadNetwork ∅).
  assert (Hroad : forall h, (hex_q h, hex_r h) ∈ roadSet <-> In h roadNetwork).
  { intros h. subst roadSet. rewrite road_set_spec. split.
    - intros [H|(roadHex & Hin & Hk)]; [now apply not_elem_of_empty in H|].
      apply hex_key_inj in Hk. now subst roadHex.
    - intros Hin. right. now exists h. }
  assert (Hgen : forall roads (l : list HexCoord) (s : gset Key),
    List.NoDup l ->
    (forall k, k ∈ s <-> exists h, In h l /\ (hex_q h, hex_r h) = k) ->
    let '(l', s') :=
      fold_left
        (fun acc roadHex =>
           fold_left (adjacent_step roadSet occupiedHexes validTerrainHexes)
                     (HEX_UTILS.getNeighbors (hex_q roadHex) (hex_r roadHex)) acc)
        roads (l, s) in
    List.NoDup l' /\
    forall h, In h l' <->
      In h l \/
      ((exists roadHex, In roadHex roads /\
          In h (HEX_UTILS.getNeighbors (hex_q roadHex) (hex_r roadHex))) /\
       ((hex_q h, hex_r h) ∉ roadSet) /\
       ((hex_q h, hex_r h) ∉ occupiedHexes) /\ In h validTerrainHexes)).
  { induction roads as [|roadHex roads IH]; intros l s Hnd Hs.
    - cbn [fold_left]. split; [exact Hnd|]. intros h. split; [now left|].
      intros [H|((roadHex & [] & _) & _)]. exact H.
    - cbn [fold_left].
      pose proof (adjacent_fold_spec roadSet occupiedHexes validTerrainHexes
                    (HEX_UTILS.getNeighbors (hex_q roadHex) (hex_r roadHex))
                    l s Hnd Hs) as Hfold.
      destruct (fold_left (adjacent_step _ _ _) _ (l, s)) as [l1 s1].
      destruct Hfold as (Hnd1 & Hs1 & Hin1).
      specialize (IH l1 s1 Hnd1 Hs1).
      destruct (fold_left _ roads (l1, s1)) as [l' s'].
      destruct IH as (Hnd' & Hin'). split; [exact Hnd'|].
      intros h. rewrite Hin', Hin1. split.
      + intros [[H|(Hn & H)]|((roadHex' & Hr & Hn) & H)].
        * now left.
        * right. split; [exists roadHex; split; [now left|exact Hn]|exact H].
        * right. split; [exists roadHex'; split; [now right|exact Hn]|exact H].
      + intros [H|((roadHex' & [<-|Hr] & Hn) & H)].
        * left. now left.
        * left. right. now split.
        * right. split; [now exists roadHex'|exact H]. }
  specialize (Hgen roadNetwork [] ∅ (List.NoDup_nil _)).
  destruct (fold_left _ roadNetwork ([], ∅)) as [l' s'].
  destruct Hgen as (Hnd & Hin).
  { intros k. split; [intros H; now apply not_elem_of_empty in H|].
    intros (h & [] & _). }
  cbn [fst]. split; [exact Hnd|].
  intros h. rewrite Hin, Hroad. split.
  - intros [[]|((roadHex & Hr & Hn) & H1 & H2 & H3)].
    split_and!; try assumption. exists roadHex. split; [exact Hr|].
    now apply in_getNeighbors.
  - intros ((roadHex & Hr & Hd) & H1 & H2 & H3). right.
    split_and!; try assumption. exists roadHex. split; [exact Hr|].
    now apply in_getNeighbors.
Qed.

End RoadHelpers.

Module ConstraintParserRange.

Import Stdlib.Strings.String Stdlib.Strings.Ascii Stdlib.QArith.QArith.
Import ConstraintParser.
Local Open Scope string_scope.

Lemma search_inv (pattern : string -> option string) (s m : string) :
  search pattern s = Some m -> exists s', pattern s' = Some m.
Proof.
  induction s as [|c s IH]; cbn [search].
  - destruct (pattern "") eqn:E; [|discriminate]. intros [= <-]. now exists "".
  - destruct (pattern (String c s)) eqn:E.
    + intros [= <-]. now exists (String c s).
    + exact IH.
Qed.

Lemma span_first (f : ascii -> bool) (s : string) (c : ascii) (m rest : string) :
  span f s = (String c m, rest) -> f c = true.
Proof.
  destruct s as [|c0 s']; cbn [span]; [discriminate|].
  destruct (f c0) eqn:E; [|discriminate].
  destruct (span f s') as [a b]. intros H. injection H as <- _ _. exact E.
Qed.

(** The text the ratio pattern captures is not empty and starts with a
    digit or a dot. *)
Lemma grassRatioMatch_first (output text : string) :
  grassRatioMatch output = Some text ->
  exists c m, text = String c m /\ is_digit_or_dot c = true.
Proof.
  unfold grassRatioMatch. intros H. apply search_inv in H.
  destruct H as (s' & H). unfold field_at in H.
  destruct (literal_ci "grassRatio" s') as [[? rest]|]; [|discriminate].
  destruct (class_plus is_separator rest) as [[? rest']|]; [|discriminate].
  unfold class_plus in H.
  destruct (span is_digit_or_dot rest') as [m0 r0] eqn:Hspan.
  destruct m0 as [|c m]; [discriminate|]. cbn in H. injection H as <-.
  apply span_first in Hspan. now exists c, m.
Qed.

Lemma parseFloat_NaN (c : ascii) (m : string) :
  is_digit_or_dot c = true -> parseFloat (String c m) = num_NaN ->
  c = "."%char /\
  match m with
  | EmptyString => True
  | String c' _ => is_digit c' = false
  end.
Proof.
  unfold is_digit_or_dot, parseFloat. cbn [span].
  destruct (is_digit c) eqn:Hd.
  - intros _. destruct (span is_digit m) as [a b]. discriminate.
  - cbn [orb]. intros Hdot. rewrite Hdot.
    assert (Hc : c = "."%char).
    { apply Nat.eqb_eq in Hdot. unfold code in Hdot.
      rewrite <- (ascii_nat_embedding c), Hdot. reflexivity. }
    destruct m as [|c' m'].
    + intros _. now split.
    + cbn [span]. destruct (is_digit c') eqn:Hd'.
      * destruct (span is_digit m') as [a b]. discriminate.
      * intros _. now split.
Qed.

Section Range.

Variable JSON_parse : string -> option JSONValue.

(** X29. The grass ratio [parseLayoutConstraints] returns is a number of
    the interval [0, 1], with one exception: when no valid JSON object
    was found and the text captured after [grassRatio] is a dot that no
    digit follows, the ratio is [NaN].  A ratio from the JSON object is
    within the interval because the object is rejected otherwise; one
    from the fallback is clamped. *)
Theorem parseLayoutConstraints_ratio_range (output : string) :
  match grassRatio (parseLayoutConstraints JSON_parse output) with
  | num y => 0 <= y <= 1
  | num_NaN =>
      parse_json JSON_parse output = None /\
      exists rest,
        grassRatioMatch output = Some (String "." rest) /\
        match rest with
        | EmptyString => True
        | String c _ => is_digit c = false
        end
  end.
Proof.
  pose proof (ConstraintParserFacts.parseLayoutConstraints_ratio
                JSON_parse output) as H.
  destruct (grassRatio (parseLayoutConstraints JSON_parse output)) as [|y];
    [|exact H].
  destruct H as (Hjson & text & Hmatch & Hnan). split; [exact Hjson|].
  destruct (grassRatioMatch_first output text Hmatch) as (c & m & -> & Hc).
  destruct (parseFloat_NaN c m Hc Hnan) as [-> Hm].
  now exists m.
Qed.

End Range.

End ConstraintParserRange.

Section PathFinding.

Variable goal : HexCoord.
Variable isValid : Z -> Z -> bool.
Variable start : HexCoord.


Lemma last_cons_default {A : Type} (a d d' : A) (l : list A) :
  List.last (a :: l) d = List.last (a :: l) d'.
Proof.
  revert a. induction l as [|b l IH]; intros a; [reflexivity|].
  change (List.last (b :: l) d = List.last (b :: l) d'). apply IH.
Qed.

Lemma walk_app (from n : HexCoord) (l : list HexCoord) :
  walk isValid from l ->
  distance (hex_q (List.last (from :: l) from)) (hex_r (List.last (from :: l) from))
           (hex_q n) (hex_r n) = 1 ->
  isValid (hex_q n) (hex_r n) = true ->
  walk isValid from (l ++ [n]).
Proof.
  revert from. induction l as [|h l IH]; intros from Hw Hd Hv.
  - cbn in *. now split_and!.
  - cbn [app walk] in *. destruct Hw as (H1 & H2 & H3). split_and!; try assumption.
    apply IH; try assumption.
    change (List.last (from :: h :: l) from) with (List.last (h :: l) from) in Hd.
    now rewrite (last_cons_default h h from l).
Qed.

Lemma good_child (current : AStarNode) (neighbor : HexCoord) (g h f : Z) :
  good_node isValid start current ->
  In neighbor (HEX_UTILS.getNeighbors (node_q current) (node_r current)) ->
  isValid (hex_q neighbor) (hex_r neighbor) = true ->
  good_node isValid start (mkAStarNode (hex_q neighbor) (hex_r neighbor) g h f (Some current)).
Proof.
  intros (rest & Hpath & Hwalk & Hlast) Hn Hv.
  exists (rest ++ [neighbor]).
  assert (Heta : mkHex (hex_q neighbor) (hex_r neighbor) = neighbor)
    by now destruct neighbor.
  split_and!.
  - cbn [reconstruct_path]. now rewrite Hpath, Heta.
  - apply walk_app; try assumption. rewrite Hlast. cbn [hex_q hex_r].
    now apply in_getNeighbors.
  - cbn [node_q node_r]. rewrite Heta, app_comm_cons. apply List.last_last.
Qed.

Lemma lowest_f_in (openSet : OpenSet) (e : Key * AStarNode) :
  lowest_f openSet = Some e -> In e openSet.
Proof.
  unfold lowest_f.
  assert (H : forall best,
             fold_left lower_f openSet best = Some e ->
             In e openSet \/ best = Some e).
  { induction openSet as [|x l IH]; intros best; cbn [fold_left].
    - now right.
    - intros Hf. apply IH in Hf. destruct Hf as [Hf|Hf]; [left; now right|].
      unfold lower_f in Hf. destruct best as [[k b]|].
      + destruct (node_f (snd x) <? node_f b).
        * injection Hf as <-. left. now left.
        * now right.
      + injection Hf as <-. left. now left. }
  intros Hl. destruct (H None Hl) as [Hin|Hn]; [exact Hin|discriminate].
Qed.

Lemma openSet_set_in (key : Key) (node : AStarNode) (openSet : OpenSet)
    (e : Key * AStarNode) :
  In e (openSet_set key node openSet) -> In e openSet \/ e = (key, node).
Proof.
  induction openSet as [|x l IH]; cbn [openSet_set].
  - intros [<-|[]]. now right.
  - case_bool_decide.
    + intros [<-|Hin]; [now right|left; now right].
    + intros [<-|Hin]; [left; now left|].
      destruct (IH Hin) as [H'|H']; [left; now right|now right].
Qed.

Lemma explore_good (closedSet : gset Key) (current : AStarNode)
    (openSet : OpenSet) (neighbor : HexCoord) :
  good_node isValid start current ->
  In neighbor (HEX_UTILS.getNeighbors (node_q current) (node_r current)) ->
  (forall e, In e openSet -> good_node isValid start (snd e)) ->
  forall e, In e (explore goal isValid closedSet current openSet neighbor) ->
            good_node isValid start (snd e).
Proof.
  intros Hcur Hn Hall e. unfold explore.
  case_bool_decide; [apply Hall|].
  destruct (isValid (hex_q neighbor) (hex_r neighbor)) eqn:Hv; cbn [negb];
    [|apply Hall].
  assert (Hset : In e (openSet_set (hex_q neighbor, hex_r neighbor)
                         (mkAStarNode (hex_q neighbor) (hex_r neighbor)
                            (node_g current + 1)
                            (heuristic goal (hex_q neighbor) (hex_r neighbor))
                            (node_g current + 1
                             + heuristic goal (hex_q neighbor) (hex_r neighbor))
                            (Some current))
                         openSet) ->
                 good_node isValid start (snd e)).
  { intros Hin. apply openSet_set_in in Hin. destruct Hin as [Hin| ->].
    - now apply Hall.
    - cbn [snd]. now apply good_child. }
  destruct (openSet_get _ openSet) as [existingNode|]; [|exact Hset].
  destruct (node_g current + 1 <? node_g existingNode); [exact Hset|apply Hall].
Qed.

Lemma search_loop_sound (fuel : nat) :
  forall (openSet : OpenSet) (closedSet : gset Key) (path : list HexCoord),
    (forall e, In e openSet -> good_node isValid start (snd e)) ->
    search_loop goal isValid fuel openSet closedSet = Some (Some path) ->
    exists rest,
      path = start :: rest /\ walk isValid start rest /\
      List.last path start = goal.
Proof.
  induction fuel as [|fuel IH]; intros openSet closedSet path Hall Hrun;
    [discriminate|].
  cbn [search_loop] in Hrun.
  destruct (lowest_f openSet) as [[currentKey current]|] eqn:Hlow;
    [|discriminate].
  pose proof (Hall _ (lowest_f_in _ _ Hlow)) as Hcur. cbn [snd] in Hcur.
  destruct ((node_q current =? hex_q goal) && (node_r current =? hex_r goal))
    eqn:Hgoal.
  - injection Hrun as <-. destruct Hcur as (rest & Hpath & Hwalk & Hlast).
    exists rest. split_and!; [exact Hpath|exact Hwalk|].
    rewrite Hpath, Hlast. apply andb_true_iff in Hgoal.
    rewrite !Z.eqb_eq in Hgoal. destruct Hgoal as [-> ->]. now destruct goal.
  - apply IH in Hrun; [exact Hrun|].
    assert (Hdel : forall e, In e (openSet_delete currentKey openSet) ->
                             good_node isValid start (snd e)).
    { intros e He. apply filter_In in He. now apply Hall. }
    revert Hdel. generalize (openSet_delete currentKey openSet).
    assert (Hsub : forall n, In n (HEX_UTILS.getNeighbors (node_q current)
                                                          (node_r current)) ->
                             In n (HEX_UTILS.getNeighbors (node_q current)
                                                          (node_r current)))
      by tauto.
    revert Hsub.
    generalize (HEX_UTILS.getNeighbors (node_q current) (node_r current)) at 1 3.
    intros ns. induction ns as [|n ns IHn]; intros Hsub os Hos; [exact Hos|].
    cbn [fold_left]. apply IHn.
    + intros n' Hn'. apply Hsub. now right.
    + apply explore_good; [exact Hcur|apply Hsub; now left|exact Hos].
Qed.

(** X30. A path returned by [hexAStar] is a walk from the start to the
    goal: it begins with the start hex and ends with the goal hex, each
    hex is at distance 1 from the one before it, and every hex after the
    start passes [isValid].  A search that starts on the goal returns the
    one-hex path in its first iteration, whatever [isValid] says. *)
Theorem hexAStar_sound (fuel : nat) :
  (forall path : list HexCoord,
     hexAStar goal isValid fuel start = Some (Some path) ->
     exists rest,
       path = start :: rest /\ walk isValid start rest /\
       List.last path start = goal) /\
  hexAStar goal isValid (S fuel) goal = Some (Some [goal]).
Proof.
  split.
  - intros path Hfound.
    assert (Hstart : forall e,
               In e [((hex_q start, hex_r start),
                      mkAStarNode (hex_q start) (hex_r start) 0
                        (heuristic goal (hex_q start) (hex_r start))
                        (0 + heuristic goal (hex_q start) (hex_r start)) None)] ->
               good_node isValid start (snd e)).
    { intros e [<-|[]]. exists []. cbn. now destruct start. }
    exact (search_loop_sound fuel _ _ path Hstart Hfound).
  - unfold hexAStar.
    cbn [search_loop lowest_f fold_left lower_f node_q node_r].
    rewrite !Z.eqb_refl. cbn. now destruct goal.
Qed.

End PathFinding.

Lemma hexAStar_sound_witness :
  let isValid := fun q r : Z => negb ((q =? 1) && (r =? 0)) in
  let path := [mkHex 0 0; mkHex 0 1; mkHex 1 1; mkHex 2 0] in
  hexAStar (mkHex 2 0) isValid 20 (mkHex 0 0) = Some (Some path) /\
  (exists rest,
     path = mkHex 0 0 :: rest /\ walk isValid (mkHex 0 0) rest /\
     List.last path (mkHex 0 0) = mkHex 2 0) /\
  hexAStar (mkHex 2 0) isValid 1 (mkHex 2 0) = Some (Some [mkHex 2 0]).
Proof.
  intros isValid path.
  destruct (hexAStar_sound (mkHex 2 0) isValid (mkHex 0 0) 0) as [_ Hgoal].
  destruct (hexAStar_sound (mkHex 2 0) isValid (mkHex 0 0) 20) as [Hwalk _].
  assert (Hfound : hexAStar (mkHex 2 0) isValid 20 (mkHex 0 0)
                   = Some (Some path)) by (vm_compute; reflexivity).
  split_and!; [exact Hfound|exact (Hwalk path Hfound)|exact Hgoal].
Defined.
